(** * Symbol Bootstrap: preset resolution and account generation

    A shallow embedding of [ConfigLoader] (src/service/ConfigLoader.ts) and of
    [ConfigService.run] and [ConfigService.resolveNemesis]
    (src/service/ConfigService.ts), with the properties of the preset merger,
    the repeat expansion, the resolution of a preset, the account reconciler,
    the nemesis distribution engine, the migration of addresses.yml and the
    persistence of the two companion files.

    Conventions of the embedding.
    - A JavaScript [number] that holds an amount, a supply or a balance is
      the [Z] that is its value, and the arithmetic on it is that of
      doubles, with its rounding (module [Number]); a count or an index is
      a [nat] or a [Z].
    - [undefined] is [None]; a string is falsy when it is empty.
    - A function that throws returns [inl] of the error; a function that
      draws random bytes or writes files threads its state explicitly.
    - Calls to the logger are left out: they change no value. *)

From Stdlib Require Import ZArith List String Ascii Bool Lia DecimalString.
Import ListNotations.

Local Open Scope string_scope.
Local Open Scope list_scope.

(** ** Errors and the two monads of the embedding *)

(** [KnownError] is the class of BootstrapUtils that the catch block of
    [ConfigService.run] reports as a user error ([e.known]); the others are
    plain JavaScript errors. *)
Inductive Err : Type :=
| KnownError (message : string)
| Error (message : string)
| TypeError (message : string)
| RangeError (message : string).

Definition known (e : Err) : bool :=
  match e with KnownError _ => true | _ => false end.


(** Pure code that may throw. *)
Definition Res (A : Type) : Type := (Err + A)%type.

Definition ok {A} (a : A) : Res A := inr a.

Definition andThen {A B} (r : Res A) (k : A -> Res B) : Res B :=
  match r with inl e => inl e | inr a => k a end.

(** Code that may throw and that reads and writes a state [S]. *)
Definition M (S A : Type) : Type := S -> Err + (A * S).

Definition ret {S A} (a : A) : M S A := fun s => inr (a, s).

Definition throw {S A} (e : Err) : M S A := fun _ => inl e.

Definition bind {S A B} (m : M S A) (k : A -> M S B) : M S B :=
  fun s => match m s with inl e => inl e | inr (a, s') => k a s' end.

Definition liftRes {S A} (r : Res A) : M S A :=
  fun s => match r with inl e => inl e | inr a => inr (a, s) end.

Declare Scope m_scope.
Delimit Scope m_scope with m.
Notation "x <- c ;; k" := (bind c (fun x => k))
  (at level 100, c at next level, right associativity) : m_scope.
Notation "' p <- c ;; k" := (bind c (fun x => match x with p => k end))
  (at level 100, p pattern, c at next level, right associativity) : m_scope.
Notation "c ;;; k" := (bind c (fun _ => k))
  (at level 100, right associativity) : m_scope.

Fixpoint mapM {S A B} (f : A -> M S B) (l : list A) : M S (list B) :=
  match l with
  | [] => ret []
  | x :: r => (y <- f x ;; ys <- mapM f r ;; ret (y :: ys))%m
  end.

(** ** Strings *)

Definition upperAscii (c : ascii) : ascii :=
  let n := nat_of_ascii c in
  if (97 <=? n)%nat && (n <=? 122)%nat then ascii_of_nat (n - 32) else c.

(** [String.prototype.toUpperCase] on ASCII text (keys are hexadecimal). *)
Fixpoint toUpperCase (s : string) : string :=
  match s with
  | EmptyString => EmptyString
  | String c r => String (upperAscii c) (toUpperCase r)
  end.

Definition showNat (n : nat) : string := NilZero.string_of_uint (Nat.to_uint n).
Definition showZ (z : Z) : string := NilZero.string_of_int (Z.to_int z).

(** Truthiness of an optional string: [undefined] and [''] are falsy. *)
Definition truthy (s : option string) : bool :=
  match s with
  | Some EmptyString => false
  | Some _ => true
  | None => false
  end.

(** [a || b] on optional strings. *)
Definition orElse (a b : option string) : option string :=
  if truthy a then a else b.

(** [path.join] of a folder and a file name. *)
Definition join (folder file : string) : string := (folder ++ "/" ++ file)%string.


(** ** Numbers

    A JavaScript [number] is an IEEE 754 double. The supplies, amounts and
    balances of a preset are whole numbers of atomic units, and a number
    that holds one is the integer that is its value. The source adds,
    subtracts and divides them as doubles: each result is the double
    nearest to the exact one, a tie going to the even significand, which
    loses the low digits of a result of 2^53 or more. Comparisons and
    [Math.min] are exact. The range of the exponent is not modelled (a
    number stays below 2^1024 in magnitude), nor is a fractional amount. *)

Module Number.

Local Open Scope Z_scope.

(** The integer nearest to [p / q], for [0 < q]; a tie goes to the even
    one. *)
Definition nearest (p q : Z) : Z :=
  let f := p / q in
  let r := p mod q in
  if 2 * r <? q then f
  else if q <? 2 * r then f + 1
  else if Z.even f then f else f + 1.

(** The double nearest to the integer [z]: [z] itself below 2^53 in
    magnitude, else the nearest multiple of the unit in the last place
    [2^e] of its 53-bit significand. *)
Definition double (z : Z) : Z :=
  let e := Z.log2 (Z.abs z) - 52 in
  if e <=? 0 then z
  else Z.sgn z * (nearest (Z.abs z) (2 ^ e) * 2 ^ e).

(** [a + b] and [a - b]. *)
Definition add (a b : Z) : Z := double (a + b).
Definition sub (a b : Z) : Z := double (a - b).

(** The exponent [e] of the unit in the last place of the double nearest
    to [p / q], for [0 < p] and [0 < q]: [2^52 <= p / (q * 2^e) < 2^53]. *)
Definition exponent (p q : Z) : Z :=
  let k := Z.log2 p - Z.log2 q in
  (if p * 2 ^ Z.max 0 (- k) <? q * 2 ^ Z.max 0 k then k - 1 else k) - 52.

(** [Math.floor(a / n)] for [0 < n]: the quotient is the double nearest to
    [a / n], its significand times [2^e], and the floor is taken of that
    double. *)
Definition floorQuotient (a n : Z) : Z :=
  if a =? 0 then 0
  else
    let e := exponent (Z.abs a) n in
    let significand :=
      nearest (Z.abs a * 2 ^ Z.max 0 (- e)) (n * 2 ^ Z.max 0 e) in
    (Z.sgn a * significand * 2 ^ Z.max 0 e) / 2 ^ Z.max 0 (- e).


(** *** The arithmetic is exact on the safe integers *)

Lemma nearest_bounds :
  forall p q, 0 < q -> p / q <= nearest p q <= p / q + 1.
Proof.
  intros p q Hq. unfold nearest. cbv zeta.
  destruct (2 * (p mod q) <? q); [lia|].
  destruct (q <? 2 * (p mod q)); [lia|].
  destruct (Z.even (p / q)); lia.
Qed.

Lemma nearest_up :
  forall p q, 0 < q -> nearest p q = p / q + 1 -> q <= 2 * (p mod q).
Proof.
  intros p q Hq. unfold nearest. cbv zeta.
  destruct (2 * (p mod q) <? q) eqn:Hlow; [lia|].
  apply Z.ltb_ge in Hlow. intros _. exact Hlow.
Qed.

Lemma double_safe :
  forall z, Z.abs z < 2 ^ 53 -> double z = z.
Proof.
  intros z Hz. unfold double. cbv zeta.
  destruct (Z.log2 (Z.abs z) - 52 <=? 0) eqn:He; [reflexivity|].
  apply Z.leb_gt in He.
  destruct (Z.eq_dec (Z.abs z) 0) as [H0|H0].
  - rewrite H0 in He. simpl in He. lia.
  - assert (Hlog : Z.log2 (Z.abs z) < 53)
      by (apply Z.log2_lt_pow2; lia).
    lia.
Qed.

Lemma double_large :
  forall z, 2 ^ 53 <= z -> 2 ^ 53 <= double z.
Proof.
  intros z Hz. unfold double. cbv zeta.
  destruct (Z.log2 (Z.abs z) - 52 <=? 0) eqn:He; [exact Hz|].
  apply Z.leb_gt in He.
  assert (H53 : 0 < 2 ^ 53) by (apply Z.pow_pos_nonneg; lia).
  assert (Hpos : 0 < z) by lia.
  rewrite Z.abs_eq in He |- * by lia. rewrite Z.sgn_pos by exact Hpos.
  set (e := Z.log2 z - 52) in *.
  assert (Hpow : 0 < 2 ^ e) by (apply Z.pow_pos_nonneg; lia).
  pose proof (nearest_bounds z (2 ^ e) Hpow) as [Hlow _].
  assert (Hq : 2 ^ 52 <= z / 2 ^ e).
  { apply Z.div_le_lower_bound; [exact Hpow|].
    rewrite <- Z.pow_add_r by lia.
    replace (e + 52) with (Z.log2 z) by (unfold e; lia).
    apply Z.log2_spec. exact Hpos. }
  assert (H2 : 2 <= 2 ^ e).
  { change 2 with (2 ^ 1) at 1. apply Z.pow_le_mono_r; lia. }
  change (2 ^ 53) with (2 ^ 52 * 2).
  rewrite Z.mul_1_l.
  apply Z.mul_le_mono_nonneg; lia.
Qed.

Lemma double_nonneg : forall z, 0 <= z -> 0 <= double z.
Proof.
  intros z Hz. destruct (Z.lt_ge_cases z (2 ^ 53)) as [Hlt|Hge].
  - rewrite double_safe by (rewrite Z.abs_eq; lia). exact Hz.
  - pose proof (double_large z Hge).
    assert (H53 : 0 < 2 ^ 53) by (apply Z.pow_pos_nonneg; lia). lia.
Qed.

Lemma double_odd : forall z, double (- z) = - double z.
Proof.
  intros z. unfold double. cbv zeta. rewrite Z.abs_opp, Z.sgn_opp.
  destruct (Z.log2 (Z.abs z) - 52 <=? 0); lia.
Qed.

Lemma double_negative : forall z, z < 0 -> double z < 0.
Proof.
  intros z Hz. replace z with (- (- z)) by lia. rewrite double_odd.
  destruct (Z.lt_ge_cases (- z) (2 ^ 53)) as [Hlt|Hge].
  - rewrite double_safe by (rewrite Z.abs_eq; lia). lia.
  - pose proof (double_large (- z) Hge).
    assert (H53 : 0 < 2 ^ 53) by (apply Z.pow_pos_nonneg; lia). lia.
Qed.

(** The sum of two numbers that the result shows to be safe is exact. *)
Lemma add_exact :
  forall a b, 0 <= a -> 0 <= b -> add a b < 2 ^ 53 -> add a b = a + b.
Proof.
  intros a b Ha Hb H. unfold add in *.
  destruct (Z.lt_ge_cases (a + b) (2 ^ 53)) as [Hlt|Hge].
  - apply double_safe. rewrite Z.abs_eq; lia.
  - pose proof (double_large (a + b) Hge). lia.
Qed.

Lemma add_safe :
  forall a b, Z.abs (a + b) < 2 ^ 53 -> add a b = a + b.
Proof. intros a b H. apply double_safe. exact H. Qed.

Lemma sub_safe :
  forall a b, Z.abs (a - b) < 2 ^ 53 -> sub a b = a - b.
Proof. intros a b H. apply double_safe. exact H. Qed.


(** The exponent that [exponent] chooses scales a safe dividend to at
    least 2^52 times the divisor. *)
Lemma exponent_safe :
  forall p q,
    0 < p < 2 ^ 53 -> 0 < q ->
    exponent p q <= 0 /\ 2 ^ 52 * q <= p * 2 ^ (- exponent p q).
Proof.
  intros p q Hp Hq. unfold exponent. cbv zeta.
  pose proof (Z.log2_spec p ltac:(lia)) as [Hp1 Hp2].
  pose proof (Z.log2_spec q Hq) as [Hq1 Hq2].
  pose proof (Z.log2_nonneg p) as Hlp0.
  pose proof (Z.log2_nonneg q) as Hlq0.
  assert (Hlp : Z.log2 p < 53) by (apply Z.log2_lt_pow2; lia).
  set (lp := Z.log2 p) in *. set (lq := Z.log2 q) in *.
  (* the two cases in which the quotient is below 2^k *)
  assert (Hbelow : 2 ^ 52 * q <= p * 2 ^ (- (lp - lq - 1 - 52))).
  { replace (- (lp - lq - 1 - 52)) with ((52 - lp) + Z.succ lq) by lia.
    rewrite Z.pow_add_r by lia.
    assert (H1 : 2 ^ 52 <= p * 2 ^ (52 - lp)).
    { replace 52 with (lp + (52 - lp)) at 1 by lia.
      rewrite Z.pow_add_r by lia.
      apply Z.mul_le_mono_nonneg_r; [|exact Hp1].
      apply Z.pow_nonneg. lia. }
    assert (H2 : 0 <= 2 ^ 52) by (apply Z.pow_nonneg; lia).
    assert (H3 : 0 <= 2 ^ (52 - lp)) by (apply Z.pow_nonneg; lia).
    nia. }
  destruct (Z.le_gt_cases 0 (lp - lq)) as [Hk|Hk].
  - rewrite (Z.max_l 0 (- (lp - lq))) by lia.
    rewrite (Z.max_r 0 (lp - lq)) by lia.
    rewrite Z.pow_0_r, Z.mul_1_r.
    destruct (p <? q * 2 ^ (lp - lq)) eqn:Htest.
    + split; [lia | exact Hbelow].
    + apply Z.ltb_ge in Htest. split; [lia|].
      replace (- (lp - lq - 52)) with (52 - (lp - lq)) by lia.
      replace 52 with ((lp - lq) + (52 - (lp - lq))) at 1 by lia.
      rewrite Z.pow_add_r by lia.
      assert (H3 : 0 <= 2 ^ (52 - (lp - lq))) by (apply Z.pow_nonneg; lia).
      nia.
  - rewrite (Z.max_r 0 (- (lp - lq))) by lia.
    rewrite (Z.max_l 0 (lp - lq)) by lia.
    rewrite Z.pow_0_r, Z.mul_1_r.
    destruct (p * 2 ^ (- (lp - lq)) <? q) eqn:Htest.
    + split; [lia | exact Hbelow].
    + apply Z.ltb_ge in Htest. split; [lia|].
      replace (- (lp - lq - 52)) with (- (lp - lq) + 52) by lia.
      rewrite Z.pow_add_r by lia.
      assert (H3 : 0 <= 2 ^ 52) by (apply Z.pow_nonneg; lia).
      nia.
Qed.

(** On a safe dividend, the floor of the rounded quotient is the floor of
    the exact one. *)
Lemma floorQuotient_safe :
  forall a n, 0 <= a < 2 ^ 53 -> 0 < n -> floorQuotient a n = a / n.
Proof.
  intros a n Ha Hn. unfold floorQuotient. cbv zeta.
  destruct (a =? 0) eqn:H0.
  - apply Z.eqb_eq in H0. subst a. rewrite Z.div_0_l by lia. reflexivity.
  - apply Z.eqb_neq in H0.
    rewrite Z.abs_eq by lia. rewrite Z.sgn_pos by lia.
    destruct (exponent_safe a n ltac:(lia) Hn) as [He Hscaled].
    set (e := exponent a n) in *.
    rewrite (Z.max_r 0 (- e)) by lia. rewrite (Z.max_l 0 e) by lia.
    rewrite Z.pow_0_r, !Z.mul_1_r, Z.mul_1_l.
    set (s := 2 ^ (- e)) in *.
    assert (Hs : 0 < s) by (apply Z.pow_pos_nonneg; lia).
    pose proof (nearest_bounds (a * s) n Hn) as [Hlow Hhigh].
    pose proof (nearest_up (a * s) n Hn) as Hup.
    set (m := nearest (a * s) n) in *.
    pose proof (Z.div_mod a n ltac:(lia)) as Ha_mod.
    pose proof (Z.mod_pos_bound a n Hn) as Ht.
    pose proof (Z.div_mod (a * s) n ltac:(lia)) as Hf_mod.
    pose proof (Z.mod_pos_bound (a * s) n Hn) as Hr.
    set (q := a / n) in *. set (t := a mod n) in *.
    set (f := (a * s) / n) in *. set (r := (a * s) mod n) in *.
    assert (H53 : 2 ^ 53 = 2 * 2 ^ 52) by reflexivity.
    assert (H52 : 0 < 2 ^ 52) by (apply Z.pow_pos_nonneg; lia).
    assert (Hfl : q * s <= f) by nia.
    assert (Hfh : f <= q * s + s - 1) by nia.
    assert (Hm : q * s <= m < (q + 1) * s).
    { split; [lia|].
      destruct (Z.eq_dec m (f + 1)) as [Hmf|Hmf]; [|lia].
      specialize (Hup Hmf).
      destruct (Z.eq_dec f (q * s + s - 1)) as [Hfe|Hfe]; [|lia].
      exfalso.
      assert (Hn2 : n < 2 * s) by nia.
      nia. }
    symmetry. apply (Z.div_unique m s q (m - q * s)); lia.
Qed.

End Number.

(** ** The account generator and the nemesis distribution engine *)

Module Loader.

(** [NetworkType] of symbol-sdk, a numeric enumeration. *)
Definition NetworkType : Type := Z.

(** Modelled from the spec: the declaration of [PrivateKeySecurityMode]
    (src/model) is missing; the four values are the ones [generateAccount]
    names, in the spec's ascending strictness, and each one's string is its
    own name. *)
Inductive PrivateKeySecurityMode : Type :=
| ENCRYPT
| PROMPT_MAIN
| PROMPT_MAIN_TRANSPORT
| PROMPT_ALL.

Definition modeString (m : PrivateKeySecurityMode) : string :=
  match m with
  | ENCRYPT => "ENCRYPT"
  | PROMPT_MAIN => "PROMPT_MAIN"
  | PROMPT_MAIN_TRANSPORT => "PROMPT_MAIN_TRANSPORT"
  | PROMPT_ALL => "PROMPT_ALL"
  end.

(** [KeyName] of ConfigService.ts. *)
Inductive KeyName : Type :=
| Main
| Remote
| Transport
| Voting
| VRF
| Agent
| NemesisSigner
| NemesisAccount.

Definition keyNameString (k : KeyName) : string :=
  match k with
  | Main => "Main"
  | Remote => "Remote"
  | Transport => "Transport"
  | Voting => "Voting"
  | VRF => "VRF"
  | Agent => "Agent"
  | NemesisSigner => "Nemesis Signer"
  | NemesisAccount => "Nemesis Account"
  end.

Definition isMain (k : KeyName) : bool :=
  match k with Main => true | _ => false end.

Definition isTransport (k : KeyName) : bool :=
  match k with Transport => true | _ => false end.

Definition isMode (a b : PrivateKeySecurityMode) : bool :=
  match a, b with
  | ENCRYPT, ENCRYPT | PROMPT_MAIN, PROMPT_MAIN
  | PROMPT_MAIN_TRANSPORT, PROMPT_MAIN_TRANSPORT | PROMPT_ALL, PROMPT_ALL => true
  | _, _ => false
  end.

(** Modelled from the spec: [ConfigAccount] (src/model is missing), as
    [toConfig] builds it: [{ privateKey?, publicKey, address }]. *)
Module ConfigAccount.
Record t : Type := mk {
  privateKey : option string;
  publicKey : string;
  address : string
}.
End ConfigAccount.

(** [{ ...a, ...b }] on two accounts: [b]'s fields win, and [a]'s private
    key stays when [b] has none. *)
Definition spreadAccount (a b : ConfigAccount.t) : ConfigAccount.t :=
  ConfigAccount.mk
    (match ConfigAccount.privateKey b with
     | Some k => Some k
     | None => ConfigAccount.privateKey a
     end)
    (ConfigAccount.publicKey b)
    (ConfigAccount.address b).

(** What was drawn from the random source, in order. The origin of an
    account is bookkeeping of the embedding: it names the call site of
    [Account.generateNewAccount]. *)
Inductive Origin : Type :=
| SinkAccount
| FreeAccount
| KeyAccount (keyName : KeyName).

Inductive Draw : Type :=
| RandomBytes
| NewAccount (origin : Origin).

(** The state of a run: the draws made so far. *)
Definition World : Type := list Draw.

Definition Gen (A : Type) : Type := M World A.

(** An account of symbol-sdk: an [Account] knows its private key, a
    [PublicAccount] does not. *)
Inductive SdkAccount : Type :=
| Account (privateKey publicKey address : string)
| PublicAccount (publicKey address : string).

Definition sdkPublicKey (a : SdkAccount) : string :=
  match a with Account _ p _ => p | PublicAccount p _ => p end.

Definition sdkAddress (a : SdkAccount) : string :=
  match a with Account _ _ x => x | PublicAccount _ x => x end.

(** [toConfig], the method and the static function alike. *)
Definition toConfig (account : SdkAccount) : ConfigAccount.t :=
  match account with
  | Account k p x => ConfigAccount.mk (Some k) p x
  | PublicAccount p x => ConfigAccount.mk None p x
  end.

(** Modelled from the spec: the interfaces of src/model are missing; each
    record below has the fields that ConfigLoader.ts reads or writes, with
    the optional ones as options. *)

(** An entry of [currencyDistributions]. *)
Module Distribution.
Record t : Type := mk {
  address : string;
  amount : Z
}.
End Distribution.

(** [m.accounts]: a count, or the private keys of the accounts. *)
Inductive AccountsSpec : Type :=
| Count (n : Z)
| PrivateKeys (keys : list string).

(** A mosaic of [presetData.nemesis.mosaics]. *)
Module MosaicPreset.
Record t : Type := mk {
  name : string;
  supply : Z;
  accounts : option AccountsSpec;
  currencyDistributions : option (list Distribution.t)
}.
Definition withCurrencyDistributions (d : list Distribution.t) (m : t) : t :=
  mk (name m) (supply m) (accounts m) (Some d).
End MosaicPreset.

(** [presetData.nemesis]. *)
Module NemesisPreset.
Record t : Type := mk {
  mosaics : option (list MosaicPreset.t);
  nemesisSignerPrivateKey : option string
}.
Definition withMosaics (ms : list MosaicPreset.t) (n : t) : t :=
  mk (Some ms) (nemesisSignerPrivateKey n).
Definition withNemesisSignerPrivateKey (k : string) (n : t) : t :=
  mk (mosaics n) (Some k).
End NemesisPreset.

(** A node of [presetData.nodes]. *)
Module NodePreset.
Record t : Type := mk {
  name : option string;
  friendlyName : option string;
  roles : option string;
  syncsource : bool;
  api : bool;
  voting : bool;
  harvesting : bool;
  rewardProgram : option string;
  nodeUseRemoteAccount : bool;
  mainPrivateKey : option string;
  mainPublicKey : option string;
  transportPrivateKey : option string;
  transportPublicKey : option string;
  remotePrivateKey : option string;
  remotePublicKey : option string;
  vrfPrivateKey : option string;
  vrfPublicKey : option string;
  agentPrivateKey : option string;
  agentPublicKey : option string;
  balances : option (list Z)
}.
End NodePreset.

(** [ConfigPreset], the resolved preset. *)
Module ConfigPreset.
Record t : Type := mk {
  networkType : option NetworkType;
  preset : string;
  nemesisGenerationHashSeed : option string;
  sinkAddress : option string;
  nodes : option (list NodePreset.t);
  harvestNetworkFeeSinkAddress : option string;
  mosaicRentalFeeSinkAddress : option string;
  namespaceRentalFeeSinkAddress : option string;
  networkIdentifier : option string;
  networkName : option string;
  privateKeySecurityMode : option string;
  nemesis : option NemesisPreset.t;
  nemesisSeedFolder : option string;
  nemesisSignerPublicKey : option string;
  currencyMosaicId : option string;
  harvestingMosaicId : option string;
  maxHarvesterBalance : Z;
  nodeUseRemoteAccount : bool
}.
Definition withHarvestNetworkFeeSinkAddress (v : string) (p : t) : t :=
  mk (networkType p) (preset p) (nemesisGenerationHashSeed p) (sinkAddress p)
     (nodes p) (Some v) (mosaicRentalFeeSinkAddress p)
     (namespaceRentalFeeSinkAddress p) (networkIdentifier p) (networkName p)
     (privateKeySecurityMode p) (nemesis p) (nemesisSeedFolder p)
     (nemesisSignerPublicKey p) (currencyMosaicId p) (harvestingMosaicId p)
     (maxHarvesterBalance p) (nodeUseRemoteAccount p).
Definition withMosaicRentalFeeSinkAddress (v : string) (p : t) : t :=
  mk (networkType p) (preset p) (nemesisGenerationHashSeed p) (sinkAddress p)
     (nodes p) (harvestNetworkFeeSinkAddress p) (Some v)
     (namespaceRentalFeeSinkAddress p) (networkIdentifier p) (networkName p)
     (privateKeySecurityMode p) (nemesis p) (nemesisSeedFolder p)
     (nemesisSignerPublicKey p) (currencyMosaicId p) (harvestingMosaicId p)
     (maxHarvesterBalance p) (nodeUseRemoteAccount p).
Definition withNamespaceRentalFeeSinkAddress (v : string) (p : t) : t :=
  mk (networkType p) (preset p) (nemesisGenerationHashSeed p) (sinkAddress p)
     (nodes p) (harvestNetworkFeeSinkAddress p) (mosaicRentalFeeSinkAddress p)
     (Some v) (networkIdentifier p) (networkName p)
     (privateKeySecurityMode p) (nemesis p) (nemesisSeedFolder p)
     (nemesisSignerPublicKey p) (currencyMosaicId p) (harvestingMosaicId p)
     (maxHarvesterBalance p) (nodeUseRemoteAccount p).
Definition withNetwork (identifier name : string) (p : t) : t :=
  mk (networkType p) (preset p) (nemesisGenerationHashSeed p) (sinkAddress p)
     (nodes p) (harvestNetworkFeeSinkAddress p) (mosaicRentalFeeSinkAddress p)
     (namespaceRentalFeeSinkAddress p) (Some identifier) (Some name)
     (privateKeySecurityMode p) (nemesis p) (nemesisSeedFolder p)
     (nemesisSignerPublicKey p) (currencyMosaicId p) (harvestingMosaicId p)
     (maxHarvesterBalance p) (nodeUseRemoteAccount p).
Definition withNemesisGenerationHashSeed (v : string) (p : t) : t :=
  mk (networkType p) (preset p) (Some v) (sinkAddress p)
     (nodes p) (harvestNetworkFeeSinkAddress p) (mosaicRentalFeeSinkAddress p)
     (namespaceRentalFeeSinkAddress p) (networkIdentifier p) (networkName p)
     (privateKeySecurityMode p) (nemesis p) (nemesisSeedFolder p)
     (nemesisSignerPublicKey p) (currencyMosaicId p) (harvestingMosaicId p)
     (maxHarvesterBalance p) (nodeUseRemoteAccount p).
Definition withNemesis (v : option NemesisPreset.t) (p : t) : t :=
  mk (networkType p) (preset p) (nemesisGenerationHashSeed p) (sinkAddress p)
     (nodes p) (harvestNetworkFeeSinkAddress p) (mosaicRentalFeeSinkAddress p)
     (namespaceRentalFeeSinkAddress p) (networkIdentifier p) (networkName p)
     (privateKeySecurityMode p) v (nemesisSeedFolder p)
     (nemesisSignerPublicKey p) (currencyMosaicId p) (harvestingMosaicId p)
     (maxHarvesterBalance p) (nodeUseRemoteAccount p).
Definition withNemesisSignerPublicKey (v : string) (p : t) : t :=
  mk (networkType p) (preset p) (nemesisGenerationHashSeed p) (sinkAddress p)
     (nodes p) (harvestNetworkFeeSinkAddress p) (mosaicRentalFeeSinkAddress p)
     (namespaceRentalFeeSinkAddress p) (networkIdentifier p) (networkName p)
     (privateKeySecurityMode p) (nemesis p) (nemesisSeedFolder p)
     (Some v) (currencyMosaicId p) (harvestingMosaicId p)
     (maxHarvesterBalance p) (nodeUseRemoteAccount p).
Definition withCurrencyMosaicId (v : string) (p : t) : t :=
  mk (networkType p) (preset p) (nemesisGenerationHashSeed p) (sinkAddress p)
     (nodes p) (harvestNetworkFeeSinkAddress p) (mosaicRentalFeeSinkAddress p)
     (namespaceRentalFeeSinkAddress p) (networkIdentifier p) (networkName p)
     (privateKeySecurityMode p) (nemesis p) (nemesisSeedFolder p)
     (nemesisSignerPublicKey p) (Some v) (harvestingMosaicId p)
     (maxHarvesterBalance p) (nodeUseRemoteAccount p).
Definition withHarvestingMosaicId (v : option string) (p : t) : t :=
  mk (networkType p) (preset p) (nemesisGenerationHashSeed p) (sinkAddress p)
     (nodes p) (harvestNetworkFeeSinkAddress p) (mosaicRentalFeeSinkAddress p)
     (namespaceRentalFeeSinkAddress p) (networkIdentifier p) (networkName p)
     (privateKeySecurityMode p) (nemesis p) (nemesisSeedFolder p)
     (nemesisSignerPublicKey p) (currencyMosaicId p) v
     (maxHarvesterBalance p) (nodeUseRemoteAccount p).
End ConfigPreset.

(** The accounts of a node in addresses.yml. *)
Module NodeAccount.
Record t : Type := mk {
  name : string;
  friendlyName : string;
  roles : string;
  main : option ConfigAccount.t;
  transport : option ConfigAccount.t;
  remote : option ConfigAccount.t;
  vrf : option ConfigAccount.t;
  agent : option ConfigAccount.t
}.
End NodeAccount.

(** The generated accounts of a mosaic in addresses.yml. *)
Module MosaicAccounts.
Record t : Type := mk {
  id : string;
  name : string;
  accounts : list ConfigAccount.t
}.
End MosaicAccounts.

(** [Addresses], the content of addresses.yml. *)
Module Addresses.
Record t : Type := mk {
  version : nat;
  networkType : NetworkType;
  nemesisGenerationHashSeed : string;
  sinkAddress : option string;
  nemesisSigner : option ConfigAccount.t;
  nodes : option (list NodeAccount.t);
  mosaics : option (list MosaicAccounts.t)
}.
Definition withSinkAddress (v : string) (a : t) : t :=
  mk (version a) (networkType a) (nemesisGenerationHashSeed a) (Some v)
     (nemesisSigner a) (nodes a) (mosaics a).
Definition withNemesisSigner (v : ConfigAccount.t) (a : t) : t :=
  mk (version a) (networkType a) (nemesisGenerationHashSeed a) (sinkAddress a)
     (Some v) (nodes a) (mosaics a).
Definition withNodes (v : list NodeAccount.t) (a : t) : t :=
  mk (version a) (networkType a) (nemesisGenerationHashSeed a) (sinkAddress a)
     (nemesisSigner a) (Some v) (mosaics a).
Definition withMosaics (v : option (list MosaicAccounts.t)) (a : t) : t :=
  mk (version a) (networkType a) (nemesisGenerationHashSeed a) (sinkAddress a)
     (nemesisSigner a) (nodes a) v.
End Addresses.

Section Sdk.

(** The cryptography of symbol-sdk and the random source are parameters:
    the public key of a private key, the plain address of a public key on a
    network, and the private key of the n-th random draw. Keys are taken to
    be well-formed hexadecimal, so the constructors of the sdk do not throw. *)
Variable publicKeyOf : string -> string.
Variable addressOf : NetworkType -> string -> string.
Variable randomPrivateKey : nat -> string.

(** [Account.createFromPrivateKey]: the account reports its private key in
    upper-case hexadecimal. *)
Definition createFromPrivateKey (privateKey : string) (networkType : NetworkType)
  : SdkAccount :=
  let k := toUpperCase privateKey in
  Account k (publicKeyOf k) (addressOf networkType (publicKeyOf k)).

(** [PublicAccount.createFromPublicKey]: the key is kept as given. *)
Definition createFromPublicKey (publicKey : string) (networkType : NetworkType)
  : SdkAccount :=
  PublicAccount publicKey (addressOf networkType publicKey).

(** [Account.generateNewAccount]: one draw from the random source. *)
Definition generateNewAccount (networkType : NetworkType) (origin : Origin)
  : Gen SdkAccount :=
  fun w =>
    inr (createFromPrivateKey (randomPrivateKey (List.length w)) networkType,
         w ++ [NewAccount origin]).

Definition getAccount (networkType : NetworkType)
    (publicKey privateKey : option string) : option SdkAccount :=
  if truthy privateKey
  then option_map (fun k => createFromPrivateKey k networkType) privateKey
  else if truthy publicKey
  then option_map (fun p => createFromPublicKey p networkType) publicKey
  else None.

Definition cannotBeGenerated (keyName : KeyName)
    (mode : PrivateKeySecurityMode) (advice : string) : Err :=
  KnownError
    ("Account " ++ keyNameString keyName
     ++ " cannot be generated when Private Key Security Mode is "
     ++ modeString mode ++ ". Account won't be stored anywhere!" ++ advice
     ++ ", or provider your " ++ keyNameString keyName
     ++ " account with custom presets!")%string.

(** The constant [oldAccount] of [generateAccount]. *)
Definition oldAccountOf (networkType : NetworkType)
    (oldStoredAccount : option ConfigAccount.t) : option SdkAccount :=
  getAccount networkType
    (option_map (fun a => toUpperCase (ConfigAccount.publicKey a)) oldStoredAccount)
    (match oldStoredAccount with
     | Some a => option_map toUpperCase (ConfigAccount.privateKey a)
     | None => None
     end).

(** The constant [newAccount] of [generateAccount]. *)
Definition newAccountOf (networkType : NetworkType)
    (privateKey publicKey : option string) : option SdkAccount :=
  getAccount networkType (option_map toUpperCase publicKey)
    (option_map toUpperCase privateKey).

Definition generateAccount (networkType : NetworkType)
    (privateKeySecurityMode : PrivateKeySecurityMode) (keyName : KeyName)
    (oldStoredAccount : option ConfigAccount.t)
    (privateKey publicKey : option string) : Gen ConfigAccount.t :=
  match oldAccountOf networkType oldStoredAccount,
        newAccountOf networkType privateKey publicKey with
  | Some o, None => ret (toConfig o)
  | None, Some n => ret (toConfig n)
  | Some o, Some n =>
      if (sdkAddress o =? sdkAddress n)%string
      then ret (spreadAccount (toConfig o) (toConfig n))
      else ret (toConfig n)
  | None, None =>
      ((if isMain keyName
           && (isMode privateKeySecurityMode PROMPT_ALL
               || isMode privateKeySecurityMode PROMPT_MAIN_TRANSPORT
               || isMode privateKeySecurityMode PROMPT_MAIN)
        then throw (cannotBeGenerated keyName privateKeySecurityMode
                      (". Please use " ++ modeString ENCRYPT)%string)
        else ret tt) ;;;
       (if isTransport keyName
           && (isMode privateKeySecurityMode PROMPT_ALL
               || isMode privateKeySecurityMode PROMPT_MAIN_TRANSPORT)
        then throw (cannotBeGenerated keyName privateKeySecurityMode
                      (". Please use " ++ modeString ENCRYPT ++ ", "
                       ++ modeString PROMPT_MAIN)%string)
        else if isMode privateKeySecurityMode PROMPT_ALL
        then throw (cannotBeGenerated keyName privateKeySecurityMode
                      (" Please use " ++ modeString ENCRYPT ++ ", "
                       ++ modeString PROMPT_MAIN ++ ", "
                       ++ modeString PROMPT_MAIN_TRANSPORT)%string)
        else ret tt) ;;;
       account <- generateNewAccount networkType (KeyAccount keyName) ;;
       ret (toConfig account))%m
  end.


(** *** Free accounts of a mosaic *)

(** [ConfigLoader.getArray]: [[...Array(size).keys()]]. *)
Definition getArray (size : Z) : Res (list nat) :=
  if (size <? 0)%Z || (4294967295 <? size)%Z
  then inl (RangeError "Invalid array length")
  else ok (seq 0 (Z.to_nat size)).

Definition generateAddresses (networkType : NetworkType)
    (privateKeySecurityMode : PrivateKeySecurityMode) (accounts : AccountsSpec)
  : Gen (list ConfigAccount.t) :=
  match accounts with
  | Count n =>
      (indexes <- liftRes (getArray n) ;;
       mapM (fun _ => account <- generateNewAccount networkType FreeAccount ;;
                      ret (toConfig account)) indexes)%m
  | PrivateKeys keys =>
      ret (map (fun key => toConfig (createFromPrivateKey key networkType)) keys)
  end.

(** [m.accounts || 1]: a missing count and the count 0 are falsy. *)
Definition accountsOrOne (accounts : option AccountsSpec) : AccountsSpec :=
  match accounts with
  | None => Count 1
  | Some (Count 0) => Count 1
  | Some spec => spec
  end.

(** *** The distribution of a mosaic (lines 137-199) *)

Local Open Scope Z_scope.

(** The [map] of the local function [sum]: the amounts, or the error of the
    first negative one. *)
Fixpoint checkedAmounts (mosaicName : string) (index : nat)
    (distribution : list Distribution.t) : Res (list Z) :=
  match distribution with
  | [] => ok []
  | d :: rest =>
      if Distribution.amount d <? 0
      then inl (Error
        ("Nemesis distribution balance cannot be less than 0. Mosaic "
         ++ mosaicName ++ ", distribution address: " ++ Distribution.address d
         ++ ", amount: " ++ showZ (Distribution.amount d)
         ++ ", index " ++ showNat index)%string)
      else andThen (checkedAmounts mosaicName (S index) rest)
             (fun amounts => ok (Distribution.amount d :: amounts))
  end.

(** The local function [sum]: [map] with the check, then [reduce] from 0
    with the addition of doubles. *)
Definition sum (mosaicName : string) (distribution : list Distribution.t)
  : Res Z :=
  andThen (checkedAmounts mosaicName 0 distribution)
    (fun amounts => ok (fold_left Number.add amounts 0)).

(** The elements of an array with their indexes. *)
Definition indexed {A} (l : list A) : list (nat * A) :=
  combine (seq 0 (List.length l)) l.

(** [getBalance]: [presetData?.nodes?.[nodeIndex].balances?.[mosaicIndex]].
    The node indexes are those of [addresses.nodes], which is the image of
    [presetData.nodes], so [nodes[nodeIndex]] is always defined. *)
Definition getBalance (presetData : ConfigPreset.t) (mosaicIndex nodeIndex : nat)
  : option Z :=
  match ConfigPreset.nodes presetData with
  | Some nodes =>
      match nth_error nodes nodeIndex with
      | Some node =>
          match NodePreset.balances node with
          | Some balances => nth_error balances mosaicIndex
          | None => None
          end
      | None => None
      end
  | None => None
  end.

(** [providedDistributions]: the preset's own entries, then one entry per
    node with a declared balance. *)
Definition providedDistributions (presetData : ConfigPreset.t)
    (nodes : list NodeAccount.t) (mosaicIndex : nat) (m : MosaicPreset.t)
  : list Distribution.t :=
  (match MosaicPreset.currencyDistributions m with
   | Some distributions => distributions
   | None => []
   end)
  ++ flat_map
       (fun entry : nat * NodeAccount.t =>
          match NodeAccount.main (snd entry),
                getBalance presetData mosaicIndex (fst entry) with
          | Some main, Some balance =>
              [Distribution.mk (ConfigAccount.address main) balance]
          | _, _ => []
          end)
       (indexed nodes).

(** [nodeMainAccounts]: the nodes with a main account and no declared
    balance. *)
Definition nodeMainAccounts (presetData : ConfigPreset.t)
    (nodes : list NodeAccount.t) (mosaicIndex : nat) : list NodeAccount.t :=
  map snd
    (filter
       (fun entry : nat * NodeAccount.t =>
          match NodeAccount.main (snd entry),
                getBalance presetData mosaicIndex (fst entry) with
          | Some _, None => true
          | _, _ => false
          end)
       (indexed nodes)).

(** [n.main!.address]: the filter of [nodeMainAccounts] keeps only nodes
    with a main account. *)
Definition mainAddress (n : NodeAccount.t) : string :=
  match NodeAccount.main n with
  | Some main => ConfigAccount.address main
  | None => EmptyString
  end.

Definition MAX_SAFE_INTEGER : Z := 9007199254740991.

(** The local [maxHarvesterBalance]. *)
Definition effectiveMaxHarvesterBalance (presetData : ConfigPreset.t)
    (mosaicsLength mosaicIndex : nat) : Z :=
  if ((mosaicsLength =? 1)%nat && (mosaicIndex =? 0)%nat)
     || ((1 <? mosaicsLength)%nat && (mosaicIndex =? 1)%nat)
  then ConfigPreset.maxHarvesterBalance presetData
  else MAX_SAFE_INTEGER.

(** [amountPerAccount]: [Math.floor(remainingSupply / dynamicAccounts)].
    With no dynamic account the quotient is not used: [generatedAccounts]
    is empty. *)
Definition amountPerAccount (remainingSupply : Z) (dynamicAccounts : nat) : Z :=
  Number.floorQuotient remainingSupply (Z.of_nat dynamicAccounts).

(** [generatedAccounts]. *)
Definition generatedAccounts (accounts : list ConfigAccount.t)
    (nodeMains : list NodeAccount.t) (perAccount maxHarvester : Z)
  : list Distribution.t :=
  map (fun a => Distribution.mk (ConfigAccount.address a) perAccount) accounts
  ++ map (fun n => Distribution.mk (mainAddress n) (Z.min maxHarvester perAccount))
       nodeMains.

(** Lines 190-194: the zero filter, then the assignment to
    [m.currencyDistributions[0].amount]. The entries are distinct objects,
    so the assignment changes the first entry of the filtered array and no
    other; on an empty array it is a TypeError. *)
Definition correctedDistributions (generated provided : list Distribution.t)
    (amount : Z) : Res (list Distribution.t) :=
  match filter (fun d => 0 <? Distribution.amount d) (generated ++ provided) with
  | [] => inl (TypeError "Cannot set properties of undefined (setting 'amount')")
  | first :: rest => ok (Distribution.mk (Distribution.address first) amount :: rest)
  end.

(** Lines 159-194 of the turn of a mosaic, after the free accounts are
    generated: the entries of [m.currencyDistributions] as the last check
    finds them. *)
Definition finalDistributions (presetData : ConfigPreset.t)
    (nodes : list NodeAccount.t) (mosaicsLength mosaicIndex : nat)
    (accounts : list ConfigAccount.t) (m : MosaicPreset.t)
  : Res (list Distribution.t) :=
  let mosaicName := MosaicPreset.name m in
  let provided := providedDistributions presetData nodes mosaicIndex m in
  let nodeMains := nodeMainAccounts presetData nodes mosaicIndex in
  andThen (sum mosaicName provided) (fun providedSupply =>
  let remainingSupply := Number.sub (MosaicPreset.supply m) providedSupply in
  let dynamicAccounts := (List.length accounts + List.length nodeMains)%nat in
  let perAccount := amountPerAccount remainingSupply dynamicAccounts in
  let maxHarvester :=
    effectiveMaxHarvesterBalance presetData mosaicsLength mosaicIndex in
  let generated := generatedAccounts accounts nodeMains perAccount maxHarvester in
  andThen (sum mosaicName (skipn 1 generated)) (fun generatedSupply =>
  correctedDistributions generated provided
    (Number.sub (Number.sub (MosaicPreset.supply m) providedSupply)
       generatedSupply))).

(** The text of the error of line 198. A number is printed as the integer
    that is its value: the digits that JavaScript prints for a safe integer
    (beyond, JavaScript prints the shortest digits that denote the double). *)
Definition invalidTotal (supply supplied : Z) : string :=
  ("Invalid nemgen total supplied value, expected "
   ++ showZ supply ++ " but total is " ++ showZ supplied)%string.

(** The body of the [forEach] on [presetData.nemesis.mosaics], after the
    free accounts are generated: the mosaic with its final
    [currencyDistributions], which the check of lines 196-199 accepts. *)
Definition distributeMosaic (presetData : ConfigPreset.t)
    (nodes : list NodeAccount.t) (mosaicsLength mosaicIndex : nat)
    (accounts : list ConfigAccount.t) (m : MosaicPreset.t) : Res MosaicPreset.t :=
  andThen (finalDistributions presetData nodes mosaicsLength mosaicIndex
             accounts m)
    (fun currencyDistributions =>
  andThen (sum (MosaicPreset.name m) currencyDistributions) (fun supplied =>
  if MosaicPreset.supply m =? supplied
  then ok (MosaicPreset.withCurrencyDistributions currencyDistributions m)
  else inl (Error (invalidTotal (MosaicPreset.supply m) supplied)))).

Local Close Scope Z_scope.

(** *** Node accounts *)

(** The rest of the environment of [generateRandomConfiguration]:
    [CryptoUtils.getPrivateKeySecurityMode], the two network tables of
    BootstrapUtils, [BootstrapUtils.isYmlFile] and [existsSync] (files of
    src that are missing), the hexadecimal of the n-th draw of 32 random
    bytes, [MosaicId.createFromNonce(...).toHex()] and the private key that
    the operator types at the prompt of [CommandUtils.resolvePrivateKey]. *)
Variable getPrivateKeySecurityMode : option string -> Res PrivateKeySecurityMode.
Variable getNetworkIdentifier : NetworkType -> Res string.
Variable getNetworkName : NetworkType -> Res string.
Variable isYmlFile : string -> bool.
Variable existsSync : string -> bool.
Variable randomSeed : nat -> string.
Variable mosaicIdOf : nat -> string -> string.
Variable promptPrivateKey : NetworkType -> ConfigAccount.t -> KeyName -> string.

Definition resolveRoles (nodePreset : NodePreset.t) : string :=
  if truthy (NodePreset.roles nodePreset)
  then match NodePreset.roles nodePreset with Some r => r | None => EmptyString end
  else String.concat ","
         ((if NodePreset.syncsource nodePreset then ["Peer"] else [])
          ++ (if NodePreset.api nodePreset then ["Api"] else [])
          ++ (if NodePreset.voting nodePreset then ["Voting"] else [])).

(** [a || b] where [b] is a string. *)
Definition orDefault (a : option string) (b : string) : string :=
  match a with
  | Some s => if truthy a then s else b
  | None => b
  end.

Definition generateNodeAccount (oldNodeAccount : option NodeAccount.t)
    (presetData : ConfigPreset.t) (index : nat) (nodePreset : NodePreset.t)
    (networkType : NetworkType) : Gen NodeAccount.t :=
  let old (field : NodeAccount.t -> option ConfigAccount.t) :=
    match oldNodeAccount with Some o => field o | None => None end in
  let name := orDefault (NodePreset.name nodePreset) ("node-" ++ showNat index)%string in
  (mode <- liftRes (getPrivateKeySecurityMode
                      (ConfigPreset.privateKeySecurityMode presetData)) ;;
   main <- generateAccount networkType mode Main (old NodeAccount.main)
             (NodePreset.mainPrivateKey nodePreset)
             (NodePreset.mainPublicKey nodePreset) ;;
   transport <- generateAccount networkType mode Transport
             (old NodeAccount.transport)
             (NodePreset.transportPrivateKey nodePreset)
             (NodePreset.transportPublicKey nodePreset) ;;
   let friendlyName :=
     orDefault (NodePreset.friendlyName nodePreset)
       (substring 0 7 (ConfigAccount.publicKey main)) in
   let useRemoteAccount :=
     NodePreset.nodeUseRemoteAccount nodePreset
     || ConfigPreset.nodeUseRemoteAccount presetData in
   remote <- (if useRemoteAccount
                 && (NodePreset.harvesting nodePreset || NodePreset.voting nodePreset)
              then a <- generateAccount networkType mode Remote
                          (old NodeAccount.remote)
                          (NodePreset.remotePrivateKey nodePreset)
                          (NodePreset.remotePublicKey nodePreset) ;;
                   ret (Some a)
              else ret None) ;;
   vrf <- (if NodePreset.harvesting nodePreset
           then a <- generateAccount networkType mode VRF (old NodeAccount.vrf)
                       (NodePreset.vrfPrivateKey nodePreset)
                       (NodePreset.vrfPublicKey nodePreset) ;;
                ret (Some a)
           else ret None) ;;
   agent <- (if truthy (NodePreset.rewardProgram nodePreset)
             then a <- generateAccount networkType mode Agent (old NodeAccount.agent)
                         (NodePreset.agentPrivateKey nodePreset)
                         (NodePreset.agentPublicKey nodePreset) ;;
                  ret (Some a)
             else ret None) ;;
   ret (NodeAccount.mk name friendlyName (resolveRoles nodePreset)
          (Some main) (Some transport) remote vrf agent))%m.

Definition generateNodeAccounts (oldAddresses : option Addresses.t)
    (presetData : ConfigPreset.t) (nodes : list NodePreset.t)
    (networkType : NetworkType) : Gen (list NodeAccount.t) :=
  mapM
    (fun entry : nat * NodePreset.t =>
       let oldNode :=
         match oldAddresses with
         | Some old =>
             match Addresses.nodes old with
             | Some oldNodes => nth_error oldNodes (fst entry)
             | None => None
             end
         | None => None
         end in
       generateNodeAccount oldNode presetData (fst entry) (snd entry)
         networkType)
    (indexed nodes).

Definition shouldCreateNemesis (root : string) (presetData : ConfigPreset.t)
  : bool :=
  match ConfigPreset.nemesis presetData with
  | Some _ =>
      negb (truthy (ConfigPreset.nemesisSeedFolder presetData))
      && (isYmlFile (ConfigPreset.preset presetData)
          || negb (existsSync
                     (join (join (join root "presets")
                              (ConfigPreset.preset presetData)) "seed")))
  | None => false
  end.

(** [CommandUtils.resolvePrivateKey] on a defined account: the stored key in
    upper case, or the key accepted at the prompt, which is also written
    into the account. *)
Definition resolvePrivateKey (networkType : NetworkType)
    (account : ConfigAccount.t) (keyName : KeyName)
  : string * ConfigAccount.t :=
  match ConfigAccount.privateKey account with
  | Some k =>
      if truthy (Some k) then (toUpperCase k, account)
      else let entered := promptPrivateKey networkType account keyName in
           (entered,
            ConfigAccount.mk (Some entered) (ConfigAccount.publicKey account)
              (ConfigAccount.address account))
  | None =>
      let entered := promptPrivateKey networkType account keyName in
      (entered,
       ConfigAccount.mk (Some entered) (ConfigAccount.publicKey account)
         (ConfigAccount.address account))
  end.

(** *** generateRandomConfiguration *)

(** [presetData] is mutated by the source; the embedding returns the final
    preset next to the addresses. *)
Definition Config : Type := (Addresses.t * ConfigPreset.t)%type.

(** [Convert.uint8ToHex(Crypto.randomBytes(32))]. *)
Definition randomBytesHex : Gen string :=
  fun w => inr (randomSeed (List.length w), w ++ [RandomBytes]).

(** [oldAddresses?.field]. *)
Definition oldField {A} (oldAddresses : option Addresses.t)
    (field : Addresses.t -> option A) : option A :=
  match oldAddresses with Some old => field old | None => None end.

(** Lines 55-63: the initial [addresses]. *)
Definition initialAddresses (networkType : NetworkType)
    (oldAddresses : option Addresses.t) (presetData : ConfigPreset.t)
  : Gen Addresses.t :=
  let stored :=
    orElse (ConfigPreset.nemesisGenerationHashSeed presetData)
      (oldField oldAddresses
         (fun old => Some (Addresses.nemesisGenerationHashSeed old))) in
  (seed <- match stored with
           | Some s => if truthy stored then ret s else randomBytesHex
           | None => randomBytesHex
           end ;;
   ret (Addresses.mk 2 networkType seed
          (orElse (ConfigPreset.sinkAddress presetData)
             (oldField oldAddresses Addresses.sinkAddress))
          None None None))%m.

(** Lines 66-69: the sink address is generated on demand only. *)
Definition getDefaultSyncAddress (networkType : NetworkType)
    (addresses : Addresses.t) : Gen (string * Addresses.t) :=
  let fresh : Gen (string * Addresses.t) :=
    (account <- generateNewAccount networkType SinkAccount ;;
     ret (sdkAddress account,
          Addresses.withSinkAddress (sdkAddress account) addresses))%m in
  match Addresses.sinkAddress addresses with
  | Some s => if truthy (Some s) then ret (s, addresses) else fresh
  | None => fresh
  end.

(** One of the three [if (!presetData.x) presetData.x = getDefaultSyncAddress()]. *)
Definition defaultSinkAddress (networkType : NetworkType)
    (get : ConfigPreset.t -> option string)
    (set : string -> ConfigPreset.t -> ConfigPreset.t) (c : Config) : Gen Config :=
  if truthy (get (snd c)) then ret c
  else (r <- getDefaultSyncAddress networkType (fst c) ;;
        ret (snd r, set (fst r) (snd c)))%m.

(** Lines 74-82. *)
Definition fillSinkAddresses (networkType : NetworkType) (c : Config)
  : Gen Config :=
  (c1 <- defaultSinkAddress networkType
           ConfigPreset.harvestNetworkFeeSinkAddress
           ConfigPreset.withHarvestNetworkFeeSinkAddress c ;;
   c2 <- defaultSinkAddress networkType
           ConfigPreset.mosaicRentalFeeSinkAddress
           ConfigPreset.withMosaicRentalFeeSinkAddress c1 ;;
   defaultSinkAddress networkType
     ConfigPreset.namespaceRentalFeeSinkAddress
     ConfigPreset.withNamespaceRentalFeeSinkAddress c2)%m.

(** Lines 90-107, the body of the first [if (shouldCreateNemesis)]. *)
Definition resolveNemesisSigner (networkType : NetworkType)
    (mode : PrivateKeySecurityMode) (oldAddresses : option Addresses.t)
    (c : Config) : Gen Config :=
  match ConfigPreset.nemesis (snd c) with
  | Some nemesis =>
      (signer <- generateAccount networkType mode NemesisSigner
                   (oldField oldAddresses Addresses.nemesisSigner)
                   (NemesisPreset.nemesisSignerPrivateKey nemesis)
                   (ConfigPreset.nemesisSignerPublicKey (snd c)) ;;
       let resolved := resolvePrivateKey networkType signer NemesisSigner in
       ret (Addresses.withNemesisSigner (snd resolved) (fst c),
            ConfigPreset.withNemesis
              (Some (NemesisPreset.withNemesisSignerPrivateKey (fst resolved)
                       nemesis))
              (ConfigPreset.withNemesisSignerPublicKey
                 (ConfigAccount.publicKey signer) (snd c))))%m
  | None => ret c
  end.

(** Lines 109-123: the address of the nemesis signer and the two mosaic
    ids. *)
Definition resolveMosaicIds (networkType : NetworkType)
    (presetData : ConfigPreset.t) : Res (string * ConfigPreset.t) :=
  match ConfigPreset.nemesisSignerPublicKey presetData with
  | None => inl (TypeError "publicKey is undefined")
  | Some signerPublicKey =>
      let nemesisSignerAddress := addressOf networkType signerPublicKey in
      let p1 :=
        if truthy (ConfigPreset.currencyMosaicId presetData) then presetData
        else ConfigPreset.withCurrencyMosaicId
               (mosaicIdOf 0 nemesisSignerAddress) presetData in
      if truthy (ConfigPreset.harvestingMosaicId p1)
      then ok (nemesisSignerAddress, p1)
      else match ConfigPreset.nemesis p1 with
           | None => inl (Error "nemesis must be defined!")
           | Some nemesis =>
               if match NemesisPreset.mosaics nemesis with
                  | Some ms => (1 <? List.length ms)%nat
                  | None => false
                  end
               then ok (nemesisSignerAddress,
                        ConfigPreset.withHarvestingMosaicId
                          (Some (mosaicIdOf 1 nemesisSignerAddress)) p1)
               else ok (nemesisSignerAddress,
                        ConfigPreset.withHarvestingMosaicId
                          (ConfigPreset.currencyMosaicId p1) p1)
           end
  end.

(** One turn of the [forEach] over [presetData.nemesis.mosaics]. *)
Definition processMosaic (networkType : NetworkType)
    (mode : PrivateKeySecurityMode) (presetData : ConfigPreset.t)
    (nodes : list NodeAccount.t) (mosaicsLength : nat)
    (nemesisSignerAddress : string) (entry : nat * MosaicPreset.t)
  : Gen (MosaicAccounts.t * MosaicPreset.t) :=
  let mosaicIndex := fst entry in
  let m := snd entry in
  (accounts <- generateAddresses networkType mode
                 (accountsOrOne (MosaicPreset.accounts m)) ;;
   let id := mosaicIdOf mosaicIndex nemesisSignerAddress in
   m' <- liftRes (distributeMosaic presetData nodes mosaicsLength mosaicIndex
                    accounts m) ;;
   ret (MosaicAccounts.mk id (MosaicPreset.name m) accounts, m'))%m.

(** Lines 125-204, the body of the second [if (shouldCreateNemesis)]. *)
Definition resolveNemesisMosaics (networkType : NetworkType)
    (mode : PrivateKeySecurityMode) (nemesisSignerAddress : string)
    (oldAddresses : option Addresses.t) (oldPresetData : option ConfigPreset.t)
    (c : Config) : Gen Config :=
  match oldAddresses with
  | Some old =>
      match oldPresetData with
      | None => throw (Error "oldPresetData must be defined when upgrading!")
      | Some oldPreset =>
          (* Nemesis configuration cannot be changed on upgrade. *)
          ret (Addresses.withMosaics (Addresses.mosaics old) (fst c),
               ConfigPreset.withNemesis (ConfigPreset.nemesis oldPreset) (snd c))
      end
  | None =>
      match ConfigPreset.nemesis (snd c) with
      | Some nemesis =>
          match NemesisPreset.mosaics nemesis with
          | Some ms =>
              let nodes :=
                match Addresses.nodes (fst c) with Some ns => ns | None => [] end in
              (processed <- mapM
                              (processMosaic networkType mode (snd c) nodes
                                 (List.length ms) nemesisSignerAddress)
                              (indexed ms) ;;
               ret (Addresses.withMosaics (Some (map fst processed)) (fst c),
                    ConfigPreset.withNemesis
                      (Some (NemesisPreset.withMosaics (map snd processed) nemesis))
                      (snd c)))%m
          | None => ret c
          end
      | None => ret c
      end
  end.

Definition generateRandomConfiguration (root : string)
    (oldAddresses : option Addresses.t) (oldPresetData : option ConfigPreset.t)
    (presetData : ConfigPreset.t) : Gen Config :=
  match ConfigPreset.networkType presetData with
  | None =>
      throw (Error
        "Network Type could not be resolved. Have your provided the right --preset?")
  | Some networkType =>
      if (networkType =? 0)%Z
      then throw (Error
        "Network Type could not be resolved. Have your provided the right --preset?")
      else
      (addresses <- initialAddresses networkType oldAddresses presetData ;;
       addresses <- match ConfigPreset.nodes presetData with
                    | Some nodes =>
                        accounts <- generateNodeAccounts oldAddresses presetData
                                      nodes networkType ;;
                        ret (Addresses.withNodes accounts addresses)
                    | None => ret addresses
                    end ;;
       c <- fillSinkAddresses networkType (addresses, presetData) ;;
       identifier <- liftRes (getNetworkIdentifier networkType) ;;
       name <- liftRes (getNetworkName networkType) ;;
       let p := ConfigPreset.withNetwork identifier name (snd c) in
       let p := if truthy (ConfigPreset.nemesisGenerationHashSeed p) then p
                else ConfigPreset.withNemesisGenerationHashSeed
                       (Addresses.nemesisGenerationHashSeed (fst c)) p in
       mode <- liftRes (getPrivateKeySecurityMode
                          (ConfigPreset.privateKeySecurityMode p)) ;;
       let create := shouldCreateNemesis root p in
       c <- (if create
             then resolveNemesisSigner networkType mode oldAddresses (fst c, p)
             else ret (fst c, p)) ;;
       ids <- liftRes (resolveMosaicIds networkType (snd c)) ;;
       if create
       then resolveNemesisMosaics networkType mode (fst ids) oldAddresses
              oldPresetData (fst c, snd ids)
       else ret (fst c, snd ids))%m
  end.

(** *** Properties of [generateAccount] *)

(** The generation policy as the specification words it: Main under the
    three prompting modes, Transport under the two strictest ones, any
    other role under [PROMPT_ALL] only. *)
Definition generationForbidden (keyName : KeyName)
    (mode : PrivateKeySecurityMode) : bool :=
  match keyName with
  | Main =>
      match mode with
      | PROMPT_MAIN | PROMPT_MAIN_TRANSPORT | PROMPT_ALL => true
      | ENCRYPT => false
      end
  | Transport =>
      match mode with
      | PROMPT_MAIN_TRANSPORT | PROMPT_ALL => true
      | ENCRYPT | PROMPT_MAIN => false
      end
  | _ => match mode with PROMPT_ALL => true | _ => false end
  end.

(** C7. With neither an old account nor a supplied key, [generateAccount]
    throws a [KnownError], and so returns no account, exactly when the role
    and the security mode forbid generation; otherwise it draws one key pair
    and returns its account. *)
Theorem generateAccount_generation_policy :
  forall networkType mode keyName oldStoredAccount privateKey publicKey w,
    oldAccountOf networkType oldStoredAccount = None ->
    newAccountOf networkType privateKey publicKey = None ->
    (generationForbidden keyName mode = true ->
     exists message,
       generateAccount networkType mode keyName oldStoredAccount privateKey
         publicKey w = inl (KnownError message))
    /\ (generationForbidden keyName mode = false ->
        generateAccount networkType mode keyName oldStoredAccount privateKey
          publicKey w
        = inr (toConfig
                 (createFromPrivateKey (randomPrivateKey (List.length w))
                    networkType),
               w ++ [NewAccount (KeyAccount keyName)])).
Proof.
  intros nt mode keyName old priv pub w Hold Hnew.
  unfold generateAccount. rewrite Hold, Hnew.
  split; intro H.
  - destruct keyName, mode; simpl in H; try discriminate H;
      eexists; reflexivity.
  - destruct keyName, mode; simpl in H; try discriminate H; reflexivity.
Qed.

(** The stored record is in the form [toConfig] writes: upper-case keys,
    the public key and the address derived from the key it keeps. *)
Definition canonical (networkType : NetworkType) (a : ConfigAccount.t) : Prop :=
  match ConfigAccount.privateKey a with
  | Some k =>
      k <> EmptyString /\ toUpperCase k = k
      /\ ConfigAccount.publicKey a = publicKeyOf k
      /\ ConfigAccount.address a = addressOf networkType (publicKeyOf k)
  | None =>
      ConfigAccount.publicKey a <> EmptyString
      /\ toUpperCase (ConfigAccount.publicKey a) = ConfigAccount.publicKey a
      /\ ConfigAccount.address a
         = addressOf networkType (ConfigAccount.publicKey a)
  end.

Lemma toUpperCase_empty : forall s, toUpperCase s = EmptyString -> s = EmptyString.
Proof. destruct s; simpl; [reflexivity | discriminate]. Qed.

Lemma truthy_Some : forall s, s <> EmptyString -> truthy (Some s) = true.
Proof. destruct s; simpl; [congruence | reflexivity]. Qed.

Lemma canonical_reused_verbatim :
  forall networkType a,
    canonical networkType a ->
    exists o, oldAccountOf networkType (Some a) = Some o /\ toConfig o = a.
Proof.
  intros nt [priv pub addr].
  unfold canonical, oldAccountOf, getAccount;
    cbn [ConfigAccount.privateKey ConfigAccount.publicKey
         ConfigAccount.address option_map].
  destruct priv as [k|]; cbn [option_map].
  - intros (Hne & Hup & Hpub & Haddr). rewrite Hup.
    rewrite (truthy_Some k Hne). eexists; split; [reflexivity|].
    unfold createFromPrivateKey, toConfig. rewrite Hup. subst. reflexivity.
  - intros (Hne & Hup & Haddr). rewrite Hup.
    destruct pub as [|c pub]; [congruence|]. cbn [truthy].
    eexists; split; [reflexivity|].
    unfold createFromPublicKey, toConfig. subst. reflexivity.
Qed.

(** C6 (amended). The decision table of [generateAccount] on the accounts
    [oldAccount] and [newAccount] that it rebuilds from the stored and the
    supplied keys. Old only: the rebuilt old account, which is the stored
    record verbatim when that record is canonical. New only: the supplied
    account. Both with one address: that address, the supplied public key,
    and the private key of the supplied side when it has one, else of the
    old side. Both with different addresses: the supplied account. No row
    throws and no row draws. *)
Theorem generateAccount_decision_table :
  forall networkType mode keyName oldStoredAccount privateKey publicKey w,
    let run :=
      generateAccount networkType mode keyName oldStoredAccount privateKey
        publicKey w in
    let oldAccount := oldAccountOf networkType oldStoredAccount in
    let newAccount := newAccountOf networkType privateKey publicKey in
    (forall o, oldAccount = Some o -> newAccount = None ->
       run = inr (toConfig o, w)
       /\ (forall a, oldStoredAccount = Some a -> canonical networkType a ->
             run = inr (a, w)))
    /\ (forall n, oldAccount = None -> newAccount = Some n ->
          run = inr (toConfig n, w))
    /\ (forall o n, oldAccount = Some o -> newAccount = Some n ->
          sdkAddress o = sdkAddress n ->
          exists r, run = inr (r, w)
            /\ ConfigAccount.address r = sdkAddress n
            /\ ConfigAccount.publicKey r = sdkPublicKey n
            /\ ConfigAccount.privateKey r
               = match ConfigAccount.privateKey (toConfig n) with
                 | Some k => Some k
                 | None => ConfigAccount.privateKey (toConfig o)
                 end)
    /\ (forall o n, oldAccount = Some o -> newAccount = Some n ->
          sdkAddress o <> sdkAddress n ->
          run = inr (toConfig n, w)).
Proof.
  intros nt mode keyName old priv pub w run oldAccount newAccount.
  subst run oldAccount newAccount. unfold generateAccount.
  repeat split.
  - rewrite H, H0. reflexivity.
  - intros a Ha Hc. subst old.
    destruct (canonical_reused_verbatim nt a Hc) as (o' & Ho' & Hcfg).
    rewrite H in Ho'. injection Ho' as <-. rewrite H, H0, Hcfg. reflexivity.
  - intros n Ho Hn. rewrite Ho, Hn. reflexivity.
  - intros o n Ho Hn Heq. rewrite Ho, Hn.
    apply String.eqb_eq in Heq. rewrite Heq.
    eexists; split; [reflexivity|].
    destruct o, n; simpl; repeat split; reflexivity.
  - intros o n Ho Hn Hneq. rewrite Ho, Hn.
    apply String.eqb_neq in Hneq. rewrite Hneq. reflexivity.
Qed.

(** *** Properties of the distribution of a mosaic *)

Local Open Scope Z_scope.

(** The sum of the amounts of a list of entries as the [reduce] of the
    local function [sum] computes it, in doubles. *)
Definition total (distribution : list Distribution.t) : Z :=
  fold_left Number.add (map Distribution.amount distribution) 0.

(** The sum of the amounts as integers. *)
Definition exactTotal (distribution : list Distribution.t) : Z :=
  fold_left Z.add (map Distribution.amount distribution) 0.

Definition nonNegative (d : Distribution.t) : Prop := 0 <= Distribution.amount d.

Lemma fold_add_from : forall l a, fold_left Z.add l a = a + fold_left Z.add l 0.
Proof.
  induction l as [|x l IH]; intros a; simpl; [lia|].
  rewrite (IH (a + x)), (IH x). lia.
Qed.

Lemma exactTotal_nil : exactTotal [] = 0.
Proof. reflexivity. Qed.

Lemma exactTotal_cons :
  forall d l, exactTotal (d :: l) = Distribution.amount d + exactTotal l.
Proof. intros d l. unfold exactTotal. simpl. apply fold_add_from. Qed.

Lemma exactTotal_app :
  forall l1 l2, exactTotal (l1 ++ l2) = exactTotal l1 + exactTotal l2.
Proof.
  induction l1 as [|d l1 IH]; intros l2.
  - rewrite exactTotal_nil. simpl. lia.
  - simpl. rewrite !exactTotal_cons, IH. lia.
Qed.

Lemma exactTotal_nonNegative :
  forall l, Forall nonNegative l -> 0 <= exactTotal l.
Proof.
  induction l as [|d l IH]; intros Hall; [rewrite exactTotal_nil; lia|].
  inversion Hall as [|? ? Hd Hl]; subst. rewrite exactTotal_cons.
  specialize (IH Hl). unfold nonNegative in Hd. lia.
Qed.

Lemma checkedAmounts_inr :
  forall name l index amounts,
    checkedAmounts name index l = inr amounts ->
    amounts = map Distribution.amount l /\ Forall nonNegative l.
Proof.
  induction l as [|d l IH]; intros index amounts H; simpl in H.
  - injection H as <-. split; constructor.
  - destruct (Distribution.amount d <? 0) eqn:Hneg; [discriminate|].
    destruct (checkedAmounts name (S index) l) as [e|rest] eqn:Hrest;
      simpl in H; [discriminate|].
    injection H as <-. destruct (IH _ _ Hrest) as [-> Hall].
    split; [reflexivity|]. constructor; [|exact Hall].
    unfold nonNegative. apply Z.ltb_ge in Hneg. exact Hneg.
Qed.

Lemma checkedAmounts_nonNegative :
  forall name l index,
    Forall nonNegative l ->
    checkedAmounts name index l = inr (map Distribution.amount l).
Proof.
  induction l as [|d l IH]; intros index Hall; simpl; [reflexivity|].
  inversion Hall as [|? ? Hd Hl]; subst.
  unfold nonNegative in Hd. apply Z.ltb_ge in Hd. rewrite Hd.
  rewrite (IH (S index) Hl). reflexivity.
Qed.

Lemma sum_inr :
  forall name l s, sum name l = inr s -> s = total l /\ Forall nonNegative l.
Proof.
  intros name l s H. unfold sum in H.
  destruct (checkedAmounts name 0 l) as [e|amounts] eqn:Hc; simpl in H;
    [discriminate|].
  injection H as <-. destruct (checkedAmounts_inr _ _ _ _ Hc) as [-> Hall].
  split; [reflexivity | exact Hall].
Qed.

Lemma sum_nonNegative :
  forall name l, Forall nonNegative l -> sum name l = inr (total l).
Proof.
  intros name l Hall. unfold sum.
  rewrite (checkedAmounts_nonNegative name l 0%nat Hall). reflexivity.
Qed.

(** **** Sums of safe integers are exact *)

Lemma safe_limit : MAX_SAFE_INTEGER = 2 ^ 53 - 1.
Proof. reflexivity. Qed.

(** A sum of amounts that are not negative is exact when its result is a
    safe integer: so were all the partial sums. *)
Lemma fold_add_exact :
  forall l acc,
    0 <= acc -> Forall (fun x => 0 <= x) l ->
    fold_left Number.add l acc <= MAX_SAFE_INTEGER ->
    fold_left Number.add l acc = acc + fold_left Z.add l 0
    /\ acc <= MAX_SAFE_INTEGER.
Proof.
  induction l as [|x l IH]; intros acc Hacc Hall H; simpl in *.
  - split; lia.
  - inversion Hall as [|? ? Hx Hl]; subst.
    assert (Hnext : 0 <= Number.add acc x)
      by (apply Number.double_nonneg; lia).
    destruct (IH _ Hnext Hl H) as [Hfold Hsafe].
    rewrite safe_limit in Hsafe.
    rewrite (Number.add_exact acc x Hacc Hx) in Hfold |- * by lia.
    rewrite (Number.add_exact acc x Hacc Hx) in Hsafe by lia.
    rewrite Hfold, (fold_add_from l x), safe_limit. split; lia.
Qed.

(** And it is exact when the exact sum is a safe integer. *)
Lemma fold_exact_add :
  forall l acc,
    0 <= acc -> Forall (fun x => 0 <= x) l ->
    acc + fold_left Z.add l 0 <= MAX_SAFE_INTEGER ->
    fold_left Number.add l acc = acc + fold_left Z.add l 0.
Proof.
  induction l as [|x l IH]; intros acc Hacc Hall H; simpl in *; [lia|].
  inversion Hall as [|? ? Hx Hl]; subst.
  rewrite (fold_add_from l x) in H |- *.
  assert (Hrest : 0 <= fold_left Z.add l 0).
  { clear - Hl. induction Hl as [|y l Hy _ IHl]; simpl; [lia|].
    rewrite (fold_add_from l y). lia. }
  rewrite safe_limit in H.
  rewrite Number.add_safe by (rewrite Z.abs_eq; lia).
  rewrite IH; [lia | lia | exact Hl | rewrite safe_limit; lia].
Qed.

Lemma nonNegative_amounts :
  forall l, Forall nonNegative l ->
    Forall (fun x => 0 <= x) (map Distribution.amount l).
Proof.
  intros l H. apply Forall_map. exact H.
Qed.

Lemma total_exact :
  forall l,
    Forall nonNegative l -> total l <= MAX_SAFE_INTEGER ->
    total l = exactTotal l.
Proof.
  intros l Hall H. unfold total, exactTotal in *.
  destruct (fold_add_exact _ 0 ltac:(lia) (nonNegative_amounts l Hall) H)
    as [Hfold _].
  rewrite Hfold. lia.
Qed.

Lemma total_of_exact :
  forall l,
    Forall nonNegative l -> exactTotal l <= MAX_SAFE_INTEGER ->
    total l = exactTotal l.
Proof.
  intros l Hall H. unfold total, exactTotal in *.
  rewrite (fold_exact_add _ 0 ltac:(lia) (nonNegative_amounts l Hall)); lia.
Qed.

(** **** The steps of a turn that returns *)

Lemma finalDistributions_inr :
  forall presetData nodes mosaicsLength mosaicIndex accounts m distributions,
    finalDistributions presetData nodes mosaicsLength mosaicIndex accounts m
      = inr distributions ->
    let provided := providedDistributions presetData nodes mosaicIndex m in
    let nodeMains := nodeMainAccounts presetData nodes mosaicIndex in
    let generated :=
      generatedAccounts accounts nodeMains
        (amountPerAccount
           (Number.sub (MosaicPreset.supply m) (total provided))
           (List.length accounts + List.length nodeMains))
        (effectiveMaxHarvesterBalance presetData mosaicsLength mosaicIndex) in
    Forall nonNegative provided
    /\ Forall nonNegative (skipn 1 generated)
    /\ correctedDistributions generated provided
         (Number.sub (Number.sub (MosaicPreset.supply m) (total provided))
            (total (skipn 1 generated)))
       = inr distributions.
Proof.
  intros presetData nodes len idx accounts m ds H provided nodeMains generated.
  unfold finalDistributions in H. cbv zeta in H.
  fold provided nodeMains in H.
  destruct (sum _ provided) as [e|ps] eqn:Hps; cbn [andThen] in H;
    [discriminate|].
  apply sum_inr in Hps. destruct Hps as [-> Hprov].
  fold generated in H.
  destruct (sum _ (skipn 1 generated)) as [e|gs] eqn:Hgs; cbn [andThen] in H;
    [discriminate|].
  apply sum_inr in Hgs. destruct Hgs as [-> Hgen].
  repeat split; assumption.
Qed.

Lemma distributeMosaic_inr :
  forall presetData nodes mosaicsLength mosaicIndex accounts m m',
    distributeMosaic presetData nodes mosaicsLength mosaicIndex accounts m
      = inr m' ->
    exists distributions,
      finalDistributions presetData nodes mosaicsLength mosaicIndex accounts m
        = inr distributions
      /\ Forall nonNegative distributions
      /\ total distributions = MosaicPreset.supply m
      /\ m' = MosaicPreset.withCurrencyDistributions distributions m.
Proof.
  intros presetData nodes len idx accounts m m' H.
  unfold distributeMosaic in H.
  destruct (finalDistributions _ _ _ _ _ _) as [e|ds]; cbn [andThen] in H;
    [discriminate|].
  destruct (sum _ ds) as [e|supplied] eqn:Hsum; cbn [andThen] in H;
    [discriminate|].
  apply sum_inr in Hsum. destruct Hsum as [-> Hnn].
  destruct (MosaicPreset.supply m =? total ds) eqn:Heq; [|discriminate].
  apply Z.eqb_eq in Heq. injection H as <-.
  exists ds. repeat split; [exact Hnn | symmetry; exact Heq].
Qed.

(** What [distributeMosaic] returns sums to the supply: the last check. *)
Lemma distributeMosaic_conserves :
  forall presetData nodes mosaicsLength mosaicIndex accounts m m',
    distributeMosaic presetData nodes mosaicsLength mosaicIndex accounts m
      = inr m' ->
    MosaicPreset.supply m' = MosaicPreset.supply m
    /\ exists distributions,
         MosaicPreset.currencyDistributions m' = Some distributions
         /\ total distributions = MosaicPreset.supply m'.
Proof.
  intros presetData nodes len idx accounts m m' H.
  apply distributeMosaic_inr in H.
  destruct H as (ds & _ & _ & Htotal & ->). simpl.
  split; [reflexivity|]. exists ds. split; [reflexivity | exact Htotal].
Qed.

(** The check itself: final entries whose sum differs from the supply are
    the error of line 198. *)
Lemma distributeMosaic_mismatch :
  forall presetData nodes mosaicsLength mosaicIndex accounts m distributions,
    finalDistributions presetData nodes mosaicsLength mosaicIndex accounts m
      = inr distributions ->
    Forall nonNegative distributions ->
    total distributions <> MosaicPreset.supply m ->
    distributeMosaic presetData nodes mosaicsLength mosaicIndex accounts m
    = inl (Error (invalidTotal (MosaicPreset.supply m) (total distributions))).
Proof.
  intros presetData nodes len idx accounts m ds Hds Hnn Hneq.
  unfold distributeMosaic. rewrite Hds. cbn [andThen].
  rewrite (sum_nonNegative _ ds Hnn). cbn [andThen].
  destruct (MosaicPreset.supply m =? total ds) eqn:Heq; [|reflexivity].
  apply Z.eqb_eq in Heq. congruence.
Qed.

Definition positive (d : Distribution.t) : bool := 0 <? Distribution.amount d.

Lemma exactTotal_filter_positive :
  forall l, Forall nonNegative l -> exactTotal (filter positive l) = exactTotal l.
Proof.
  induction l as [|d l IH]; intros Hall; [reflexivity|].
  inversion Hall as [|? ? Hd Hl]; subst. simpl.
  unfold positive at 1. destruct (0 <? Distribution.amount d) eqn:Hp.
  - rewrite !exactTotal_cons, (IH Hl). reflexivity.
  - rewrite exactTotal_cons, (IH Hl). apply Z.ltb_ge in Hp.
    unfold nonNegative in Hd. lia.
Qed.

Lemma filter_positive_nonNegative : forall l, Forall nonNegative (filter positive l).
Proof.
  intros l. apply Forall_forall. intros d Hin.
  apply filter_In in Hin. destruct Hin as [_ Hp].
  unfold positive in Hp. apply Z.ltb_lt in Hp. unfold nonNegative. lia.
Qed.

Lemma exactTotal_bounded :
  forall bound l,
    Forall (fun d => Distribution.amount d <= bound) l ->
    exactTotal l <= Z.of_nat (List.length l) * bound.
Proof.
  intros bound. induction l as [|d l IH]; intros Hall.
  - rewrite exactTotal_nil. simpl. lia.
  - inversion Hall as [|? ? Hd Hl]; subst.
    rewrite exactTotal_cons. specialize (IH Hl).
    change (List.length (d :: l)) with (S (List.length l)).
    rewrite Nat2Z.inj_succ. lia.
Qed.

(** The amounts of [generatedAccounts] lie between 0 and the amount per
    account when that amount and the cap are not negative. *)
Lemma generatedAccounts_bounds :
  forall accounts nodeMains perAccount maxHarvester,
    0 <= perAccount -> 0 <= maxHarvester ->
    Forall (fun d => 0 <= Distribution.amount d <= perAccount)
      (generatedAccounts accounts nodeMains perAccount maxHarvester).
Proof.
  intros accounts nodeMains per cap Hper Hcap. unfold generatedAccounts.
  apply Forall_app. split; apply Forall_forall; intros d Hin;
    apply in_map_iff in Hin; destruct Hin as (x & <- & _); simpl; lia.
Qed.

(** The correction when the first generated account is a free account with
    a positive amount: it is the entry that is overwritten, and every other
    entry of the result is an unchanged entry of the two lists. *)
Lemma correction_on_first_free_account :
  forall a accounts nodeMains perAccount maxHarvester provided amount,
    0 < perAccount ->
    correctedDistributions
      (generatedAccounts (a :: accounts) nodeMains perAccount maxHarvester)
      provided amount
    = inr (Distribution.mk (ConfigAccount.address a) amount
           :: filter positive
                (generatedAccounts accounts nodeMains perAccount maxHarvester
                 ++ provided)).
Proof.
  intros a accounts nodeMains per cap provided amount Hper.
  unfold correctedDistributions, generatedAccounts. simpl.
  apply Z.ltb_lt in Hper. rewrite Hper. reflexivity.
Qed.

(** X1. A mosaic with a supply that is a safe integer, whose declared
    amounts are not negative, with at least one free account, a remaining
    supply of at least one unit per dynamic account and a cap that is not
    negative, is distributed without error, and in integers: the first free
    account takes what the other entries leave. *)
Lemma distributeMosaic_succeeds :
  forall presetData nodes mosaicsLength mosaicIndex a accounts m,
    let provided := providedDistributions presetData nodes mosaicIndex m in
    let nodeMains := nodeMainAccounts presetData nodes mosaicIndex in
    let dynamicAccounts :=
      (List.length (a :: accounts) + List.length nodeMains)%nat in
    let remainingSupply := MosaicPreset.supply m - exactTotal provided in
    let maxHarvester :=
      effectiveMaxHarvesterBalance presetData mosaicsLength mosaicIndex in
    let others :=
      generatedAccounts accounts nodeMains
        (remainingSupply / Z.of_nat dynamicAccounts) maxHarvester in
    MosaicPreset.supply m <= MAX_SAFE_INTEGER ->
    Forall nonNegative provided ->
    Z.of_nat dynamicAccounts <= remainingSupply ->
    0 <= maxHarvester ->
    distributeMosaic presetData nodes mosaicsLength mosaicIndex (a :: accounts) m
    = inr (MosaicPreset.withCurrencyDistributions
             (Distribution.mk (ConfigAccount.address a)
                (remainingSupply - exactTotal others)
              :: filter positive (others ++ provided)) m).
Proof.
  intros presetData nodes len idx a accounts m provided nodeMains dyn remaining
    cap others Hsafe Hprov Hdyn Hcap.
  rewrite safe_limit in Hsafe.
  assert (Hdynpos : 0 < Z.of_nat dyn) by (subst dyn; simpl List.length; lia).
  pose proof (exactTotal_nonNegative provided Hprov) as Hp0.
  assert (Hps : total provided = exactTotal provided)
    by (apply total_of_exact; [exact Hprov | rewrite safe_limit; lia]).
  assert (Hremaining :
    Number.sub (MosaicPreset.supply m) (total provided) = remaining).
  { rewrite Hps. apply Number.sub_safe. fold remaining.
    rewrite Z.abs_eq; lia. }
  assert (Hquotient :
    amountPerAccount remaining dyn = remaining / Z.of_nat dyn).
  { unfold amountPerAccount. apply Number.floorQuotient_safe; lia. }
  set (per := remaining / Z.of_nat dyn) in *.
  assert (Hper : 1 <= per).
  { unfold per. apply Z.div_le_lower_bound; lia. }
  assert (Hmul : Z.of_nat dyn * per <= remaining).
  { unfold per. apply Z.mul_div_le. lia. }
  pose proof (generatedAccounts_bounds accounts nodeMains per cap) as Hb.
  specialize (Hb ltac:(lia) Hcap). fold others in Hb.
  assert (Hnn : Forall nonNegative others).
  { eapply Forall_impl; [|exact Hb]. intros d Hd. cbv beta in Hd.
    unfold nonNegative. lia. }
  assert (Hle : exactTotal others <= Z.of_nat (List.length others) * per).
  { apply exactTotal_bounded. eapply Forall_impl; [|exact Hb]. intros d Hd.
    cbv beta in Hd. lia. }
  assert (Hlen : Z.of_nat (List.length others) = Z.of_nat dyn - 1).
  { subst others dyn. unfold generatedAccounts.
    rewrite length_app, !length_map. simpl List.length. lia. }
  pose proof (exactTotal_nonNegative others Hnn) as Ho0.
  assert (Hgs : total others = exactTotal others)
    by (apply total_of_exact; [exact Hnn | rewrite safe_limit; nia]).
  assert (Hfirst : per <= remaining - exactTotal others) by nia.
  assert (Hcorrected :
    Number.sub remaining (total others) = remaining - exactTotal others).
  { rewrite Hgs. apply Number.sub_safe. rewrite Z.abs_eq; lia. }
  unfold distributeMosaic, finalDistributions. cbv zeta.
  fold provided nodeMains.
  rewrite (sum_nonNegative _ provided Hprov). cbn [andThen].
  rewrite Hremaining. fold dyn. rewrite Hquotient. fold cap.
  change (generatedAccounts (a :: accounts) nodeMains per cap)
    with (Distribution.mk (ConfigAccount.address a) per :: others).
  cbn [skipn]. rewrite (sum_nonNegative _ others Hnn). cbn [andThen].
  change (Distribution.mk (ConfigAccount.address a) per :: others)
    with (generatedAccounts (a :: accounts) nodeMains per cap).
  rewrite correction_on_first_free_account by lia. cbn [andThen].
  fold others. rewrite Hcorrected.
  set (final := Distribution.mk (ConfigAccount.address a)
                  (remaining - exactTotal others)
                :: filter positive (others ++ provided)).
  assert (Hfinal : Forall nonNegative final).
  { constructor; [unfold nonNegative; simpl; lia
                 | apply filter_positive_nonNegative]. }
  assert (Hexact : exactTotal final = MosaicPreset.supply m).
  { unfold final. rewrite exactTotal_cons. cbn [Distribution.amount].
    rewrite exactTotal_filter_positive
      by (apply Forall_app; split; assumption).
    rewrite exactTotal_app. subst remaining. lia. }
  rewrite (sum_nonNegative _ final Hfinal). cbn [andThen].
  rewrite (total_of_exact final Hfinal) by (rewrite Hexact, safe_limit; lia).
  rewrite Hexact, Z.eqb_refl. reflexivity.
Qed.

(** The index of the harvesting currency as the specification words it: the
    second mosaic when more than one is defined, else the first. *)
Definition harvestingMosaicIndex (mosaicsLength : nat) : nat :=
  if (1 <? mosaicsLength)%nat then 1%nat else 0%nat.


Lemma filter_positive_none :
  forall l, Forall (fun d => Distribution.amount d <= 0) l ->
    filter positive l = [].
Proof.
  intros l H. induction H as [|d l Hd _ IH]; [reflexivity|].
  simpl. unfold positive at 1.
  destruct (0 <? Distribution.amount d) eqn:Hp; [apply Z.ltb_lt in Hp; lia|].
  exact IH.
Qed.



Local Close Scope Z_scope.

(** *** Reasoning on runs *)

Lemma bind_inr :
  forall {S A B} (m : M S A) (k : A -> M S B) s r,
    bind m k s = inr r ->
    exists a s1, m s = inr (a, s1) /\ k a s1 = inr r.
Proof.
  intros S A B m k s r H. unfold bind in H.
  destruct (m s) as [e|[a s1]]; [discriminate|]. exists a, s1. auto.
Qed.

Lemma ret_inr :
  forall {S A} (a b : A) (s s' : S), ret a s = inr (b, s') -> b = a /\ s' = s.
Proof. intros S A a b s s' H. unfold ret in H. injection H as <- <-. auto. Qed.

Lemma liftRes_inr :
  forall {S A} (r : Res A) (a : A) (s s' : S),
    liftRes r s = inr (a, s') -> r = inr a /\ s' = s.
Proof.
  intros S A r a s s' H. unfold liftRes in H.
  destruct r as [e|x]; [discriminate|]. injection H as <- <-. auto.
Qed.

Lemma mapM_Forall :
  forall {S A B} (P : B -> Prop) (f : A -> M S B) l s ys s',
    (forall x s0 y s1, In x l -> f x s0 = inr (y, s1) -> P y) ->
    mapM f l s = inr (ys, s') -> Forall P ys.
Proof.
  intros S A B P f. induction l as [|x l IH]; intros s ys s' Hf H; simpl in H.
  - apply ret_inr in H. destruct H as [-> _]. constructor.
  - apply bind_inr in H. destruct H as (y & s1 & Hy & H).
    apply bind_inr in H. destruct H as (rest & s2 & Hrest & H).
    apply ret_inr in H. destruct H as [-> _].
    constructor.
    + apply (Hf x s y s1); [left; reflexivity | exact Hy].
    + apply (IH s1 rest s2); [|exact Hrest].
      intros x0 s0 y0 s3 Hin. apply Hf. right. exact Hin.
Qed.

(** [emits P m]: a successful run of [m] only adds draws that satisfy [P]. *)
Definition emits {A} (P : Draw -> Prop) (m : Gen A) : Prop :=
  forall w a w', m w = inr (a, w') -> exists draws, w' = w ++ draws /\ Forall P draws.

Lemma emits_ret : forall {A} P (a : A), emits P (ret a).
Proof.
  intros A P a w b w' H. apply ret_inr in H. destruct H as [_ ->].
  exists []. rewrite app_nil_r. auto.
Qed.

Lemma emits_throw : forall {A} P e, emits P (@throw World A e).
Proof. intros A P e w a w' H. discriminate H. Qed.

Lemma emits_liftRes : forall {A} P (r : Res A), emits P (liftRes r).
Proof.
  intros A P r w a w' H. apply liftRes_inr in H. destruct H as [_ ->].
  exists []. rewrite app_nil_r. auto.
Qed.

Lemma emits_bind :
  forall {A B} P (m : Gen A) (k : A -> Gen B),
    emits P m -> (forall a, emits P (k a)) -> emits P (bind m k).
Proof.
  intros A B P m k Hm Hk w b w' H.
  apply bind_inr in H. destruct H as (a & w1 & H1 & H2).
  destruct (Hm _ _ _ H1) as (d1 & -> & Hd1).
  destruct (Hk a _ _ _ H2) as (d2 & -> & Hd2).
  exists (d1 ++ d2). rewrite app_assoc. split; [reflexivity|].
  apply Forall_app. auto.
Qed.

Lemma emits_mapM :
  forall {A B} P (f : A -> Gen B) l,
    (forall x, emits P (f x)) -> emits P (mapM f l).
Proof.
  intros A B P f l Hf. induction l as [|x l IH]; simpl.
  - apply emits_ret.
  - apply emits_bind; [apply Hf|]. intros y.
    apply emits_bind; [exact IH|]. intros ys. apply emits_ret.
Qed.

Lemma emits_generateNewAccount :
  forall (P : Draw -> Prop) networkType origin,
    P (NewAccount origin) -> emits P (generateNewAccount networkType origin).
Proof.
  intros P nt origin HP w a w' H. unfold generateNewAccount in H.
  injection H as _ <-. exists [NewAccount origin]. auto.
Qed.

Lemma emits_randomBytesHex :
  forall (P : Draw -> Prop), P RandomBytes -> emits P randomBytesHex.
Proof.
  intros P HP w a w' H. unfold randomBytesHex in H.
  injection H as _ <-. exists [RandomBytes]. auto.
Qed.

Create HintDb emits.

#[local] Hint Resolve emits_ret emits_throw emits_liftRes
  emits_generateNewAccount emits_randomBytesHex : emits.

(** Splits a goal [emits P m] along the binds and the tests of [m]. *)
Ltac emits_step :=
  match goal with
  | |- emits _ (bind _ _) => apply emits_bind; [|intros ?]
  | |- emits _ (mapM _ _) => apply emits_mapM; intros ?
  | |- emits _ (if ?b then _ else _) => destruct b
  | |- emits _ (match ?x with _ => _ end) => destruct x
  | |- emits _ _ => solve [auto with emits]
  end.

Lemma emits_generateAccount :
  forall (P : Draw -> Prop) networkType mode keyName old privateKey publicKey,
    P (NewAccount (KeyAccount keyName)) ->
    emits P (generateAccount networkType mode keyName old privateKey publicKey).
Proof.
  intros P nt mode keyName old priv pub HP. unfold generateAccount.
  repeat emits_step.
Qed.

#[local] Hint Resolve emits_generateAccount : emits.

Lemma emits_generateNodeAccount :
  forall (P : Draw -> Prop) oldNode presetData index nodePreset networkType,
    (forall keyName, P (NewAccount (KeyAccount keyName))) ->
    emits P (generateNodeAccount oldNode presetData index nodePreset networkType).
Proof.
  intros P oldNode presetData index nodePreset nt HP.
  unfold generateNodeAccount. repeat emits_step.
Qed.

Lemma emits_generateNodeAccounts :
  forall (P : Draw -> Prop) oldAddresses presetData nodes networkType,
    (forall keyName, P (NewAccount (KeyAccount keyName))) ->
    emits P (generateNodeAccounts oldAddresses presetData nodes networkType).
Proof.
  intros P old presetData nodes nt HP. unfold generateNodeAccounts.
  apply emits_mapM. intros x. apply emits_generateNodeAccount. exact HP.
Qed.

Lemma emits_initialAddresses :
  forall (P : Draw -> Prop) networkType oldAddresses presetData,
    P RandomBytes -> emits P (initialAddresses networkType oldAddresses presetData).
Proof.
  intros P nt old presetData HP. unfold initialAddresses. repeat emits_step.
Qed.

Lemma emits_resolveNemesisSigner :
  forall (P : Draw -> Prop) networkType mode oldAddresses c,
    P (NewAccount (KeyAccount NemesisSigner)) ->
    emits P (resolveNemesisSigner networkType mode oldAddresses c).
Proof.
  intros P nt mode old c HP. unfold resolveNemesisSigner. repeat emits_step.
Qed.

Lemma emits_fillSinkAddresses :
  forall (P : Draw -> Prop) networkType c,
    P (NewAccount SinkAccount) -> emits P (fillSinkAddresses networkType c).
Proof.
  intros P nt c HP. unfold fillSinkAddresses, defaultSinkAddress,
    getDefaultSyncAddress. repeat emits_step.
Qed.

Lemma emits_generateAddresses :
  forall (P : Draw -> Prop) networkType mode accounts,
    P (NewAccount FreeAccount) ->
    emits P (generateAddresses networkType mode accounts).
Proof.
  intros P nt mode accounts HP. unfold generateAddresses. repeat emits_step.
Qed.

Lemma emits_resolveNemesisMosaics :
  forall (P : Draw -> Prop) networkType mode signerAddress oldAddresses
         oldPresetData c,
    (oldAddresses = None -> P (NewAccount FreeAccount)) ->
    emits P (resolveNemesisMosaics networkType mode signerAddress oldAddresses
               oldPresetData c).
Proof.
  intros P nt mode addr old oldPreset c HP. unfold resolveNemesisMosaics.
  destruct old as [old|].
  - repeat emits_step.
  - specialize (HP eq_refl). unfold processMosaic.
    repeat first [apply emits_generateAddresses; exact HP | emits_step].
Qed.

(** Lines 83-87: the preset after the network fields and the seed are
    stamped. *)
Definition stamped (identifier name : string) (addresses : Addresses.t)
    (p : ConfigPreset.t) : ConfigPreset.t :=
  let p := ConfigPreset.withNetwork identifier name p in
  if truthy (ConfigPreset.nemesisGenerationHashSeed p) then p
  else ConfigPreset.withNemesisGenerationHashSeed
         (Addresses.nemesisGenerationHashSeed addresses) p.

(** The node phase of [generateRandomConfiguration] (lines 71-73). *)
Definition nodePhase (networkType : NetworkType)
    (oldAddresses : option Addresses.t) (presetData : ConfigPreset.t)
    (addresses : Addresses.t) : Gen Addresses.t :=
  match ConfigPreset.nodes presetData with
  | Some nodes =>
      (accounts <- generateNodeAccounts oldAddresses presetData nodes
                     networkType ;;
       ret (Addresses.withNodes accounts addresses))%m
  | None => ret addresses
  end.

(** Lines 49-123: what [generateRandomConfiguration] does before the
    mosaics, with what it has established by then: the network type, the
    security mode, the test of line 89, the address of the nemesis signer,
    and the addresses and the preset so far. *)
Record Prepared : Type := {
  preparedNetworkType : NetworkType;
  preparedMode : PrivateKeySecurityMode;
  preparedCreate : bool;
  preparedSignerAddress : string;
  preparedConfig : Config
}.

Definition beforeMosaics (root : string) (oldAddresses : option Addresses.t)
    (presetData : ConfigPreset.t) : Gen Prepared :=
  match ConfigPreset.networkType presetData with
  | None =>
      throw (Error
        "Network Type could not be resolved. Have your provided the right --preset?")
  | Some networkType =>
      if (networkType =? 0)%Z
      then throw (Error
        "Network Type could not be resolved. Have your provided the right --preset?")
      else
      (addresses <- initialAddresses networkType oldAddresses presetData ;;
       addresses <- nodePhase networkType oldAddresses presetData addresses ;;
       c <- fillSinkAddresses networkType (addresses, presetData) ;;
       identifier <- liftRes (getNetworkIdentifier networkType) ;;
       name <- liftRes (getNetworkName networkType) ;;
       let p := stamped identifier name (fst c) (snd c) in
       mode <- liftRes (getPrivateKeySecurityMode
                          (ConfigPreset.privateKeySecurityMode p)) ;;
       let create := shouldCreateNemesis root p in
       c <- (if create
             then resolveNemesisSigner networkType mode oldAddresses (fst c, p)
             else ret (fst c, p)) ;;
       ids <- liftRes (resolveMosaicIds networkType (snd c)) ;;
       ret (Build_Prepared networkType mode create (fst ids)
              (fst c, snd ids)))%m
  end.

(** Lines 125-206: the mosaics, and the return. *)
Definition afterPreparation (oldAddresses : option Addresses.t)
    (oldPresetData : option ConfigPreset.t) (s : Prepared) : Gen Config :=
  if preparedCreate s
  then resolveNemesisMosaics (preparedNetworkType s) (preparedMode s)
         (preparedSignerAddress s) oldAddresses oldPresetData
         (preparedConfig s)
  else ret (preparedConfig s).

(** A run whose preparation returns is what follows the preparation. *)
Lemma generateRandomConfiguration_after :
  forall root oldAddresses oldPresetData presetData w s w',
    beforeMosaics root oldAddresses presetData w = inr (s, w') ->
    generateRandomConfiguration root oldAddresses oldPresetData presetData w
    = afterPreparation oldAddresses oldPresetData s w'.
Proof.
  intros root old oldPreset presetData w s w' H.
  unfold beforeMosaics in H. unfold generateRandomConfiguration.
  destruct (ConfigPreset.networkType presetData) as [nt|]; [|discriminate H].
  destruct (nt =? 0)%Z; [discriminate H|].
  apply bind_inr in H. destruct H as (a0 & w0 & H0 & H).
  apply bind_inr in H. destruct H as (a1 & w1 & H1 & H).
  apply bind_inr in H. destruct H as (c2 & w2 & H2 & H).
  apply bind_inr in H. destruct H as (identifier & w2' & Hid & H).
  apply liftRes_inr in Hid. destruct Hid as [Hid ->].
  apply bind_inr in H. destruct H as (name & w2' & Hname & H).
  apply liftRes_inr in Hname. destruct Hname as [Hname ->].
  cbv zeta in H.
  apply bind_inr in H. destruct H as (mode & w2' & Hmode & H).
  apply liftRes_inr in Hmode. destruct Hmode as [Hmode ->].
  apply bind_inr in H. destruct H as (c3 & w3 & H3 & H).
  apply bind_inr in H. destruct H as (ids & w3' & Hids & H).
  apply liftRes_inr in Hids. destruct Hids as [Hids ->].
  apply ret_inr in H. destruct H as [-> ->].
  unfold bind at 1. rewrite H0.
  unfold bind at 1. unfold nodePhase in H1.
  assert (Hnodes :
    match ConfigPreset.nodes presetData with
    | Some nodes =>
        (accounts <- generateNodeAccounts old presetData nodes nt ;;
         ret (Addresses.withNodes accounts a0))%m
    | None => ret a0
    end w0 = inr (a1, w1)) by exact H1.
  rewrite Hnodes.
  unfold bind at 1. rewrite H2.
  unfold bind at 1. rewrite Hid. unfold liftRes at 1.
  unfold bind at 1. rewrite Hname. unfold liftRes at 1.
  cbv zeta. unfold stamped in Hmode, H3. cbv zeta in Hmode, H3.
  unfold bind at 1. rewrite Hmode. unfold liftRes at 1.
  unfold bind at 1. rewrite H3.
  unfold bind at 1. rewrite Hids. unfold liftRes at 1.
  unfold afterPreparation, stamped. reflexivity.
Qed.

(** A successful run went through every phase in order. *)
Lemma generateRandomConfiguration_phases :
  forall root oldAddresses oldPresetData presetData w result w',
    generateRandomConfiguration root oldAddresses oldPresetData presetData w
      = inr (result, w') ->
    exists networkType a0 w0 a1 w1 c2 w2 identifier name mode c3 w3 ids,
      ConfigPreset.networkType presetData = Some networkType
      /\ initialAddresses networkType oldAddresses presetData w = inr (a0, w0)
      /\ nodePhase networkType oldAddresses presetData a0 w0 = inr (a1, w1)
      /\ fillSinkAddresses networkType (a1, presetData) w1 = inr (c2, w2)
      /\ getNetworkIdentifier networkType = inr identifier
      /\ getNetworkName networkType = inr name
      /\ getPrivateKeySecurityMode
           (ConfigPreset.privateKeySecurityMode
              (stamped identifier name (fst c2) (snd c2))) = inr mode
      /\ (if shouldCreateNemesis root (stamped identifier name (fst c2) (snd c2))
          then resolveNemesisSigner networkType mode oldAddresses
                 (fst c2, stamped identifier name (fst c2) (snd c2))
          else ret (fst c2, stamped identifier name (fst c2) (snd c2))) w2
         = inr (c3, w3)
      /\ resolveMosaicIds networkType (snd c3) = inr ids
      /\ (if shouldCreateNemesis root (stamped identifier name (fst c2) (snd c2))
          then resolveNemesisMosaics networkType mode (fst ids) oldAddresses
                 oldPresetData (fst c3, snd ids)
          else ret (fst c3, snd ids)) w3
         = inr (result, w').
Proof.
  intros root old oldPreset presetData w result w' H.
  unfold generateRandomConfiguration in H.
  destruct (ConfigPreset.networkType presetData) as [nt|] eqn:Hnt;
    [|discriminate].
  destruct (nt =? 0)%Z; [discriminate|].
  apply bind_inr in H. destruct H as (a0 & w0 & H0 & H).
  apply bind_inr in H. destruct H as (a1 & w1 & H1 & H).
  apply bind_inr in H. destruct H as (c2 & w2 & H2 & H).
  apply bind_inr in H. destruct H as (identifier & w2' & Hid & H).
  apply liftRes_inr in Hid. destruct Hid as [Hid ->].
  apply bind_inr in H. destruct H as (name & w2' & Hname & H).
  apply liftRes_inr in Hname. destruct Hname as [Hname ->].
  cbv zeta in H.
  apply bind_inr in H. destruct H as (mode & w2' & Hmode & H).
  apply liftRes_inr in Hmode. destruct Hmode as [Hmode ->].
  apply bind_inr in H. destruct H as (c3 & w3 & H3 & H).
  apply bind_inr in H. destruct H as (ids & w3' & Hids & H).
  apply liftRes_inr in Hids. destruct Hids as [Hids ->].
  exists nt, a0, w0, a1, w1, c2, w2, identifier, name, mode, c3, w3, ids.
  repeat split; assumption.
Qed.

(** What decides [shouldCreateNemesis]. *)
Definition nemesisView (p : ConfigPreset.t)
  : option NemesisPreset.t * option string * string :=
  (ConfigPreset.nemesis p, ConfigPreset.nemesisSeedFolder p, ConfigPreset.preset p).

(** The four places that hold a sink address. *)
Definition sinkView (c : Config)
  : option string * option string * option string * option string :=
  (ConfigPreset.harvestNetworkFeeSinkAddress (snd c),
   ConfigPreset.mosaicRentalFeeSinkAddress (snd c),
   ConfigPreset.namespaceRentalFeeSinkAddress (snd c),
   Addresses.sinkAddress (fst c)).

Lemma shouldCreateNemesis_view :
  forall root p p',
    nemesisView p = nemesisView p' ->
    shouldCreateNemesis root p = shouldCreateNemesis root p'.
Proof.
  intros root p p' H. unfold nemesisView in H. injection H as Hn Hs Hp.
  unfold shouldCreateNemesis. rewrite Hn, Hs, Hp. reflexivity.
Qed.

Lemma defaultSinkAddress_nemesisView :
  forall networkType get set c w c' w',
    (forall s p, nemesisView (set s p) = nemesisView p) ->
    defaultSinkAddress networkType get set c w = inr (c', w') ->
    nemesisView (snd c') = nemesisView (snd c).
Proof.
  intros nt get set c w c' w' Hset H. unfold defaultSinkAddress in H.
  destruct (truthy (get (snd c))).
  - apply ret_inr in H. destruct H as [-> _]. reflexivity.
  - apply bind_inr in H. destruct H as (r & w1 & _ & H).
    apply ret_inr in H. destruct H as [-> _]. simpl. apply Hset.
Qed.

Lemma fillSinkAddresses_nemesisView :
  forall networkType c w c' w',
    fillSinkAddresses networkType c w = inr (c', w') ->
    nemesisView (snd c') = nemesisView (snd c).
Proof.
  intros nt c w c' w' H. unfold fillSinkAddresses in H.
  apply bind_inr in H. destruct H as (c1 & w1 & H1 & H).
  apply bind_inr in H. destruct H as (c2 & w2 & H2 & H).
  apply defaultSinkAddress_nemesisView in H1; [|reflexivity].
  apply defaultSinkAddress_nemesisView in H2; [|reflexivity].
  apply defaultSinkAddress_nemesisView in H; [|reflexivity].
  congruence.
Qed.

Lemma stamped_nemesisView :
  forall identifier name a p, nemesisView (stamped identifier name a p) = nemesisView p.
Proof.
  intros identifier name a p. unfold stamped. cbv zeta.
  destruct (truthy _); reflexivity.
Qed.

(** The test of lines 89 and 125 is the test on the preset as it came in. *)
Lemma shouldCreateNemesis_at_test :
  forall root networkType a presetData w c w' identifier name,
    fillSinkAddresses networkType (a, presetData) w = inr (c, w') ->
    shouldCreateNemesis root (stamped identifier name (fst c) (snd c))
    = shouldCreateNemesis root presetData.
Proof.
  intros root nt a presetData w c w' identifier name H.
  apply shouldCreateNemesis_view. rewrite stamped_nemesisView.
  apply (fillSinkAddresses_nemesisView _ _ _ _ _ H).
Qed.

(** A draw that is not the account of origin [o]. *)
Definition notFrom (o : Origin) (d : Draw) : Prop := d <> NewAccount o.

Ltac emits_phase :=
  first
    [ apply emits_initialAddresses
    | apply emits_generateNodeAccounts; intros ?
    | apply emits_fillSinkAddresses
    | apply emits_resolveNemesisSigner
    | apply emits_resolveNemesisMosaics; intros ?
    | emits_step ];
  try (unfold notFrom; discriminate).

(** On an upgrade the run draws no free account. *)
Lemma upgrade_draws_no_free_account :
  forall root old oldPresetData presetData,
    emits (notFrom FreeAccount)
      (generateRandomConfiguration root (Some old) oldPresetData presetData).
Proof.
  intros root old oldPreset presetData. unfold generateRandomConfiguration.
  repeat emits_phase.
Qed.

(** C8. On an upgrade run that would create the nemesis, the addresses
    returned carry the mosaics of the old addresses, the preset carries the
    nemesis of the old preset, and no free account of a mosaic is drawn: the
    distribution of the mosaics is not run. *)
Theorem upgrade_reuses_nemesis :
  forall root old oldPresetData presetData w addresses presetData' w',
    shouldCreateNemesis root presetData = true ->
    generateRandomConfiguration root (Some old) oldPresetData presetData w
      = inr ((addresses, presetData'), w') ->
    Addresses.mosaics addresses = Addresses.mosaics old
    /\ (exists oldPreset,
          oldPresetData = Some oldPreset
          /\ ConfigPreset.nemesis presetData' = ConfigPreset.nemesis oldPreset)
    /\ (exists draws, w' = w ++ draws /\ Forall (notFrom FreeAccount) draws).
Proof.
  intros root old oldPreset presetData w addresses presetData' w' Hcreate H.
  split; [|split].
  3: exact (upgrade_draws_no_free_account _ _ _ _ _ _ _ H).
  all: apply generateRandomConfiguration_phases in H;
    destruct H as (nt & a0 & w0 & a1 & w1 & c2 & w2 & identifier & name & mode
                   & c3 & w3 & ids & _ & _ & _ & Hfill & _ & _ & _ & _ & _ & H);
    rewrite (shouldCreateNemesis_at_test _ _ _ _ _ _ _ _ _ Hfill), Hcreate in H;
    unfold resolveNemesisMosaics in H;
    destruct oldPreset as [oldPreset|]; [|discriminate H];
    apply ret_inr in H; destruct H as [H _]; injection H as -> ->.
  - reflexivity.
  - exists oldPreset. split; reflexivity.
Qed.

(** *** The shared sink address *)

Definition isSinkDraw (d : Draw) : bool :=
  match d with NewAccount SinkAccount => true | _ => false end.

(** The number of sink accounts among the draws. *)
Definition sinkDraws (draws : list Draw) : nat :=
  List.length (filter isSinkDraw draws).

Lemma sinkDraws_app :
  forall d1 d2, sinkDraws (d1 ++ d2) = sinkDraws d1 + sinkDraws d2.
Proof. intros d1 d2. unfold sinkDraws. rewrite filter_app, length_app. reflexivity. Qed.

Lemma sinkDraws_none :
  forall draws, Forall (notFrom SinkAccount) draws -> sinkDraws draws = 0.
Proof.
  induction draws as [|d draws IH]; intros Hall; [reflexivity|].
  inversion Hall as [|? ? Hd Hrest]; subst. unfold sinkDraws in *. simpl.
  destruct d as [|[| |k]]; simpl; auto.
  exfalso. apply Hd. reflexivity.
Qed.

Lemma getDefaultSyncAddress_reuse :
  forall networkType a s w,
    Addresses.sinkAddress a = Some s -> truthy (Some s) = true ->
    getDefaultSyncAddress networkType a w = inr ((s, a), w).
Proof.
  intros nt a s w Hs Ht. unfold getDefaultSyncAddress. rewrite Hs, Ht.
  reflexivity.
Qed.

Lemma getDefaultSyncAddress_fresh :
  forall networkType a w,
    truthy (Addresses.sinkAddress a) = false ->
    let s := sdkAddress
               (createFromPrivateKey (randomPrivateKey (List.length w))
                  networkType) in
    getDefaultSyncAddress networkType a w
    = inr ((s, Addresses.withSinkAddress s a), w ++ [NewAccount SinkAccount]).
Proof.
  intros nt a w Ht s. unfold getDefaultSyncAddress.
  destruct (Addresses.sinkAddress a) as [x|]; [rewrite Ht|]; reflexivity.
Qed.

(** Lines 74-82 when the preset supplies none of the three sink fields. *)
Lemma fillSinkAddresses_all_missing :
  (forall nt pk, addressOf nt pk <> EmptyString) ->
  forall networkType a p w,
    truthy (ConfigPreset.harvestNetworkFeeSinkAddress p) = false ->
    truthy (ConfigPreset.mosaicRentalFeeSinkAddress p) = false ->
    truthy (ConfigPreset.namespaceRentalFeeSinkAddress p) = false ->
    exists s draws c,
      fillSinkAddresses networkType (a, p) w = inr (c, w ++ draws)
      /\ sinkView c = (Some s, Some s, Some s, Some s)
      /\ (if truthy (Addresses.sinkAddress a)
          then Addresses.sinkAddress a = Some s /\ draws = []
          else draws = [NewAccount SinkAccount]
               /\ s = sdkAddress
                        (createFromPrivateKey
                           (randomPrivateKey (List.length w)) networkType)).
Proof.
  intros Hnonempty nt a p w H1 H2 H3.
  unfold fillSinkAddresses, defaultSinkAddress. cbn [fst snd].
  rewrite H1.
  destruct (truthy (Addresses.sinkAddress a)) eqn:Ht.
  - destruct (Addresses.sinkAddress a) as [s|] eqn:Hs; [|discriminate Ht].
    exists s, [], (a, ConfigPreset.withNamespaceRentalFeeSinkAddress s
                        (ConfigPreset.withMosaicRentalFeeSinkAddress s
                           (ConfigPreset.withHarvestNetworkFeeSinkAddress s p))).
    rewrite app_nil_r. split; [|split; [|split; reflexivity]].
    + unfold bind at 1. unfold bind at 1.
      rewrite (getDefaultSyncAddress_reuse nt a s w Hs Ht).
      cbn [ret fst snd]. unfold bind at 1.
      change (ConfigPreset.mosaicRentalFeeSinkAddress
                (ConfigPreset.withHarvestNetworkFeeSinkAddress s p))
        with (ConfigPreset.mosaicRentalFeeSinkAddress p).
      rewrite H2. unfold bind at 1.
      rewrite (getDefaultSyncAddress_reuse nt a s w Hs Ht).
      cbn [ret fst snd].
      change (ConfigPreset.namespaceRentalFeeSinkAddress
                (ConfigPreset.withMosaicRentalFeeSinkAddress s
                   (ConfigPreset.withHarvestNetworkFeeSinkAddress s p)))
        with (ConfigPreset.namespaceRentalFeeSinkAddress p).
      rewrite H3. unfold bind at 1.
      rewrite (getDefaultSyncAddress_reuse nt a s w Hs Ht). reflexivity.
    + unfold sinkView. cbn [fst snd]. rewrite Hs. reflexivity.
  - set (s := sdkAddress
                (createFromPrivateKey (randomPrivateKey (List.length w)) nt)).
    assert (Hts : truthy (Some s) = true).
    { apply truthy_Some. subst s. unfold createFromPrivateKey. simpl.
      apply Hnonempty. }
    set (a' := Addresses.withSinkAddress s a).
    assert (Hs' : Addresses.sinkAddress a' = Some s) by reflexivity.
    exists s, [NewAccount SinkAccount],
      (a', ConfigPreset.withNamespaceRentalFeeSinkAddress s
             (ConfigPreset.withMosaicRentalFeeSinkAddress s
                (ConfigPreset.withHarvestNetworkFeeSinkAddress s p))).
    split; [|split; [|split; reflexivity]].
    + unfold bind at 1. unfold bind at 1.
      rewrite (getDefaultSyncAddress_fresh nt a w Ht). fold s. fold a'.
      cbn [ret fst snd]. unfold bind at 1.
      change (ConfigPreset.mosaicRentalFeeSinkAddress
                (ConfigPreset.withHarvestNetworkFeeSinkAddress s p))
        with (ConfigPreset.mosaicRentalFeeSinkAddress p).
      rewrite H2. unfold bind at 1.
      rewrite (getDefaultSyncAddress_reuse nt a' s _ Hs' Hts).
      cbn [ret fst snd].
      change (ConfigPreset.namespaceRentalFeeSinkAddress
                (ConfigPreset.withMosaicRentalFeeSinkAddress s
                   (ConfigPreset.withHarvestNetworkFeeSinkAddress s p)))
        with (ConfigPreset.namespaceRentalFeeSinkAddress p).
      rewrite H3. unfold bind at 1.
      rewrite (getDefaultSyncAddress_reuse nt a' s _ Hs' Hts). reflexivity.
    + reflexivity.
Qed.

Lemma initialAddresses_sinkAddress :
  forall networkType oldAddresses presetData w a w',
    initialAddresses networkType oldAddresses presetData w = inr (a, w') ->
    Addresses.sinkAddress a
    = orElse (ConfigPreset.sinkAddress presetData)
        (oldField oldAddresses Addresses.sinkAddress).
Proof.
  intros nt old presetData w a w' H. unfold initialAddresses in H.
  cbv zeta in H. apply bind_inr in H. destruct H as (seed & w1 & _ & H).
  apply ret_inr in H. destruct H as [-> _]. reflexivity.
Qed.

Lemma nodePhase_sinkAddress :
  forall networkType oldAddresses presetData a w a' w',
    nodePhase networkType oldAddresses presetData a w = inr (a', w') ->
    Addresses.sinkAddress a' = Addresses.sinkAddress a.
Proof.
  intros nt old presetData a w a' w' H. unfold nodePhase in H.
  destruct (ConfigPreset.nodes presetData).
  - apply bind_inr in H. destruct H as (accounts & w1 & _ & H).
    apply ret_inr in H. destruct H as [-> _]. reflexivity.
  - apply ret_inr in H. destruct H as [-> _]. reflexivity.
Qed.

Lemma emits_nodePhase :
  forall (P : Draw -> Prop) networkType oldAddresses presetData a,
    (forall keyName, P (NewAccount (KeyAccount keyName))) ->
    emits P (nodePhase networkType oldAddresses presetData a).
Proof.
  intros P nt old presetData a HP. unfold nodePhase.
  destruct (ConfigPreset.nodes presetData).
  - apply emits_bind; [apply emits_generateNodeAccounts; exact HP|].
    intros accounts. apply emits_ret.
  - apply emits_ret.
Qed.

Lemma stamped_sinkView :
  forall identifier name a p,
    sinkView (a, stamped identifier name a p) = sinkView (a, p).
Proof.
  intros identifier name a p. unfold stamped. cbv zeta.
  destruct (truthy _); reflexivity.
Qed.

Lemma resolveNemesisSigner_sinkView :
  forall networkType mode oldAddresses c w c' w',
    resolveNemesisSigner networkType mode oldAddresses c w = inr (c', w') ->
    sinkView c' = sinkView c.
Proof.
  intros nt mode old c w c' w' H. unfold resolveNemesisSigner in H.
  destruct (ConfigPreset.nemesis (snd c)).
  - apply bind_inr in H. destruct H as (signer & w1 & _ & H).
    cbv zeta in H. apply ret_inr in H. destruct H as [-> _]. reflexivity.
  - apply ret_inr in H. destruct H as [-> _]. reflexivity.
Qed.

Lemma resolveMosaicIds_sinkView :
  forall networkType a p ids,
    resolveMosaicIds networkType p = inr ids ->
    sinkView (a, snd ids) = sinkView (a, p).
Proof.
  intros nt a p ids H. unfold resolveMosaicIds in H.
  destruct (ConfigPreset.nemesisSignerPublicKey p); [|discriminate].
  cbv zeta in H.
  destruct (truthy (ConfigPreset.currencyMosaicId p));
    destruct (truthy (ConfigPreset.harvestingMosaicId _));
    try (injection H as <-; reflexivity);
    destruct (ConfigPreset.nemesis _) as [nemesis|]; try discriminate;
    destruct (match NemesisPreset.mosaics nemesis with
              | Some ms => (1 <? List.length ms)%nat
              | None => false
              end);
    injection H as <-; reflexivity.
Qed.

Lemma resolveNemesisMosaics_sinkView :
  forall networkType mode signerAddress oldAddresses oldPresetData c w c' w',
    resolveNemesisMosaics networkType mode signerAddress oldAddresses
      oldPresetData c w = inr (c', w') ->
    sinkView c' = sinkView c.
Proof.
  intros nt mode addr old oldPreset c w c' w' H.
  unfold resolveNemesisMosaics in H.
  destruct old as [old|].
  - destruct oldPreset; [|discriminate].
    apply ret_inr in H. destruct H as [-> _]. reflexivity.
  - destruct (ConfigPreset.nemesis (snd c)) as [nemesis|].
    + destruct (NemesisPreset.mosaics nemesis).
      * apply bind_inr in H. destruct H as (processed & w1 & _ & H).
        apply ret_inr in H. destruct H as [-> _]. reflexivity.
      * apply ret_inr in H. destruct H as [-> _]. reflexivity.
    + apply ret_inr in H. destruct H as [-> _]. reflexivity.
Qed.

(** C10. When the preset supplies none of the three sink fields, a run that
    returns has filled the three of them and [addresses.sinkAddress] with
    one address: the [sinkAddress] of the preset, else of the old addresses,
    when there is one, and then no sink account is drawn; otherwise the
    address of the one sink account drawn in the run. Addresses of the sdk
    are not empty strings. *)
Theorem sink_address_shared :
  (forall nt pk, addressOf nt pk <> EmptyString) ->
  forall root oldAddresses oldPresetData presetData w addresses presetData' w',
    truthy (ConfigPreset.harvestNetworkFeeSinkAddress presetData) = false ->
    truthy (ConfigPreset.mosaicRentalFeeSinkAddress presetData) = false ->
    truthy (ConfigPreset.namespaceRentalFeeSinkAddress presetData) = false ->
    generateRandomConfiguration root oldAddresses oldPresetData presetData w
      = inr ((addresses, presetData'), w') ->
    exists s draws,
      w' = w ++ draws
      /\ sinkView (addresses, presetData') = (Some s, Some s, Some s, Some s)
      /\ (let existing :=
            orElse (ConfigPreset.sinkAddress presetData)
              (oldField oldAddresses Addresses.sinkAddress) in
          if truthy existing
          then existing = Some s /\ sinkDraws draws = 0
          else sinkDraws draws = 1
               /\ exists networkType n,
                    ConfigPreset.networkType presetData = Some networkType
                    /\ s = sdkAddress
                             (createFromPrivateKey (randomPrivateKey n)
                                networkType)).
Proof.
  intros Hnonempty root old oldPreset presetData w addresses presetData' w'
    H1 H2 H3 H.
  apply generateRandomConfiguration_phases in H.
  destruct H as (nt & a0 & w0 & a1 & w1 & c2 & w2 & identifier & name & mode
                 & c3 & w3 & ids & Hnt & Hinit & Hnodes & Hfill & _ & _ & _
                 & Hsigner & Hids & Hlast).
  pose proof (initialAddresses_sinkAddress _ _ _ _ _ _ Hinit) as Hsink0.
  pose proof (nodePhase_sinkAddress _ _ _ _ _ _ _ Hnodes) as Hsink1.
  destruct (emits_initialAddresses (notFrom SinkAccount) nt old presetData
              ltac:(unfold notFrom; discriminate) _ _ _ Hinit)
    as (d0 & -> & Hd0).
  destruct (emits_nodePhase (notFrom SinkAccount) nt old presetData a0
              ltac:(unfold notFrom; discriminate) _ _ _ Hnodes)
    as (d1 & -> & Hd1).
  destruct (fillSinkAddresses_all_missing Hnonempty nt a1 presetData
              ((w ++ d0) ++ d1) H1 H2 H3) as (s & ds & c & Hc & Hview & Hcase).
  rewrite Hc in Hfill. injection Hfill as <- <-.
  assert (H3' : sinkView c3 = sinkView c /\
                exists d3, w3 = (((w ++ d0) ++ d1) ++ ds) ++ d3
                           /\ Forall (notFrom SinkAccount) d3).
  { destruct (shouldCreateNemesis root _).
    - split.
      + rewrite (resolveNemesisSigner_sinkView _ _ _ _ _ _ _ Hsigner).
        apply stamped_sinkView.
      + apply (emits_resolveNemesisSigner (notFrom SinkAccount) nt mode old _
                 ltac:(unfold notFrom; discriminate) _ _ _ Hsigner).
    - apply ret_inr in Hsigner. destruct Hsigner as [-> ->]. split.
      + apply stamped_sinkView.
      + exists []. rewrite app_nil_r. auto. }
  destruct H3' as (Hview3 & d3 & -> & Hd3).
  pose proof (resolveMosaicIds_sinkView nt (fst c3) _ _ Hids) as Hview4.
  assert (H5 : sinkView (addresses, presetData') = sinkView (fst c3, snd ids) /\
               exists d4, w' = ((((w ++ d0) ++ d1) ++ ds) ++ d3) ++ d4
                          /\ Forall (notFrom SinkAccount) d4).
  { destruct (shouldCreateNemesis root _).
    - split.
      + apply (resolveNemesisMosaics_sinkView _ _ _ _ _ _ _ _ _ Hlast).
      + apply (emits_resolveNemesisMosaics (notFrom SinkAccount) nt mode
                 (fst ids) old oldPreset _
                 ltac:(intros; unfold notFrom; discriminate) _ _ _ Hlast).
    - apply ret_inr in Hlast. destruct Hlast as [Hlast ->].
      rewrite Hlast. split; [reflexivity|].
      exists []. rewrite app_nil_r. auto. }
  destruct H5 as (Hview5 & d4 & -> & Hd4).
  exists s, (d0 ++ d1 ++ ds ++ d3 ++ d4).
  split; [rewrite !app_assoc; reflexivity|].
  split.
  - rewrite Hview5, Hview4. change (sinkView (fst c3, snd c3)) with (sinkView c3).
    rewrite Hview3. exact Hview.
  - cbv zeta. rewrite !sinkDraws_app.
    rewrite (sinkDraws_none d0 Hd0), (sinkDraws_none d1 Hd1),
      (sinkDraws_none d3 Hd3), (sinkDraws_none d4 Hd4).
    rewrite <- Hsink0, <- Hsink1.
    destruct (truthy (Addresses.sinkAddress a1)).
    + destruct Hcase as [Hs ->]. split; [exact Hs | reflexivity].
    + destruct Hcase as [-> Hs]. split; [reflexivity|].
      exists nt, (List.length ((w ++ d0) ++ d1)). split; assumption.
Qed.

(** *** Stability of an account across runs *)

Lemma upperAscii_idempotent :
  forall c, upperAscii (upperAscii c) = upperAscii c.
Proof. intros [[] [] [] [] [] [] [] []]; reflexivity. Qed.

Lemma toUpperCase_idempotent :
  forall s, toUpperCase (toUpperCase s) = toUpperCase s.
Proof.
  induction s as [|c s IH]; simpl; [reflexivity|].
  rewrite upperAscii_idempotent, IH. reflexivity.
Qed.

Lemma truthy_nonempty : forall s, truthy (Some s) = true -> s <> EmptyString.
Proof. intros [|c s] H; [discriminate H | discriminate]. Qed.

(** An account rebuilt from keys in upper case is written by [toConfig] in
    canonical form. *)
Lemma getAccount_canonical :
  forall networkType publicKey privateKey account,
    getAccount networkType (option_map toUpperCase publicKey)
      (option_map toUpperCase privateKey) = Some account ->
    canonical networkType (toConfig account).
Proof.
  intros nt pub priv account H. unfold getAccount in H.
  destruct (truthy (option_map toUpperCase priv)) eqn:Hpriv.
  - destruct priv as [k|]; [|discriminate Hpriv]. cbn [option_map] in *.
    injection H as <-. unfold createFromPrivateKey, toConfig, canonical.
    cbn [ConfigAccount.privateKey ConfigAccount.publicKey ConfigAccount.address].
    rewrite !toUpperCase_idempotent.
    split; [apply truthy_nonempty; exact Hpriv|]. repeat split; reflexivity.
  - destruct (truthy (option_map toUpperCase pub)) eqn:Hpub; [|discriminate H].
    destruct pub as [p|]; [|discriminate Hpub]. cbn [option_map] in *.
    injection H as <-. unfold createFromPublicKey, toConfig, canonical.
    cbn [ConfigAccount.privateKey ConfigAccount.publicKey ConfigAccount.address].
    split; [apply truthy_nonempty; exact Hpub|].
    split; [apply toUpperCase_idempotent | reflexivity].
Qed.

Lemma oldAccountOf_canonical :
  forall networkType stored account,
    oldAccountOf networkType stored = Some account ->
    canonical networkType (toConfig account).
Proof.
  intros nt [a|] account H.
  - apply (getAccount_canonical nt (Some (ConfigAccount.publicKey a))
             (ConfigAccount.privateKey a)). exact H.
  - discriminate H.
Qed.

(** The merge of two canonical accounts with one address is canonical when
    an address names one public key. *)
Lemma spreadAccount_canonical :
  (forall nt p q, addressOf nt p = addressOf nt q -> p = q) ->
  forall networkType o n,
    canonical networkType (toConfig o) ->
    canonical networkType (toConfig n) ->
    sdkAddress o = sdkAddress n ->
    canonical networkType (spreadAccount (toConfig o) (toConfig n)).
Proof.
  intros Hinj nt o n Ho Hn Heq.
  destruct n as [kn pn an | pn an]; [exact Hn|].
  destruct o as [ko po ao | po ao]; [|exact Hn].
  unfold canonical, spreadAccount, toConfig in *.
  cbn [ConfigAccount.privateKey ConfigAccount.publicKey ConfigAccount.address
       sdkAddress] in *.
  destruct Ho as (Hne & Hup & Hpub & Haddr). destruct Hn as (_ & _ & Haddrn).
  assert (Hp : publicKeyOf ko = pn) by (apply (Hinj nt); congruence).
  repeat split; congruence.
Qed.

(** Whatever [generateAccount] returns is in canonical form. Random
    private keys are not empty, and an address names one public key. *)
Lemma generateAccount_canonical :
  (forall n, randomPrivateKey n <> EmptyString) ->
  (forall nt p q, addressOf nt p = addressOf nt q -> p = q) ->
  forall networkType mode keyName stored privateKey publicKey w account w',
    generateAccount networkType mode keyName stored privateKey publicKey w
      = inr (account, w') ->
    canonical networkType account.
Proof.
  intros Hrandom Hinj nt mode keyName stored priv pub w account w' H.
  unfold generateAccount in H.
  destruct (oldAccountOf nt stored) as [o|] eqn:Ho;
    destruct (newAccountOf nt priv pub) as [n|] eqn:Hn.
  - pose proof (oldAccountOf_canonical _ _ _ Ho) as Hco.
    pose proof (getAccount_canonical _ _ _ _ Hn) as Hcn.
    destruct (sdkAddress o =? sdkAddress n)%string eqn:Heq;
      apply ret_inr in H; destruct H as [-> _]; [|exact Hcn].
    apply String.eqb_eq in Heq. apply spreadAccount_canonical; assumption.
  - apply ret_inr in H. destruct H as [-> _].
    apply (oldAccountOf_canonical _ _ _ Ho).
  - apply ret_inr in H. destruct H as [-> _].
    apply (getAccount_canonical _ _ _ _ Hn).
  - apply bind_inr in H. destruct H as (u1 & w1 & _ & H).
    apply bind_inr in H. destruct H as (u2 & w2 & _ & H).
    apply bind_inr in H. destruct H as (generated & w3 & Hg & H).
    apply ret_inr in H. destruct H as [-> _].
    unfold generateNewAccount in Hg. injection Hg as <- _.
    unfold createFromPrivateKey, toConfig, canonical.
    cbn [ConfigAccount.privateKey ConfigAccount.publicKey ConfigAccount.address].
    rewrite !toUpperCase_idempotent.
    split; [|repeat split; reflexivity].
    intro Hempty. apply toUpperCase_empty in Hempty.
    exact (Hrandom _ Hempty).
Qed.

(** X2. An account that [generateAccount] returned is stable: given back
    as the stored account of a later run, with no key supplied, it is
    returned as it is under every role and security mode, and nothing is
    drawn. Random private keys are not empty, and an address names one
    public key. *)
Theorem generateAccount_result_is_stable :
  (forall n, randomPrivateKey n <> EmptyString) ->
  (forall nt p q, addressOf nt p = addressOf nt q -> p = q) ->
  forall networkType mode keyName stored privateKey publicKey w account w',
    generateAccount networkType mode keyName stored privateKey publicKey w
      = inr (account, w') ->
    forall mode' keyName' w2,
      generateAccount networkType mode' keyName' (Some account) None None w2
      = inr (account, w2).
Proof.
  intros Hrandom Hinj nt mode keyName stored priv pub w account w' H
    mode' keyName' w2.
  pose proof (generateAccount_canonical Hrandom Hinj _ _ _ _ _ _ _ _ _ H) as Hc.
  destruct (canonical_reused_verbatim nt account Hc) as (o & Ho & Hcfg).
  unfold generateAccount. rewrite Ho.
  change (newAccountOf nt None None) with (@None SdkAccount).
  rewrite Hcfg. reflexivity.
Qed.

(** *** The accounts of a node *)

Definition defined {A} (o : option A) : bool :=
  match o with Some _ => true | None => false end.

Lemma generateNodeAccount_shape :
  forall oldNodeAccount presetData index nodePreset networkType w node w',
    generateNodeAccount oldNodeAccount presetData index nodePreset networkType w
      = inr (node, w') ->
    defined (NodeAccount.transport node) = true
    /\ defined (NodeAccount.remote node)
       = (NodePreset.nodeUseRemoteAccount nodePreset
          || ConfigPreset.nodeUseRemoteAccount presetData)
         && (NodePreset.harvesting nodePreset || NodePreset.voting nodePreset)
    /\ defined (NodeAccount.vrf node) = NodePreset.harvesting nodePreset
    /\ defined (NodeAccount.agent node)
       = truthy (NodePreset.rewardProgram nodePreset)
    /\ NodeAccount.name node
       = orDefault (NodePreset.name nodePreset) ("node-" ++ showNat index)%string
    /\ NodeAccount.roles node = resolveRoles nodePreset
    /\ exists main,
         NodeAccount.main node = Some main
         /\ NodeAccount.friendlyName node
            = orDefault (NodePreset.friendlyName nodePreset)
                (substring 0 7 (ConfigAccount.publicKey main)).
Proof.
  intros old presetData index np nt w node w' H.
  unfold generateNodeAccount in H. cbv zeta in H.
  apply bind_inr in H. destruct H as (mode & w0 & _ & H).
  apply bind_inr in H. destruct H as (main & w1 & _ & H).
  apply bind_inr in H. destruct H as (transport & w2 & _ & H).
  apply bind_inr in H. destruct H as (remote & w3 & Hremote & H).
  apply bind_inr in H. destruct H as (vrf & w4 & Hvrf & H).
  apply bind_inr in H. destruct H as (agent & w5 & Hagent & H).
  apply ret_inr in H. destruct H as [-> _].
  cbn [NodeAccount.main NodeAccount.transport NodeAccount.remote NodeAccount.vrf
       NodeAccount.agent NodeAccount.name NodeAccount.roles
       NodeAccount.friendlyName defined].
  assert (Hr : defined remote
               = (NodePreset.nodeUseRemoteAccount np
                  || ConfigPreset.nodeUseRemoteAccount presetData)
                 && (NodePreset.harvesting np || NodePreset.voting np)).
  { destruct ((NodePreset.nodeUseRemoteAccount np
               || ConfigPreset.nodeUseRemoteAccount presetData)
              && (NodePreset.harvesting np || NodePreset.voting np)).
    - apply bind_inr in Hremote. destruct Hremote as (a & wa & _ & Hremote).
      apply ret_inr in Hremote. destruct Hremote as [-> _]. reflexivity.
    - apply ret_inr in Hremote. destruct Hremote as [-> _]. reflexivity. }
  assert (Hv : defined vrf = NodePreset.harvesting np).
  { destruct (NodePreset.harvesting np).
    - apply bind_inr in Hvrf. destruct Hvrf as (a & wa & _ & Hvrf).
      apply ret_inr in Hvrf. destruct Hvrf as [-> _]. reflexivity.
    - apply ret_inr in Hvrf. destruct Hvrf as [-> _]. reflexivity. }
  assert (Ha : defined agent = truthy (NodePreset.rewardProgram np)).
  { destruct (truthy (NodePreset.rewardProgram np)).
    - apply bind_inr in Hagent. destruct Hagent as (a & wa & _ & Hagent).
      apply ret_inr in Hagent. destruct Hagent as [-> _]. reflexivity.
    - apply ret_inr in Hagent. destruct Hagent as [-> _]. reflexivity. }
  repeat split; try assumption. exists main. split; reflexivity.
Qed.

(** X3. The accounts of a node that [generateNodeAccount] returns: main
    and transport always; remote when a remote account is asked for, by the
    node or by the preset, and the node harvests or votes; vrf when the node
    harvests; agent when the node is in a reward program. The name defaults
    to [node-<index>] and the friendly name to the first seven characters of
    the main public key. *)
Theorem generateNodeAccount_accounts :
  forall oldNodeAccount presetData index nodePreset networkType w node w',
    generateNodeAccount oldNodeAccount presetData index nodePreset networkType w
      = inr (node, w') ->
    defined (NodeAccount.transport node) = true
    /\ defined (NodeAccount.remote node)
       = (NodePreset.nodeUseRemoteAccount nodePreset
          || ConfigPreset.nodeUseRemoteAccount presetData)
         && (NodePreset.harvesting nodePreset || NodePreset.voting nodePreset)
    /\ defined (NodeAccount.vrf node) = NodePreset.harvesting nodePreset
    /\ defined (NodeAccount.agent node)
       = truthy (NodePreset.rewardProgram nodePreset)
    /\ NodeAccount.name node
       = orDefault (NodePreset.name nodePreset) ("node-" ++ showNat index)%string
    /\ NodeAccount.roles node = resolveRoles nodePreset
    /\ exists main,
         NodeAccount.main node = Some main
         /\ NodeAccount.friendlyName node
            = orDefault (NodePreset.friendlyName nodePreset)
                (substring 0 7 (ConfigAccount.publicKey main)).
Proof. exact generateNodeAccount_shape. Qed.



(** *** Lists built by [mapM] *)

Lemma mapM_Forall2 :
  forall {S A B} (f : A -> M S B) l s ys s',
    mapM f l s = inr (ys, s') ->
    Forall2 (fun x y => exists s0 s1, f x s0 = inr (y, s1)) l ys.
Proof.
  intros S A B f. induction l as [|x l IH]; intros s ys s' H; simpl in H.
  - apply ret_inr in H. destruct H as [-> _]. constructor.
  - apply bind_inr in H. destruct H as (y & s1 & Hy & H).
    apply bind_inr in H. destruct H as (rest & s2 & Hrest & H).
    apply ret_inr in H. destruct H as [-> _].
    constructor; [exists s, s1; exact Hy | exact (IH _ _ _ Hrest)].
Qed.

Lemma Forall2_at :
  forall {A B} (R : A -> B -> Prop) l1 l2,
    Forall2 R l1 l2 ->
    forall i x y, nth_error l1 i = Some x -> nth_error l2 i = Some y -> R x y.
Proof.
  intros A B R l1 l2 H. induction H as [|a b l1 l2 Hab _ IH]; intros i x y Hx Hy.
  - destruct i; discriminate Hx.
  - destruct i as [|i]; simpl in Hx, Hy.
    + injection Hx as <-. injection Hy as <-. exact Hab.
    + exact (IH i x y Hx Hy).
Qed.

Lemma indexed_from_nth :
  forall {A} (l : list A) start i x,
    nth_error l i = Some x ->
    nth_error (combine (seq start (List.length l)) l) i = Some (start + i, x).
Proof.
  intros A. induction l as [|a l IH]; intros start i x H.
  - destruct i; discriminate H.
  - destruct i as [|i]; simpl in H |- *.
    + injection H as <-. rewrite Nat.add_0_r. reflexivity.
    + rewrite (IH (S start) i x H). f_equal. f_equal. lia.
Qed.

Lemma indexed_nth :
  forall {A} (l : list A) i x,
    nth_error l i = Some x -> nth_error (indexed l) i = Some (i, x).
Proof. intros A l i x H. exact (indexed_from_nth l 0 i x H). Qed.

Lemma indexed_length : forall {A} (l : list A), List.length (indexed l) = List.length l.
Proof.
  intros A l. unfold indexed. rewrite length_combine, length_seq.
  apply Nat.min_id.
Qed.

(** *** Free accounts *)

Lemma generateFreeAccounts :
  forall networkType (indexes : list nat) w,
    mapM (fun _ : nat =>
            (account <- generateNewAccount networkType FreeAccount ;;
             ret (toConfig account))%m) indexes w
    = inr (map (fun i =>
                  toConfig
                    (createFromPrivateKey
                       (randomPrivateKey (List.length w + i)) networkType))
             (seq 0 (List.length indexes)),
           w ++ repeat (NewAccount FreeAccount) (List.length indexes)).
Proof.
  intros nt. induction indexes as [|x indexes IH]; intros w.
  - simpl. unfold ret. rewrite app_nil_r. reflexivity.
  - cbn [mapM]. unfold bind at 1. unfold bind at 1.
    unfold generateNewAccount at 1. cbn [ret]. unfold bind at 1.
    rewrite IH. unfold ret. cbn [List.length seq map repeat].
    rewrite Nat.add_0_r, <- seq_shift, map_map, <- app_assoc.
    f_equal. f_equal. f_equal.
    apply map_ext. intros i. rewrite length_app. simpl List.length.
    do 3 f_equal. lia.
Qed.

(** X4. The free accounts of a mosaic. A count between 0 and 2^32 - 1
    gives that many accounts, each from its own draw, in the order of the
    draws; any other count is a [RangeError] of [Array]; a list of private
    keys gives the accounts of the keys in order and draws nothing. The
    security mode plays no part: free accounts are generated under every
    mode. *)
Theorem generateAddresses_accounts :
  forall networkType mode w,
    (forall n, (0 <= n <= 4294967295)%Z ->
       generateAddresses networkType mode (Count n) w
       = inr (map (fun i =>
                     toConfig
                       (createFromPrivateKey
                          (randomPrivateKey (List.length w + i)) networkType))
                (seq 0 (Z.to_nat n)),
              w ++ repeat (NewAccount FreeAccount) (Z.to_nat n)))
    /\ (forall n, (n < 0 \/ 4294967295 < n)%Z ->
          generateAddresses networkType mode (Count n) w
          = inl (RangeError "Invalid array length"))
    /\ (forall keys,
          generateAddresses networkType mode (PrivateKeys keys) w
          = inr (map (fun key => toConfig (createFromPrivateKey key networkType))
                   keys, w)).
Proof.
  intros nt mode w. split; [|split].
  - intros n Hn. unfold generateAddresses, getArray.
    replace ((n <? 0)%Z || (4294967295 <? n)%Z) with false.
    2:{ symmetry. apply orb_false_iff. split; [apply Z.ltb_ge | apply Z.ltb_ge]; lia. }
    unfold bind at 1. unfold liftRes, ok.
    rewrite generateFreeAccounts, length_seq. reflexivity.
  - intros n Hn. unfold generateAddresses, getArray.
    replace ((n <? 0)%Z || (4294967295 <? n)%Z) with true; [reflexivity|].
    symmetry. apply orb_true_iff.
    destruct Hn as [Hn|Hn]; [left | right]; apply Z.ltb_lt; exact Hn.
  - intros keys. reflexivity.
Qed.

(** The number of accounts that a specification asks for. *)
Definition accountsAsked (accounts : AccountsSpec) : nat :=
  match accounts with
  | Count n => Z.to_nat n
  | PrivateKeys keys => List.length keys
  end.

Lemma generateAddresses_length :
  forall networkType mode accounts w generated w',
    generateAddresses networkType mode accounts w = inr (generated, w') ->
    List.length generated = accountsAsked accounts.
Proof.
  intros nt mode [n|keys] w generated w' H; unfold generateAddresses in H.
  - apply bind_inr in H. destruct H as (indexes & w1 & Hi & H).
    apply liftRes_inr in Hi. destruct Hi as [Hi ->].
    unfold getArray in Hi.
    destruct ((n <? 0)%Z || (4294967295 <? n)%Z); [discriminate Hi|].
    injection Hi as <-. rewrite generateFreeAccounts in H.
    injection H as <- _. rewrite length_map, !length_seq. reflexivity.
  - apply ret_inr in H. destruct H as [-> _]. apply length_map.
Qed.

(** *** What a run leaves as it was *)

(** The fields of the preset that [generateRandomConfiguration] reads and
    does not write. *)
Definition presetInputs (p : ConfigPreset.t) :=
  (ConfigPreset.networkType p, ConfigPreset.preset p, ConfigPreset.sinkAddress p,
   ConfigPreset.nodes p, ConfigPreset.privateKeySecurityMode p,
   ConfigPreset.nemesisSeedFolder p, ConfigPreset.maxHarvesterBalance p,
   ConfigPreset.nodeUseRemoteAccount p).

(** The fields of the addresses that are final after the node phase. *)
Definition addressesHeader (a : Addresses.t) :=
  (Addresses.version a, Addresses.networkType a,
   Addresses.nemesisGenerationHashSeed a, Addresses.nodes a).

Lemma getDefaultSyncAddress_header :
  forall networkType a w r w',
    getDefaultSyncAddress networkType a w = inr (r, w') ->
    addressesHeader (snd r) = addressesHeader a.
Proof.
  intros nt a w r w' H. unfold getDefaultSyncAddress in H.
  destruct (Addresses.sinkAddress a) as [s|]; [destruct (truthy (Some s))|].
  1: apply ret_inr in H; destruct H as [-> _]; reflexivity.
  all: apply bind_inr in H; destruct H as (account & w1 & _ & H);
    apply ret_inr in H; destruct H as [-> _]; reflexivity.
Qed.

Lemma defaultSinkAddress_inputs :
  forall networkType get set c w c' w',
    (forall s p, presetInputs (set s p) = presetInputs p) ->
    defaultSinkAddress networkType get set c w = inr (c', w') ->
    presetInputs (snd c') = presetInputs (snd c)
    /\ addressesHeader (fst c') = addressesHeader (fst c).
Proof.
  intros nt get set c w c' w' Hset H. unfold defaultSinkAddress in H.
  destruct (truthy (get (snd c))).
  - apply ret_inr in H. destruct H as [-> _]. split; reflexivity.
  - apply bind_inr in H. destruct H as (r & w1 & Hr & H).
    apply ret_inr in H. destruct H as [-> _]. cbn [fst snd]. split.
    + apply Hset.
    + apply (getDefaultSyncAddress_header _ _ _ _ _ Hr).
Qed.

Lemma fillSinkAddresses_inputs :
  forall networkType c w c' w',
    fillSinkAddresses networkType c w = inr (c', w') ->
    presetInputs (snd c') = presetInputs (snd c)
    /\ addressesHeader (fst c') = addressesHeader (fst c).
Proof.
  intros nt c w c' w' H. unfold fillSinkAddresses in H.
  apply bind_inr in H. destruct H as (c1 & w1 & H1 & H).
  apply bind_inr in H. destruct H as (c2 & w2 & H2 & H).
  apply defaultSinkAddress_inputs in H1; [|reflexivity].
  apply defaultSinkAddress_inputs in H2; [|reflexivity].
  apply defaultSinkAddress_inputs in H; [|reflexivity].
  destruct H1, H2, H. split; congruence.
Qed.

Lemma stamped_inputs :
  forall identifier name a p,
    presetInputs (stamped identifier name a p) = presetInputs p.
Proof.
  intros identifier name a p. unfold stamped. cbv zeta.
  destruct (truthy _); reflexivity.
Qed.

Lemma resolveNemesisSigner_inputs :
  forall networkType mode oldAddresses c w c' w',
    resolveNemesisSigner networkType mode oldAddresses c w = inr (c', w') ->
    presetInputs (snd c') = presetInputs (snd c)
    /\ addressesHeader (fst c') = addressesHeader (fst c).
Proof.
  intros nt mode old c w c' w' H. unfold resolveNemesisSigner in H.
  destruct (ConfigPreset.nemesis (snd c)).
  - apply bind_inr in H. destruct H as (signer & w1 & _ & H).
    cbv zeta in H. apply ret_inr in H. destruct H as [-> _].
    split; reflexivity.
  - apply ret_inr in H. destruct H as [-> _]. split; reflexivity.
Qed.

(** What [resolveMosaicIds] returns and what it keeps. *)
Lemma resolveMosaicIds_inr :
  forall networkType p ids,
    resolveMosaicIds networkType p = inr ids ->
    presetInputs (snd ids) = presetInputs p
    /\ ConfigPreset.nemesis (snd ids) = ConfigPreset.nemesis p
    /\ ConfigPreset.nemesisGenerationHashSeed (snd ids)
       = ConfigPreset.nemesisGenerationHashSeed p
    /\ exists signerPublicKey,
         ConfigPreset.nemesisSignerPublicKey p = Some signerPublicKey
         /\ ConfigPreset.nemesisSignerPublicKey (snd ids) = Some signerPublicKey
         /\ fst ids = addressOf networkType signerPublicKey.
Proof.
  intros nt p ids H. unfold resolveMosaicIds in H.
  destruct p as [networkType preset seed sink nodes harvestSink mosaicSink
                 namespaceSink identifier name securityMode nemesis seedFolder
                 signerPublicKey currency harvesting maxHarvester useRemote].
  cbn [ConfigPreset.nemesisSignerPublicKey] in H.
  destruct signerPublicKey as [pk|]; [|discriminate].
  cbv zeta in H. unfold ok in H. cbn [ConfigPreset.currencyMosaicId] in H.
  destruct (truthy currency);
    cbn [ConfigPreset.harvestingMosaicId ConfigPreset.withCurrencyMosaicId] in H;
    (destruct (truthy harvesting);
     [ cbv iota in H; injection H as <-
     | cbn [ConfigPreset.nemesis ConfigPreset.withCurrencyMosaicId] in H;
       destruct nemesis as [nemesis|]; [|discriminate];
       destruct (match NemesisPreset.mosaics nemesis with
                 | Some ms => (1 <? List.length ms)%nat
                 | None => false
                 end);
       cbv iota in H; injection H as <- ]);
    (repeat split; exists pk; repeat split).
Qed.

Lemma resolveNemesisMosaics_inputs :
  forall networkType mode signerAddress oldAddresses oldPresetData c w c' w',
    resolveNemesisMosaics networkType mode signerAddress oldAddresses
      oldPresetData c w = inr (c', w') ->
    presetInputs (snd c') = presetInputs (snd c)
    /\ addressesHeader (fst c') = addressesHeader (fst c)
    /\ ConfigPreset.nemesisGenerationHashSeed (snd c')
       = ConfigPreset.nemesisGenerationHashSeed (snd c)
    /\ ConfigPreset.nemesisSignerPublicKey (snd c')
       = ConfigPreset.nemesisSignerPublicKey (snd c).
Proof.
  intros nt mode addr old oldPreset c w c' w' H.
  unfold resolveNemesisMosaics in H.
  destruct old as [old|].
  - destruct oldPreset; [|discriminate].
    apply ret_inr in H. destruct H as [-> _]. repeat split.
  - destruct (ConfigPreset.nemesis (snd c)) as [nemesis|].
    + destruct (NemesisPreset.mosaics nemesis).
      * apply bind_inr in H. destruct H as (processed & w1 & _ & H).
        apply ret_inr in H. destruct H as [-> _]. repeat split.
      * apply ret_inr in H. destruct H as [-> _]. repeat split.
    + apply ret_inr in H. destruct H as [-> _]. repeat split.
Qed.

(** A run that returns: the phases, with what the later ones keep. *)
Lemma generateRandomConfiguration_frames :
  forall root oldAddresses oldPresetData presetData w addresses presetData' w',
    generateRandomConfiguration root oldAddresses oldPresetData presetData w
      = inr ((addresses, presetData'), w') ->
    presetInputs presetData' = presetInputs presetData
    /\ exists networkType a0 w0 a1 w1,
         ConfigPreset.networkType presetData = Some networkType
         /\ initialAddresses networkType oldAddresses presetData w = inr (a0, w0)
         /\ nodePhase networkType oldAddresses presetData a0 w0 = inr (a1, w1)
         /\ addressesHeader addresses = addressesHeader a1
         /\ ConfigPreset.nemesisGenerationHashSeed presetData'
            = if truthy (ConfigPreset.nemesisGenerationHashSeed presetData)
              then ConfigPreset.nemesisGenerationHashSeed presetData
              else Some (Addresses.nemesisGenerationHashSeed a1).
Proof.
  intros root old oldPreset presetData w addresses presetData' w' H.
  apply generateRandomConfiguration_phases in H.
  destruct H as (nt & a0 & w0 & a1 & w1 & c2 & w2 & identifier & name & mode
                 & c3 & w3 & ids & Hnt & Hinit & Hnodes & Hfill & _ & _ & _
                 & Hsigner & Hids & Hlast).
  pose proof (fillSinkAddresses_inputs _ _ _ _ _ Hfill) as [Hp2 Ha2].
  cbn [fst snd] in Hp2, Ha2.
  set (p := stamped identifier name (fst c2) (snd c2)) in *.
  assert (Hp : presetInputs p = presetInputs presetData).
  { subst p. rewrite stamped_inputs. exact Hp2. }
  assert (Hseed2 : ConfigPreset.nemesisGenerationHashSeed (snd c2)
                   = ConfigPreset.nemesisGenerationHashSeed presetData).
  { clear - Hfill. unfold fillSinkAddresses, defaultSinkAddress in Hfill.
    apply bind_inr in Hfill. destruct Hfill as (c1 & w1' & H1 & H).
    apply bind_inr in H. destruct H as (c2' & w2' & H2 & H).
    assert (Hstep : forall get set (c c' : Config) wa wb,
               (forall s q, ConfigPreset.nemesisGenerationHashSeed (set s q)
                            = ConfigPreset.nemesisGenerationHashSeed q) ->
               (if truthy (get (snd c)) then ret c
                else (r <- getDefaultSyncAddress nt (fst c) ;;
                      ret (snd r, set (fst r) (snd c)))%m) wa = inr (c', wb) ->
               ConfigPreset.nemesisGenerationHashSeed (snd c')
               = ConfigPreset.nemesisGenerationHashSeed (snd c)).
    { intros get set c c' wa wb Hset Hrun.
      destruct (truthy (get (snd c))).
      - apply ret_inr in Hrun. destruct Hrun as [-> _]. reflexivity.
      - apply bind_inr in Hrun. destruct Hrun as (r & wr & _ & Hrun).
        apply ret_inr in Hrun. destruct Hrun as [-> _]. apply Hset. }
    apply Hstep in H1; [|reflexivity]. apply Hstep in H2; [|reflexivity].
    apply Hstep in H; [|reflexivity]. cbn [snd] in H1. congruence. }
  assert (Hseed : ConfigPreset.nemesisGenerationHashSeed p
                  = if truthy (ConfigPreset.nemesisGenerationHashSeed presetData)
                    then ConfigPreset.nemesisGenerationHashSeed presetData
                    else Some (Addresses.nemesisGenerationHashSeed a1)).
  { subst p. unfold stamped. cbv zeta.
    change (ConfigPreset.nemesisGenerationHashSeed
              (ConfigPreset.withNetwork identifier name (snd c2)))
      with (ConfigPreset.nemesisGenerationHashSeed (snd c2)).
    rewrite Hseed2.
    destruct (truthy (ConfigPreset.nemesisGenerationHashSeed presetData)).
    - exact Hseed2.
    - cbn [ConfigPreset.nemesisGenerationHashSeed
           ConfigPreset.withNemesisGenerationHashSeed].
      unfold addressesHeader in Ha2. congruence. }
  assert (H3 : presetInputs (snd c3) = presetInputs p
               /\ addressesHeader (fst c3) = addressesHeader (fst c2)
               /\ ConfigPreset.nemesisGenerationHashSeed (snd c3)
                  = ConfigPreset.nemesisGenerationHashSeed p).
  { destruct (shouldCreateNemesis root p).
    - pose proof (resolveNemesisSigner_inputs _ _ _ _ _ _ _ Hsigner) as [Hx Hy].
      repeat split; try assumption.
      clear - Hsigner. unfold resolveNemesisSigner in Hsigner. cbn [snd fst] in Hsigner.
      destruct (ConfigPreset.nemesis p).
      + apply bind_inr in Hsigner. destruct Hsigner as (signer & wx & _ & H).
        cbv zeta in H. apply ret_inr in H. destruct H as [-> _]. reflexivity.
      + apply ret_inr in Hsigner. destruct Hsigner as [-> _]. reflexivity.
    - apply ret_inr in Hsigner. destruct Hsigner as [-> _].
      repeat split. }
  destruct H3 as (Hp3 & Ha3 & Hs3).
  pose proof (resolveMosaicIds_inr _ _ _ Hids) as (Hp4 & _ & Hs4 & _).
  assert (H5 : presetInputs presetData' = presetInputs (snd ids)
               /\ addressesHeader addresses = addressesHeader (fst c3)
               /\ ConfigPreset.nemesisGenerationHashSeed presetData'
                  = ConfigPreset.nemesisGenerationHashSeed (snd ids)).
  { destruct (shouldCreateNemesis root p).
    - pose proof (resolveNemesisMosaics_inputs _ _ _ _ _ _ _ _ _ Hlast)
        as (Hx & Hy & Hz & _).
      cbn [fst snd] in Hx, Hy, Hz. repeat split; assumption.
    - apply ret_inr in Hlast. destruct Hlast as [Hlast _].
      injection Hlast as -> ->. repeat split. }
  destruct H5 as (Hp5 & Ha5 & Hs5).
  split; [congruence|].
  exists nt, a0, w0, a1, w1. repeat split; try assumption; congruence.
Qed.


Lemma initialAddresses_inr :
  forall networkType oldAddresses presetData w a w',
    initialAddresses networkType oldAddresses presetData w = inr (a, w') ->
    Addresses.version a = 2
    /\ Addresses.networkType a = networkType
    /\ Addresses.nodes a = None
    /\ Addresses.nemesisGenerationHashSeed a
       = let stored :=
           orElse (ConfigPreset.nemesisGenerationHashSeed presetData)
             (oldField oldAddresses
                (fun old => Some (Addresses.nemesisGenerationHashSeed old))) in
         match stored with
         | Some s => if truthy stored then s else randomSeed (List.length w)
         | None => randomSeed (List.length w)
         end.
Proof.
  intros nt old presetData w a w' H. unfold initialAddresses in H.
  cbv zeta in H |- *. apply bind_inr in H. destruct H as (seed & w1 & Hseed & H).
  apply ret_inr in H. destruct H as [-> _].
  cbn [Addresses.version Addresses.networkType Addresses.nodes
       Addresses.nemesisGenerationHashSeed].
  repeat split.
  destruct (orElse _ _) as [s|] eqn:Hs.
  - destruct (truthy (Some s)).
    + apply ret_inr in Hseed. destruct Hseed as [-> _]. reflexivity.
    + unfold randomBytesHex in Hseed. injection Hseed as <- _. reflexivity.
  - unfold randomBytesHex in Hseed. injection Hseed as <- _. reflexivity.
Qed.

Lemma nodePhase_inr :
  forall networkType oldAddresses presetData a w a' w',
    nodePhase networkType oldAddresses presetData a w = inr (a', w') ->
    Addresses.version a' = Addresses.version a
    /\ Addresses.networkType a' = Addresses.networkType a
    /\ Addresses.nemesisGenerationHashSeed a'
       = Addresses.nemesisGenerationHashSeed a
    /\ match ConfigPreset.nodes presetData with
       | Some nodes =>
           exists accounts w1,
             generateNodeAccounts oldAddresses presetData nodes networkType w
             = inr (accounts, w1)
             /\ Addresses.nodes a' = Some accounts
       | None => Addresses.nodes a' = Addresses.nodes a
       end.
Proof.
  intros nt old presetData a w a' w' H. unfold nodePhase in H.
  destruct (ConfigPreset.nodes presetData) as [nodes|].
  - apply bind_inr in H. destruct H as (accounts & w1 & Ha & H).
    apply ret_inr in H. destruct H as [-> _]. repeat split.
    exists accounts, w1. split; [exact Ha | reflexivity].
  - apply ret_inr in H. destruct H as [-> _]. repeat split.
Qed.

(** X5. In a run that returns, the preset keeps its nodes, and
    [addresses.nodes] is their image: undefined when the preset has no
    nodes, else one entry per node, in order, that has a main account and
    carries the name and the roles resolved from the node at its index.
    This is what [getBalance] relies on when it reads
    [presetData.nodes[nodeIndex]] at the index of an entry of
    [addresses.nodes]. *)
Theorem node_accounts_follow_preset_nodes :
  forall root oldAddresses oldPresetData presetData w addresses presetData' w',
    generateRandomConfiguration root oldAddresses oldPresetData presetData w
      = inr ((addresses, presetData'), w') ->
    ConfigPreset.nodes presetData' = ConfigPreset.nodes presetData
    /\ match ConfigPreset.nodes presetData with
       | Some nodes =>
           exists accounts,
             Addresses.nodes addresses = Some accounts
             /\ List.length accounts = List.length nodes
             /\ forall i nodePreset node,
                  nth_error nodes i = Some nodePreset ->
                  nth_error accounts i = Some node ->
                  defined (NodeAccount.main node) = true
                  /\ NodeAccount.name node
                     = orDefault (NodePreset.name nodePreset)
                         ("node-" ++ showNat i)%string
                  /\ NodeAccount.roles node = resolveRoles nodePreset
       | None => Addresses.nodes addresses = None
       end.
Proof.
  intros root old oldPreset presetData w addresses presetData' w' H.
  apply generateRandomConfiguration_frames in H.
  destruct H as (Hp & nt & a0 & w0 & a1 & w1 & _ & Hinit & Hnodes & Ha & _).
  split; [unfold presetInputs in Hp; congruence|].
  assert (Hn : Addresses.nodes addresses = Addresses.nodes a1)
    by (unfold addressesHeader in Ha; congruence).
  apply initialAddresses_inr in Hinit. destruct Hinit as (_ & _ & Hnone & _).
  apply nodePhase_inr in Hnodes. destruct Hnodes as (_ & _ & _ & Hnodes).
  destruct (ConfigPreset.nodes presetData) as [nodes|]; [|congruence].
  destruct Hnodes as (accounts & w2 & Hgen & Hacc).
  exists accounts. split; [congruence|].
  unfold generateNodeAccounts in Hgen. apply mapM_Forall2 in Hgen.
  split.
  - rewrite <- (Forall2_length Hgen). apply indexed_length.
  - intros i nodePreset node Hi Hnode.
    pose proof (Forall2_at _ _ _ Hgen i _ _ (indexed_nth _ _ _ Hi) Hnode)
      as (s0 & s1 & Hrun).
    cbn [fst snd] in Hrun. apply generateNodeAccount_shape in Hrun.
    destruct Hrun as (_ & _ & _ & _ & Hname & Hroles & main & Hmain & _).
    rewrite Hmain. repeat split; assumption.
Qed.

(** X6. The generation hash seed of a run that returns. The addresses
    carry the seed of the preset when it has one, else the seed of the old
    addresses when there is one, else the 32 random bytes drawn first in the
    run; the preset that had none gets the seed of the addresses. The
    addresses are of version 2 and of the network type of the preset. *)
Theorem generation_hash_seed_is_kept :
  forall root oldAddresses oldPresetData presetData w addresses presetData' w',
    generateRandomConfiguration root oldAddresses oldPresetData presetData w
      = inr ((addresses, presetData'), w') ->
    Addresses.version addresses = 2
    /\ ConfigPreset.networkType presetData
       = Some (Addresses.networkType addresses)
    /\ Addresses.nemesisGenerationHashSeed addresses
       = (let stored :=
            orElse (ConfigPreset.nemesisGenerationHashSeed presetData)
              (oldField oldAddresses
                 (fun old => Some (Addresses.nemesisGenerationHashSeed old))) in
          match stored with
          | Some s => if truthy stored then s else randomSeed (List.length w)
          | None => randomSeed (List.length w)
          end)
    /\ ConfigPreset.nemesisGenerationHashSeed presetData'
       = if truthy (ConfigPreset.nemesisGenerationHashSeed presetData)
         then ConfigPreset.nemesisGenerationHashSeed presetData
         else Some (Addresses.nemesisGenerationHashSeed addresses).
Proof.
  intros root old oldPreset presetData w addresses presetData' w' H.
  apply generateRandomConfiguration_frames in H.
  destruct H as (_ & nt & a0 & w0 & a1 & w1 & Hnt & Hinit & Hnodes & Ha & Hseed).
  apply initialAddresses_inr in Hinit.
  destruct Hinit as (Hv0 & Hnt0 & _ & Hs0).
  apply nodePhase_inr in Hnodes. destruct Hnodes as (Hv1 & Hnt1 & Hs1 & _).
  unfold addressesHeader in Ha. injection Ha as Hv Hn Hs _.
  repeat split; try congruence.
  rewrite Hs. exact Hseed.
Qed.

(** *** The test [shouldCreateNemesis] after the run *)

(** X7. On a fresh run, and on any run that does not create the nemesis,
    the preset that [generateRandomConfiguration] leaves answers
    [shouldCreateNemesis] as the preset it was given: the test that
    [ConfigService.resolveNemesis] makes afterwards on the same object agrees
    with the one made in the run. *)
Theorem shouldCreateNemesis_after_run :
  forall root oldAddresses oldPresetData presetData w addresses presetData' w',
    oldAddresses = None \/ shouldCreateNemesis root presetData = false ->
    generateRandomConfiguration root oldAddresses oldPresetData presetData w
      = inr ((addresses, presetData'), w') ->
    shouldCreateNemesis root presetData'
    = shouldCreateNemesis root presetData.
Proof.
  intros root old oldPreset presetData w addresses presetData' w' Hcase H.
  pose proof (generateRandomConfiguration_frames _ _ _ _ _ _ _ _ H)
    as (Hp & _).
  apply generateRandomConfiguration_phases in H.
  destruct H as (nt & a0 & w0 & a1 & w1 & c2 & w2 & identifier & name & mode
                 & c3 & w3 & ids & _ & _ & _ & Hfill & _ & _ & _
                 & Hsigner & Hids & Hlast).
  rewrite (shouldCreateNemesis_at_test _ _ _ _ _ _ _ identifier name Hfill)
    in Hsigner, Hlast.
  pose proof (fillSinkAddresses_nemesisView _ _ _ _ _ Hfill) as Hview.
  pose proof (stamped_nemesisView identifier name (fst c2) (snd c2)) as Hview'.
  set (p := stamped identifier name (fst c2) (snd c2)) in *.
  assert (Hn : ConfigPreset.nemesis p = ConfigPreset.nemesis presetData).
  { unfold nemesisView in Hview, Hview'. cbn [snd] in Hview. congruence. }
  pose proof (resolveMosaicIds_inr _ _ _ Hids) as (_ & Hn4 & _).
  assert (Hdef : defined (ConfigPreset.nemesis presetData')
                 = defined (ConfigPreset.nemesis presetData)).
  { destruct (shouldCreateNemesis root presetData) eqn:Hcreate.
    - destruct Hcase as [-> | Hfalse]; [|discriminate Hfalse].
      unfold shouldCreateNemesis in Hcreate.
      destruct (ConfigPreset.nemesis presetData) as [nemesis|];
        [|discriminate Hcreate].
      unfold resolveNemesisSigner in Hsigner. cbn [fst snd] in Hsigner.
      rewrite Hn in Hsigner.
      apply bind_inr in Hsigner. destruct Hsigner as (signer & wx & _ & Hsigner).
      cbv zeta in Hsigner. apply ret_inr in Hsigner. destruct Hsigner as [-> _].
      cbn [snd fst] in Hn4, Hlast.
      unfold resolveNemesisMosaics in Hlast. cbn [fst snd] in Hlast.
      rewrite Hn4 in Hlast.
      cbn [ConfigPreset.nemesis ConfigPreset.withNemesis
           NemesisPreset.mosaics NemesisPreset.withNemesisSignerPrivateKey]
        in Hlast.
      destruct (NemesisPreset.mosaics nemesis).
      + apply bind_inr in Hlast. destruct Hlast as (processed & wy & _ & Hlast).
        apply ret_inr in Hlast. destruct Hlast as [Hlast _].
        injection Hlast as _ ->. reflexivity.
      + apply ret_inr in Hlast. destruct Hlast as [Hlast _].
        injection Hlast as _ ->. rewrite Hn4. reflexivity.
    - apply ret_inr in Hsigner. destruct Hsigner as [-> _].
      apply ret_inr in Hlast. destruct Hlast as [Hlast _].
      injection Hlast as _ ->. cbn [snd] in Hn4. congruence. }
  unfold presetInputs in Hp. injection Hp as _ Hpreset _ _ _ Hfolder _ _.
  unfold shouldCreateNemesis. rewrite Hpreset, Hfolder.
  destruct (ConfigPreset.nemesis presetData');
    destruct (ConfigPreset.nemesis presetData);
    try reflexivity; discriminate Hdef.
Qed.

(** An upgrade that would create the nemesis needs the old preset:
    with old addresses and no old preset the run throws, whatever the
    preset. *)
Theorem upgrade_needs_old_preset :
  forall root old presetData w,
    shouldCreateNemesis root presetData = true ->
    exists e,
      generateRandomConfiguration root (Some old) None presetData w = inl e.
Proof.
  intros root old presetData w Hcreate.
  destruct (generateRandomConfiguration root (Some old) None presetData w)
    as [e|[[addresses presetData'] w']] eqn:H; [exists e; reflexivity|].
  apply generateRandomConfiguration_phases in H.
  destruct H as (nt & a0 & w0 & a1 & w1 & c2 & w2 & identifier & name & mode
                 & c3 & w3 & ids & _ & _ & _ & Hfill & _ & _ & _ & _ & _ & H).
  rewrite (shouldCreateNemesis_at_test _ _ _ _ _ _ _ _ _ Hfill), Hcreate in H.
  discriminate H.
Qed.

(** *** The two mosaic ids *)

(** X8. The mosaic ids that [resolveMosaicIds] fills in, for a preset
    with a nemesis signer public key and no harvesting mosaic id. With a
    nemesis, the currency id is the preset's own or the id of nonce 0, and
    the harvesting id is the id of nonce 1 when the nemesis has more than
    one mosaic, else the currency id: the mosaic at the index that
    [maxHarvesterBalance] caps. Without a nemesis it is an [Error]. *)
Theorem resolveMosaicIds_defaults :
  forall networkType presetData signerPublicKey,
    ConfigPreset.nemesisSignerPublicKey presetData = Some signerPublicKey ->
    truthy (ConfigPreset.harvestingMosaicId presetData) = false ->
    let signerAddress := addressOf networkType signerPublicKey in
    let currency :=
      if truthy (ConfigPreset.currencyMosaicId presetData)
      then ConfigPreset.currencyMosaicId presetData
      else Some (mosaicIdOf 0 signerAddress) in
    match ConfigPreset.nemesis presetData with
    | Some nemesis =>
        let mosaicsLength :=
          match NemesisPreset.mosaics nemesis with
          | Some ms => List.length ms
          | None => 0
          end in
        exists presetData',
          resolveMosaicIds networkType presetData
          = inr (signerAddress, presetData')
          /\ ConfigPreset.currencyMosaicId presetData' = currency
          /\ ConfigPreset.harvestingMosaicId presetData'
             = (if (harvestingMosaicIndex mosaicsLength =? 1)%nat
                then Some (mosaicIdOf 1 signerAddress)
                else currency)
    | None =>
        resolveMosaicIds networkType presetData
        = inl (Error "nemesis must be defined!")
    end.
Proof.
  intros nt p pk Hpk Hh addr currency.
  unfold resolveMosaicIds. rewrite Hpk. cbv zeta. fold addr.
  destruct p as [networkType preset seed sink nodes harvestSink mosaicSink
                 namespaceSink identifier name securityMode nemesis seedFolder
                 signerPublicKey currencyId harvesting maxHarvester useRemote].
  cbn [ConfigPreset.harvestingMosaicId ConfigPreset.currencyMosaicId
       ConfigPreset.nemesis] in *.
  subst currency.
  destruct (truthy currencyId);
    cbn [ConfigPreset.harvestingMosaicId ConfigPreset.withCurrencyMosaicId
         ConfigPreset.nemesis ConfigPreset.currencyMosaicId];
    rewrite Hh;
    (destruct nemesis as [nemesis|]; [|reflexivity]);
    unfold harvestingMosaicIndex;
    destruct (NemesisPreset.mosaics nemesis) as [ms|];
    try destruct (1 <? List.length ms)%nat;
    eexists; (split; [reflexivity|]); split; reflexivity.
Qed.


(** *** The mosaics of a fresh run *)

Lemma distributeMosaic_keeps :
  forall presetData nodes mosaicsLength mosaicIndex accounts m m',
    distributeMosaic presetData nodes mosaicsLength mosaicIndex accounts m
      = inr m' ->
    MosaicPreset.name m' = MosaicPreset.name m
    /\ MosaicPreset.supply m' = MosaicPreset.supply m
    /\ MosaicPreset.accounts m' = MosaicPreset.accounts m.
Proof.
  intros presetData nodes len idx accounts m m' H.
  apply distributeMosaic_inr in H. destruct H as (ds & _ & _ & _ & ->).
  repeat split.
Qed.

Lemma processMosaic_inr :
  forall networkType mode presetData nodes mosaicsLength signerAddress entry w
         r w',
    processMosaic networkType mode presetData nodes mosaicsLength signerAddress
      entry w = inr (r, w') ->
    MosaicAccounts.id (fst r) = mosaicIdOf (fst entry) signerAddress
    /\ MosaicAccounts.name (fst r) = MosaicPreset.name (snd entry)
    /\ List.length (MosaicAccounts.accounts (fst r))
       = accountsAsked (accountsOrOne (MosaicPreset.accounts (snd entry)))
    /\ distributeMosaic presetData nodes mosaicsLength (fst entry)
         (MosaicAccounts.accounts (fst r)) (snd entry) = inr (snd r).
Proof.
  intros nt mode presetData nodes len addr entry w r w' H.
  unfold processMosaic in H. cbv zeta in H.
  apply bind_inr in H. destruct H as (accounts & w1 & Ha & H).
  apply bind_inr in H. destruct H as (m' & w2 & Hm & H).
  apply liftRes_inr in Hm. destruct Hm as [Hm ->].
  apply ret_inr in H. destruct H as [-> _]. cbn [fst snd MosaicAccounts.id
    MosaicAccounts.name MosaicAccounts.accounts].
  repeat split; [|exact Hm].
  apply (generateAddresses_length _ _ _ _ _ _ Ha).
Qed.

(** A fresh run that creates the nemesis: the turns of the [forEach] over
    the mosaics of the preset. *)
Lemma fresh_run_processed :
  forall root oldPresetData presetData w addresses presetData' w' nemesis ms,
    shouldCreateNemesis root presetData = true ->
    generateRandomConfiguration root None oldPresetData presetData w
      = inr ((addresses, presetData'), w') ->
    ConfigPreset.nemesis presetData = Some nemesis ->
    NemesisPreset.mosaics nemesis = Some ms ->
    exists networkType signerPublicKey signerPrivateKey processed,
      ConfigPreset.networkType presetData = Some networkType
      /\ ConfigPreset.nemesisSignerPublicKey presetData' = Some signerPublicKey
      /\ Addresses.mosaics addresses = Some (map fst processed)
      /\ ConfigPreset.nemesis presetData'
         = Some (NemesisPreset.mk (Some (map snd processed))
                   (Some signerPrivateKey))
      /\ Forall2
           (fun entry r =>
              exists mode p nodes s0 s1,
                processMosaic networkType mode p nodes (List.length ms)
                  (addressOf networkType signerPublicKey) entry s0
                = inr (r, s1))
           (indexed ms) processed.
Proof.
  intros root oldPreset presetData w addresses presetData' w' nemesis ms
    Hcreate H Hnemesis Hms.
  apply generateRandomConfiguration_phases in H.
  destruct H as (nt & a0 & w0 & a1 & w1 & c2 & w2 & identifier & name & mode
                 & c3 & w3 & ids & Hnt & _ & _ & Hfill & _ & _ & _
                 & Hsigner & Hids & Hlast).
  rewrite (shouldCreateNemesis_at_test _ _ _ _ _ _ _ identifier name Hfill),
    Hcreate in Hsigner, Hlast.
  pose proof (fillSinkAddresses_nemesisView _ _ _ _ _ Hfill) as Hview.
  pose proof (stamped_nemesisView identifier name (fst c2) (snd c2)) as Hview'.
  set (p := stamped identifier name (fst c2) (snd c2)) in *.
  assert (Hn : ConfigPreset.nemesis p = Some nemesis).
  { unfold nemesisView in Hview, Hview'. cbn [snd] in Hview. congruence. }
  unfold resolveNemesisSigner in Hsigner. cbn [fst snd] in Hsigner.
  rewrite Hn in Hsigner.
  apply bind_inr in Hsigner. destruct Hsigner as (signer & wx & _ & Hsigner).
  cbv zeta in Hsigner. apply ret_inr in Hsigner. destruct Hsigner as [-> _].
  pose proof (resolveMosaicIds_inr _ _ _ Hids)
    as (_ & Hn4 & _ & pk & _ & Hpk & Haddr).
  cbn [snd fst] in Hn4, Hlast.
  unfold resolveNemesisMosaics in Hlast. cbn [fst snd] in Hlast.
  rewrite Hn4 in Hlast.
  cbn [ConfigPreset.nemesis ConfigPreset.withNemesis
       NemesisPreset.mosaics NemesisPreset.withNemesisSignerPrivateKey]
    in Hlast.
  rewrite Hms in Hlast.
  apply bind_inr in Hlast. destruct Hlast as (processed & wy & Hp & Hlast).
  apply ret_inr in Hlast. destruct Hlast as [Hlast _].
  injection Hlast as -> ->.
  exists nt, pk,
    (fst (resolvePrivateKey nt signer NemesisSigner)), processed.
  split; [exact Hnt|]. split; [exact Hpk|]. split; [reflexivity|].
  split; [reflexivity|].
  apply mapM_Forall2 in Hp. rewrite Haddr in Hp.
  eapply Forall2_impl; [|exact Hp].
  intros entry r (s0 & s1 & Hrun). cbv beta.
  do 5 eexists. exact Hrun.
Qed.

Lemma nth_error_map_inv :
  forall {A B} (f : A -> B) l i y,
    nth_error (map f l) i = Some y ->
    exists x, nth_error l i = Some x /\ f x = y.
Proof.
  intros A B f l i y H. rewrite nth_error_map in H.
  destruct (nth_error l i) as [x|]; [|discriminate H].
  injection H as <-. exists x. split; reflexivity.
Qed.

(** X9. On a fresh run that creates the nemesis, [addresses.mosaics] has
    one entry per mosaic of the preset, in order. The entry at an index
    carries the name of the mosaic, the id of the mosaic of that nonce and
    the address of the nemesis signer, and as many free accounts as the
    mosaic asks for, one when it asks for none. *)
Theorem fresh_run_mosaic_accounts :
  forall root oldPresetData presetData w addresses presetData' w' nemesis ms,
    shouldCreateNemesis root presetData = true ->
    generateRandomConfiguration root None oldPresetData presetData w
      = inr ((addresses, presetData'), w') ->
    ConfigPreset.nemesis presetData = Some nemesis ->
    NemesisPreset.mosaics nemesis = Some ms ->
    exists networkType signerPublicKey mosaicAccounts,
      ConfigPreset.networkType presetData = Some networkType
      /\ ConfigPreset.nemesisSignerPublicKey presetData' = Some signerPublicKey
      /\ Addresses.mosaics addresses = Some mosaicAccounts
      /\ List.length mosaicAccounts = List.length ms
      /\ forall i m entry,
           nth_error ms i = Some m ->
           nth_error mosaicAccounts i = Some entry ->
           MosaicAccounts.id entry
           = mosaicIdOf i (addressOf networkType signerPublicKey)
           /\ MosaicAccounts.name entry = MosaicPreset.name m
           /\ List.length (MosaicAccounts.accounts entry)
              = accountsAsked (accountsOrOne (MosaicPreset.accounts m)).
Proof.
  intros root oldPreset presetData w addresses presetData' w' nemesis ms
    Hcreate H Hnemesis Hms.
  destruct (fresh_run_processed _ _ _ _ _ _ _ _ _ Hcreate H Hnemesis Hms)
    as (nt & pk & k & processed & Hnt & Hpk & Ha & _ & Hall).
  exists nt, pk, (map fst processed).
  split; [exact Hnt|]. split; [exact Hpk|]. split; [exact Ha|].
  split.
  - rewrite length_map, <- (Forall2_length Hall). apply indexed_length.
  - intros i m entry Hi He.
    apply nth_error_map_inv in He. destruct He as (r & Hr & <-).
    pose proof (Forall2_at _ _ _ Hall i _ _ (indexed_nth _ _ _ Hi) Hr)
      as (mode & p & nodes & s0 & s1 & Hrun).
    apply processMosaic_inr in Hrun. cbn [fst snd] in Hrun.
    destruct Hrun as (Hid & Hname & Hlen & _). repeat split; assumption.
Qed.

(** X10. On a fresh run that creates the nemesis, the mosaics of the
    final preset are the mosaics of the preset in order, each with its name,
    its supply and its accounts as declared, and with a list of
    [currencyDistributions] that sums to the declared supply, the sum being
    the one the source computes. *)
Theorem fresh_run_keeps_mosaic_declarations :
  forall root oldPresetData presetData w addresses presetData' w' nemesis ms,
    shouldCreateNemesis root presetData = true ->
    generateRandomConfiguration root None oldPresetData presetData w
      = inr ((addresses, presetData'), w') ->
    ConfigPreset.nemesis presetData = Some nemesis ->
    NemesisPreset.mosaics nemesis = Some ms ->
    exists nemesis' ms',
      ConfigPreset.nemesis presetData' = Some nemesis'
      /\ NemesisPreset.mosaics nemesis' = Some ms'
      /\ List.length ms' = List.length ms
      /\ forall i m m',
           nth_error ms i = Some m ->
           nth_error ms' i = Some m' ->
           MosaicPreset.name m' = MosaicPreset.name m
           /\ MosaicPreset.supply m' = MosaicPreset.supply m
           /\ MosaicPreset.accounts m' = MosaicPreset.accounts m
           /\ exists distributions,
                MosaicPreset.currencyDistributions m' = Some distributions
                /\ total distributions = MosaicPreset.supply m.
Proof.
  intros root oldPreset presetData w addresses presetData' w' nemesis ms
    Hcreate H Hnemesis Hms.
  destruct (fresh_run_processed _ _ _ _ _ _ _ _ _ Hcreate H Hnemesis Hms)
    as (nt & pk & k & processed & _ & _ & _ & Hn & Hall).
  exists (NemesisPreset.mk (Some (map snd processed)) (Some k)),
    (map snd processed).
  split; [exact Hn|]. split; [reflexivity|]. split.
  - rewrite length_map, <- (Forall2_length Hall). apply indexed_length.
  - intros i m m' Hi Hm'.
    apply nth_error_map_inv in Hm'. destruct Hm' as (r & Hr & <-).
    pose proof (Forall2_at _ _ _ Hall i _ _ (indexed_nth _ _ _ Hi) Hr)
      as (mode & p & nodes & s0 & s1 & Hrun).
    apply processMosaic_inr in Hrun. cbn [fst snd] in Hrun.
    destruct Hrun as (_ & _ & _ & Hd).
    pose proof (distributeMosaic_keeps _ _ _ _ _ _ _ Hd) as (Hname & Hs & Hacc).
    pose proof (distributeMosaic_conserves _ _ _ _ _ _ _ Hd)
      as (_ & ds & Hds & Htotal).
    repeat split; try assumption.
    exists ds. split; [exact Hds | congruence].
Qed.

(** *** The check of the supply, on the run *)

Lemma indexed_from_split :
  forall {A} (l1 : list A) x l2 k,
    combine (seq k (List.length (l1 ++ x :: l2))) (l1 ++ x :: l2)
    = combine (seq k (List.length l1)) l1
      ++ (k + List.length l1, x)%nat
         :: combine (seq (S (k + List.length l1)) (List.length l2)) l2.
Proof.
  intros A l1 x l2. induction l1 as [|y l1 IH]; intros k; simpl.
  - rewrite Nat.add_0_r. reflexivity.
  - rewrite (IH (S k)). rewrite Nat.add_succ_r. reflexivity.
Qed.

Lemma mapM_stops :
  forall {S A B} (f : A -> M S B) l1 x l2 w ys w1 e,
    mapM f l1 w = inr (ys, w1) -> f x w1 = inl e ->
    mapM f (l1 ++ x :: l2) w = inl e.
Proof.
  intros S A B f l1 x l2. induction l1 as [|y l1 IH]; intros w ys w1 e H Hx.
  - apply ret_inr in H. destruct H as [_ ->]. simpl. unfold bind.
    rewrite Hx. reflexivity.
  - simpl in H. apply bind_inr in H. destruct H as (b & w2 & Hy & H).
    apply bind_inr in H. destruct H as (bs & w3 & Hrest & H).
    apply ret_inr in H. destruct H as [_ ->].
    simpl. unfold bind at 1. rewrite Hy.
    unfold bind at 1. rewrite (IH _ _ _ _ Hrest Hx). reflexivity.
Qed.

(** What the preparation of a fresh run that creates the nemesis has
    established: the test of line 89 holds, and the nemesis of the preset
    is the declared one with the private key of its signer. *)
Lemma beforeMosaics_fresh :
  forall root presetData w s w0 nemesis,
    shouldCreateNemesis root presetData = true ->
    ConfigPreset.nemesis presetData = Some nemesis ->
    beforeMosaics root None presetData w = inr (s, w0) ->
    preparedCreate s = true
    /\ exists signerPrivateKey,
         ConfigPreset.nemesis (snd (preparedConfig s))
         = Some (NemesisPreset.withNemesisSignerPrivateKey signerPrivateKey
                   nemesis).
Proof.
  intros root presetData w s w0 nemesis Hcreate Hnemesis H.
  unfold beforeMosaics in H.
  destruct (ConfigPreset.networkType presetData) as [nt|]; [|discriminate H].
  destruct (nt =? 0)%Z; [discriminate H|].
  apply bind_inr in H. destruct H as (a0 & w1 & H0 & H).
  apply bind_inr in H. destruct H as (a1 & w2 & H1 & H).
  apply bind_inr in H. destruct H as (c2 & w3 & Hfill & H).
  apply bind_inr in H. destruct H as (identifier & w3' & Hid & H).
  apply liftRes_inr in Hid. destruct Hid as [Hid ->].
  apply bind_inr in H. destruct H as (name & w3' & Hname & H).
  apply liftRes_inr in Hname. destruct Hname as [Hname ->].
  cbv zeta in H.
  apply bind_inr in H. destruct H as (mode & w3' & Hmode & H).
  apply liftRes_inr in Hmode. destruct Hmode as [Hmode ->].
  apply bind_inr in H. destruct H as (c3 & w4 & Hsigner & H).
  apply bind_inr in H. destruct H as (ids & w4' & Hids & H).
  apply liftRes_inr in Hids. destruct Hids as [Hids ->].
  apply ret_inr in H. destruct H as [-> ->].
  cbn [preparedCreate preparedConfig snd].
  rewrite (shouldCreateNemesis_at_test _ _ _ _ _ _ _ identifier name Hfill),
    Hcreate in Hsigner |- *.
  split; [reflexivity|].
  pose proof (fillSinkAddresses_nemesisView _ _ _ _ _ Hfill) as Hview.
  pose proof (stamped_nemesisView identifier name (fst c2) (snd c2)) as Hview'.
  set (p := stamped identifier name (fst c2) (snd c2)) in *.
  assert (Hn : ConfigPreset.nemesis p = Some nemesis).
  { unfold nemesisView in Hview, Hview'. cbn [snd] in Hview. congruence. }
  unfold resolveNemesisSigner in Hsigner. cbn [fst snd] in Hsigner.
  rewrite Hn in Hsigner.
  apply bind_inr in Hsigner. destruct Hsigner as (signer & wx & _ & Hsigner).
  cbv zeta in Hsigner. apply ret_inr in Hsigner. destruct Hsigner as [-> _].
  pose proof (resolveMosaicIds_inr _ _ _ Hids) as (_ & Hn4 & _).
  cbn [snd fst] in Hn4.
  exists (fst (resolvePrivateKey nt signer NemesisSigner)).
  rewrite Hn4. reflexivity.
Qed.

(** C1. On a fresh run that creates the nemesis and returns, the mosaic at
    each index of the final preset has a [currencyDistributions] list whose
    sum, as the source computes it, is the supply declared for the mosaic
    at that index, and is that supply as a sum of integers when the supply
    is a safe integer. And a run that comes to a mosaic whose final entries
    do not sum to its declared supply, after the turns of the mosaics
    before it, throws the [Error] of line 198 and returns no addresses. *)
Theorem fresh_run_conserves_supply :
  forall root oldPresetData presetData w nemesis ms,
    shouldCreateNemesis root presetData = true ->
    ConfigPreset.nemesis presetData = Some nemesis ->
    NemesisPreset.mosaics nemesis = Some ms ->
    (forall addresses presetData' w',
       generateRandomConfiguration root None oldPresetData presetData w
         = inr ((addresses, presetData'), w') ->
       exists nemesis' ms',
         ConfigPreset.nemesis presetData' = Some nemesis'
         /\ NemesisPreset.mosaics nemesis' = Some ms'
         /\ List.length ms' = List.length ms
         /\ forall i m m',
              nth_error ms i = Some m ->
              nth_error ms' i = Some m' ->
              exists distributions,
                MosaicPreset.currencyDistributions m' = Some distributions
                /\ total distributions = MosaicPreset.supply m
                /\ ((MosaicPreset.supply m <= MAX_SAFE_INTEGER)%Z ->
                    exactTotal distributions = MosaicPreset.supply m))
    /\ (forall s w0 before m after done w1 accounts w2 distributions,
          ms = before ++ m :: after ->
          beforeMosaics root None presetData w = inr (s, w0) ->
          let p := snd (preparedConfig s) in
          let nodes := match Addresses.nodes (fst (preparedConfig s)) with
                       | Some ns => ns
                       | None => []
                       end in
          mapM (processMosaic (preparedNetworkType s) (preparedMode s) p nodes
                  (List.length ms) (preparedSignerAddress s))
            (indexed before) w0 = inr (done, w1) ->
          generateAddresses (preparedNetworkType s) (preparedMode s)
            (accountsOrOne (MosaicPreset.accounts m)) w1
            = inr (accounts, w2) ->
          finalDistributions p nodes (List.length ms) (List.length before)
            accounts m = inr distributions ->
          Forall nonNegative distributions ->
          total distributions <> MosaicPreset.supply m ->
          generateRandomConfiguration root None oldPresetData presetData w
          = inl (Error (invalidTotal (MosaicPreset.supply m)
                          (total distributions)))).
Proof.
  intros root oldPreset presetData w nemesis ms Hcreate Hnemesis Hms. split.
  - intros addresses presetData' w' H.
    destruct (fresh_run_processed _ _ _ _ _ _ _ _ _ Hcreate H Hnemesis Hms)
      as (nt & pk & k & processed & _ & _ & _ & Hn & Hall).
    exists (NemesisPreset.mk (Some (map snd processed)) (Some k)),
      (map snd processed).
    split; [exact Hn|]. split; [reflexivity|]. split.
    + rewrite length_map, <- (Forall2_length Hall). apply indexed_length.
    + intros i m m' Hi Hm'.
      apply nth_error_map_inv in Hm'. destruct Hm' as (r & Hr & <-).
      pose proof (Forall2_at _ _ _ Hall i _ _ (indexed_nth _ _ _ Hi) Hr)
        as (mode & p & nodes & s0 & s1 & Hrun).
      apply processMosaic_inr in Hrun. cbn [fst snd] in Hrun.
      destruct Hrun as (_ & _ & _ & Hd).
      apply distributeMosaic_inr in Hd.
      destruct Hd as (ds & _ & Hnn & Htotal & ->).
      exists ds. split; [reflexivity|]. split; [exact Htotal|].
      intros Hsafe. rewrite <- Htotal. symmetry.
      apply total_exact; [exact Hnn | rewrite Htotal; exact Hsafe].
  - intros s w0 before m after done w1 accounts w2 ds -> Hprepared p nodes
      Hbefore Haccounts Hds Hnn Hneq. subst p nodes.
    rewrite (generateRandomConfiguration_after _ _ oldPreset _ _ _ _ Hprepared).
    destruct (beforeMosaics_fresh _ _ _ _ _ _ Hcreate Hnemesis Hprepared)
      as (Hc & k & Hn).
    unfold afterPreparation. rewrite Hc. unfold resolveNemesisMosaics.
    rewrite Hn.
    cbn [NemesisPreset.mosaics NemesisPreset.withNemesisSignerPrivateKey].
    rewrite Hms. unfold bind at 1.
    unfold indexed at 1. rewrite indexed_from_split.
    match goal with
    | |- context [mapM ?f (_ ++ ?x :: _)] =>
        assert (Hturn :
          f x w1 = inl (Error (invalidTotal (MosaicPreset.supply m) (total ds))))
    end.
    { unfold processMosaic. cbn [fst snd]. unfold bind at 1.
      rewrite Haccounts. unfold bind at 1. rewrite Nat.add_0_l.
      rewrite (distributeMosaic_mismatch _ _ _ _ _ _ _ Hds Hnn Hneq).
      reflexivity. }
    rewrite (mapM_stops _ _ _ _ _ _ _ _ Hbefore Hturn). reflexivity.
Qed.

(** *** The edges of the distribution *)

Local Open Scope Z_scope.

Lemma checkedAmounts_negative :
  forall name l index,
    Exists (fun d => Distribution.amount d < 0) l ->
    exists message, checkedAmounts name index l = inl (Error message).
Proof.
  induction l as [|d l IH]; intros index H.
  - inversion H.
  - simpl. destruct (Distribution.amount d <? 0) eqn:Hneg.
    + eexists. reflexivity.
    + inversion H as [? ? Hd | ? ? Hl]; subst.
      * apply Z.ltb_ge in Hneg. lia.
      * destruct (IH (S index) Hl) as (message & ->).
        exists message. reflexivity.
Qed.

(** X11. A negative amount among the declared entries of a mosaic, its
    own [currencyDistributions] or the balance of a node, is an [Error]:
    the mosaic is not distributed. *)
Theorem distributeMosaic_rejects_negative_amount :
  forall presetData nodes mosaicsLength mosaicIndex accounts m,
    Exists (fun d => Distribution.amount d < 0)
      (providedDistributions presetData nodes mosaicIndex m) ->
    exists message,
      distributeMosaic presetData nodes mosaicsLength mosaicIndex accounts m
      = inl (Error message).
Proof.
  intros presetData nodes len idx accounts m H.
  unfold distributeMosaic, finalDistributions. cbv zeta. unfold sum at 1.
  destruct (checkedAmounts_negative (MosaicPreset.name m) _ 0%nat H)
    as (message & ->).
  exists message. reflexivity.
Qed.

Lemma filter_positive_head :
  forall l first rest,
    filter positive l = first :: rest -> 0 < Distribution.amount first.
Proof.
  intros l first rest H.
  assert (Hin : In first (filter positive l)) by (rewrite H; left; reflexivity).
  apply filter_In in Hin. destruct Hin as [_ Hp].
  unfold positive in Hp. apply Z.ltb_lt in Hp. exact Hp.
Qed.

Lemma generatedAccounts_le :
  forall accounts nodeMains perAccount maxHarvester,
    Forall (fun d => Distribution.amount d <= perAccount)
      (generatedAccounts accounts nodeMains perAccount maxHarvester).
Proof.
  intros accounts nodeMains per cap. unfold generatedAccounts.
  apply Forall_app. split; apply Forall_forall; intros d Hin;
    apply in_map_iff in Hin; destruct Hin as (x & <- & _); simpl; lia.
Qed.

Lemma generatedAccounts_length :
  forall accounts nodeMains perAccount maxHarvester,
    List.length (generatedAccounts accounts nodeMains perAccount maxHarvester)
    = (List.length accounts + List.length nodeMains)%nat.
Proof.
  intros. unfold generatedAccounts. rewrite length_app, !length_map.
  reflexivity.
Qed.

Lemma generatedAccounts_filtered :
  forall accounts nodeMains perAccount maxHarvester first others,
    generatedAccounts accounts nodeMains perAccount maxHarvester
      = first :: others ->
    Distribution.amount first <= 0 ->
    Forall (fun d => Distribution.amount d <= 0) others.
Proof.
  intros accounts nodeMains per cap first others Hg Hfirst.
  unfold generatedAccounts in Hg.
  destruct accounts as [|a accounts]; simpl in Hg.
  - destruct nodeMains as [|n nodeMains]; [discriminate Hg|].
    simpl in Hg. injection Hg as <- <-. simpl in Hfirst.
    apply Forall_forall. intros d Hin. apply in_map_iff in Hin.
    destruct Hin as (x & <- & _). simpl. exact Hfirst.
  - injection Hg as <- <-. simpl in Hfirst.
    apply Forall_app. split; apply Forall_forall; intros d Hin;
      apply in_map_iff in Hin; destruct Hin as (x & <- & _); simpl; lia.
Qed.

Lemma exactTotal_zero :
  forall l,
    Forall nonNegative l -> Forall (fun d => Distribution.amount d <= 0) l ->
    exactTotal l = 0.
Proof.
  intros l Hnn Hle. induction Hnn as [|d l Hd _ IH]; [reflexivity|].
  inversion Hle as [|? ? Hd' Hl]; subst. rewrite exactTotal_cons, (IH Hl).
  unfold nonNegative in Hd. lia.
Qed.

(** X12. Whenever [distributeMosaic] returns on a supply that is a safe
    integer, the entry that took the correction is the first generated
    account, the first free account or, with no free account, the first
    node without a declared balance; its amount before the correction was
    positive; the amounts are those of integer arithmetic; the declared
    entries and the other generated ones are in the result as they were,
    the zero ones dropped; and every amount of the result is positive. A
    correction that falls on a declared entry is then always followed by
    an error. *)
Theorem distributeMosaic_corrects_first_generated :
  forall presetData nodes mosaicsLength mosaicIndex accounts m m',
    MosaicPreset.supply m <= MAX_SAFE_INTEGER ->
    distributeMosaic presetData nodes mosaicsLength mosaicIndex accounts m
      = inr m' ->
    let provided := providedDistributions presetData nodes mosaicIndex m in
    let nodeMains := nodeMainAccounts presetData nodes mosaicIndex in
    let generated :=
      generatedAccounts accounts nodeMains
        ((MosaicPreset.supply m - exactTotal provided)
         / Z.of_nat (List.length accounts + List.length nodeMains))
        (effectiveMaxHarvesterBalance presetData mosaicsLength mosaicIndex) in
    exists first others distributions,
      generated = first :: others
      /\ 0 < Distribution.amount first
      /\ MosaicPreset.currencyDistributions m' = Some distributions
      /\ distributions
         = Distribution.mk (Distribution.address first)
             (MosaicPreset.supply m - exactTotal provided - exactTotal others)
           :: filter positive (others ++ provided)
      /\ Forall (fun d => 0 < Distribution.amount d) distributions.
Proof.
  intros presetData nodes len idx accounts m m' Hsafe H provided nodeMains
    generated.
  apply distributeMosaic_inr in H.
  destruct H as (ds & Hds & Hnn & Htotal & ->).
  pose proof (total_exact ds Hnn ltac:(rewrite Htotal; exact Hsafe)) as Hexact.
  rewrite Htotal in Hexact.
  apply finalDistributions_inr in Hds. cbv zeta in Hds.
  fold provided nodeMains in Hds.
  destruct Hds as (Hprov & Hgen & Hds).
  rewrite safe_limit in Hsafe.
  set (ps := total provided) in *.
  set (dyn := (List.length accounts + List.length nodeMains)%nat) in *.
  set (cap := effectiveMaxHarvesterBalance presetData len idx) in *.
  set (remaining := Number.sub (MosaicPreset.supply m) ps) in *.
  set (per := amountPerAccount remaining dyn) in *.
  set (made := generatedAccounts accounts nodeMains per cap) in *.
  set (gs := total (skipn 1 made)) in *.
  unfold correctedDistributions in Hds.
  change (fun d => 0 <? Distribution.amount d) with positive in Hds.
  pose proof (exactTotal_nonNegative provided Hprov) as Hp0.
  (* the corrected entry, whichever it is *)
  destruct (filter positive (made ++ provided)) as [|f rest] eqn:Hf;
    [discriminate Hds|].
  injection Hds as <-.
  inversion Hnn as [|? ? Hc Hrest]; subst. unfold nonNegative in Hc.
  cbn [Distribution.amount] in Hc.
  rewrite exactTotal_cons in Hexact. cbn [Distribution.amount] in Hexact.
  pose proof (exactTotal_nonNegative rest Hrest) as Hr0.
  pose proof (filter_positive_head _ _ _ Hf) as Hfpos.
  assert (Hremaining0 : 0 <= MosaicPreset.supply m - ps).
  { destruct (Z.lt_ge_cases (MosaicPreset.supply m - ps) 0) as [Hneg|]; [|lia].
    exfalso.
    pose proof (Number.double_negative _ Hneg) as Hneg1.
    fold (Number.sub (MosaicPreset.supply m) ps) in Hneg1. fold remaining in Hneg1.
    assert (Hgs0 : 0 <= gs).
    { unfold gs, total.
      assert (Hfold : forall l acc, 0 <= acc -> Forall (fun x => 0 <= x) l ->
                        0 <= fold_left Number.add l acc).
      { induction l as [|x l IH]; intros acc Hacc Hall; simpl; [exact Hacc|].
        inversion Hall; subst. apply IH; [|assumption].
        apply Number.double_nonneg. lia. }
      apply Hfold; [lia | apply nonNegative_amounts; exact Hgen]. }
    assert (Hneg2 : remaining - gs < 0) by lia.
    pose proof (Number.double_negative _ Hneg2) as Hneg3.
    fold (Number.sub remaining gs) in Hneg3. lia. }
  assert (Hps : ps = exactTotal provided).
  { apply total_exact; [exact Hprov | rewrite safe_limit; fold ps; lia]. }
  assert (Hremaining : remaining = MosaicPreset.supply m - exactTotal provided).
  { unfold remaining. rewrite Number.sub_safe; [lia|].
    rewrite Z.abs_eq; lia. }
  destruct made as [|first others] eqn:Hmade.
  - (* no generated account: the correction falls on a declared entry *)
    exfalso. cbn [app] in Hf.
    pose proof (exactTotal_filter_positive provided Hprov) as Ht.
    rewrite Hf, exactTotal_cons in Ht.
    assert (Hgs : gs = 0) by reflexivity.
    rewrite Hgs in Hexact.
    rewrite (Number.sub_safe remaining 0) in Hexact
      by (rewrite Hremaining, Z.abs_eq; lia).
    lia.
  - cbn [skipn] in *. cbn [app filter] in Hf.
    destruct (positive first) eqn:Hp.
    + (* the first generated account takes the correction *)
      injection Hf as <- <-.
      assert (Hpos : 0 < Distribution.amount first)
        by (unfold positive in Hp; apply Z.ltb_lt in Hp; exact Hp).
      assert (Hdyn : (0 < dyn)%nat).
      { pose proof (generatedAccounts_length accounts nodeMains per cap) as Hl.
        fold made in Hl. rewrite Hmade in Hl. simpl in Hl. fold dyn in Hl. lia. }
      assert (Hper : per = (MosaicPreset.supply m - exactTotal provided)
                           / Z.of_nat dyn).
      { unfold per, amountPerAccount. rewrite Hremaining.
        apply Number.floorQuotient_safe; lia. }
      rewrite <- Hremaining in Hper.
      assert (Hmul : Z.of_nat dyn * per <= remaining).
      { rewrite Hper. apply Z.mul_div_le. lia. }
      pose proof (generatedAccounts_le accounts nodeMains per cap) as Hle.
      fold made in Hle. rewrite Hmade in Hle.
      inversion Hle as [|? ? Hfirst Hothers]; subst.
      pose proof (exactTotal_bounded per others Hothers) as Hb.
      pose proof (generatedAccounts_length accounts nodeMains per cap) as Hlen.
      fold made in Hlen. rewrite Hmade in Hlen. simpl List.length in Hlen.
      fold dyn in Hlen.
      assert (Hl : Z.of_nat (List.length others) = Z.of_nat dyn - 1) by lia.
      rewrite Hl in Hb.
      pose proof (exactTotal_nonNegative others Hgen) as Ho0.
      assert (Hgs : gs = exactTotal others).
      { apply total_of_exact; [exact Hgen | rewrite safe_limit; nia]. }
      assert (Hcorrected :
        Number.sub remaining gs
        = MosaicPreset.supply m - exactTotal provided - exactTotal others).
      { rewrite Number.sub_safe; [lia|]. rewrite Z.abs_eq; nia. }
      exists first, others. eexists.
      split; [unfold generated; rewrite <- Hremaining, <- Hper; exact Hmade|].
      split; [exact Hpos|]. split; [reflexivity|].
      split; [rewrite Hcorrected; reflexivity|].
      constructor.
      * cbn [Distribution.amount]. rewrite Hcorrected. nia.
      * apply Forall_forall. intros d Hin. apply filter_In in Hin.
        destruct Hin as [_ Hd]. unfold positive in Hd.
        apply Z.ltb_lt in Hd. exact Hd.
    + (* the first generated account is dropped, and so are the others *)
      exfalso.
      assert (Hfirst : Distribution.amount first <= 0)
        by (unfold positive in Hp; apply Z.ltb_ge in Hp; exact Hp).
      pose proof (generatedAccounts_filtered _ _ _ _ _ _ Hmade Hfirst) as Hzero.
      rewrite filter_app, (filter_positive_none others Hzero) in Hf.
      cbn [app] in Hf.
      pose proof (exactTotal_filter_positive provided Hprov) as Ht.
      rewrite Hf, exactTotal_cons in Ht.
      pose proof (exactTotal_zero others Hgen Hzero) as Ho.
      assert (Hgs : gs = 0).
      { unfold gs. rewrite total_of_exact; [exact Ho | exact Hgen|].
        rewrite Ho, safe_limit. lia. }
      rewrite Hgs in Hexact.
      rewrite (Number.sub_safe remaining 0) in Hexact
        by (rewrite Hremaining, Z.abs_eq; lia).
      lia.
Qed.

Local Close Scope Z_scope.


(** *** The key names migration of addresses.yml (lines 683-717) *)

(** A node entry of an addresses.yml as the migration reads it: the legacy
    keys [node], [signing] and [ssl], the keys [main] and [transport] that
    replace them, and the other fields of the entry, which the migration
    does not touch. *)
Record LegacyNodeAddresses (Rest : Type) : Type := mkLegacyNodeAddresses {
  legacyNode : option ConfigAccount.t;
  legacySigning : option ConfigAccount.t;
  legacySsl : option ConfigAccount.t;
  legacyMain : option ConfigAccount.t;
  legacyTransport : option ConfigAccount.t;
  legacyRest : Rest
}.

#[global] Arguments mkLegacyNodeAddresses {Rest}.
#[global] Arguments legacyNode {Rest}.
#[global] Arguments legacySigning {Rest}.
#[global] Arguments legacySsl {Rest}.
#[global] Arguments legacyMain {Rest}.
#[global] Arguments legacyTransport {Rest}.
#[global] Arguments legacyRest {Rest}.

(** [nodeAddresses?.node?.privateKey]. *)
Definition legacyNodePrivateKey {Rest} (n : LegacyNodeAddresses Rest)
  : option string :=
  match legacyNode n with
  | Some account => ConfigAccount.privateKey account
  | None => None
  end.

(** The body of the [forEach] of the migration on one node entry. An [ssl]
    entry without a private key makes [Account.createFromPrivateKey] read
    the length of [undefined]. *)
Definition migrateNodeAddresses {Rest} (networkType : NetworkType)
    (n : LegacyNodeAddresses Rest) : Gen (LegacyNodeAddresses Rest) :=
  (main <- liftRes
             match legacySigning n with
             | Some signing => ok (Some signing)
             | None =>
                 match legacySsl n with
                 | Some ssl =>
                     match ConfigAccount.privateKey ssl with
                     | Some key =>
                         ok (Some (toConfig
                                     (createFromPrivateKey key networkType)))
                     | None =>
                         inl (TypeError
                                "Cannot read properties of undefined (reading 'length')")
                     end
                 | None => ok (legacyMain n)
                 end
             end ;;
   transport <- generateAccount networkType ENCRYPT Transport None
                  (legacyNodePrivateKey n) None ;;
   ret (mkLegacyNodeAddresses None None None main (Some transport)
          (legacyRest n)))%m.

(** [migrate(from)]: [(from.nodes || []).forEach(...)]. *)
Definition keyNamesMigration {Rest} (networkType : NetworkType)
    (nodes : option (list (LegacyNodeAddresses Rest)))
  : Gen (option (list (LegacyNodeAddresses Rest))) :=
  match nodes with
  | Some entries =>
      (migrated <- mapM (migrateNodeAddresses networkType) entries ;;
       ret (Some migrated))%m
  | None => ret None
  end.

Lemma generateAccount_transport_of_legacy_key :
  forall networkType key w,
    generateAccount networkType ENCRYPT Transport None key None w
    = if truthy (option_map toUpperCase key)
      then inr (toConfig
                  (createFromPrivateKey
                     (match key with Some k => toUpperCase k | None => EmptyString end)
                     networkType), w)
      else inr (toConfig
                  (createFromPrivateKey (randomPrivateKey (List.length w))
                     networkType),
                w ++ [NewAccount (KeyAccount Transport)]).
Proof.
  intros nt key w. unfold generateAccount, oldAccountOf, newAccountOf, getAccount.
  cbn [option_map truthy].
  destruct (truthy (option_map toUpperCase key)) eqn:Ht.
  - destruct key as [k|]; [|discriminate Ht]. reflexivity.
  - reflexivity.
Qed.

(** X13. The key names migration on a node entry whose [ssl] account,
    when it is the source of the main account, has its private key. It
    never throws; the legacy keys [node], [signing] and [ssl] are removed
    and the other fields kept; the main account is the [signing] account,
    else the account of the [ssl] private key, else the main account of the
    entry; the transport account is the account of the private key of
    [node] when it has one, and then nothing is drawn, else an account
    drawn in the migration, whatever transport account the entry had. *)
Theorem keyNamesMigration_node :
  forall (Rest : Type) networkType (n : LegacyNodeAddresses Rest) w,
    (legacySigning n = None ->
     forall ssl, legacySsl n = Some ssl -> ConfigAccount.privateKey ssl <> None) ->
    exists main transport w',
      migrateNodeAddresses networkType n w
      = inr (mkLegacyNodeAddresses None None None main (Some transport)
               (legacyRest n), w')
      /\ main
         = match legacySigning n, legacySsl n with
           | Some signing, _ => Some signing
           | None, Some ssl =>
               option_map
                 (fun key => toConfig (createFromPrivateKey key networkType))
                 (ConfigAccount.privateKey ssl)
           | None, None => legacyMain n
           end
      /\ match legacyNodePrivateKey n with
         | Some key =>
             if truthy (Some (toUpperCase key))
             then w' = w
                  /\ transport
                     = toConfig
                         (createFromPrivateKey (toUpperCase key) networkType)
             else w' = w ++ [NewAccount (KeyAccount Transport)]
                  /\ transport
                     = toConfig
                         (createFromPrivateKey
                            (randomPrivateKey (List.length w)) networkType)
         | None =>
             w' = w ++ [NewAccount (KeyAccount Transport)]
             /\ transport
                = toConfig
                    (createFromPrivateKey (randomPrivateKey (List.length w))
                       networkType)
         end.
Proof.
  intros Rest nt n w Hssl. unfold migrateNodeAddresses.
  unfold bind at 1.
  assert (Hmain : exists main,
             match legacySigning n with
             | Some signing => ok (Some signing)
             | None =>
                 match legacySsl n with
                 | Some ssl =>
                     match ConfigAccount.privateKey ssl with
                     | Some key =>
                         ok (Some (toConfig (createFromPrivateKey key nt)))
                     | None =>
                         inl (TypeError
                                "Cannot read properties of undefined (reading 'length')")
                     end
                 | None => ok (legacyMain n)
                 end
             end = inr main
             /\ main
                = match legacySigning n, legacySsl n with
                  | Some signing, _ => Some signing
                  | None, Some ssl =>
                      option_map
                        (fun key => toConfig (createFromPrivateKey key nt))
                        (ConfigAccount.privateKey ssl)
                  | None, None => legacyMain n
                  end).
  { destruct (legacySigning n) as [signing|].
    - eexists. split; reflexivity.
    - destruct (legacySsl n) as [ssl|].
      + specialize (Hssl eq_refl ssl eq_refl).
        destruct (ConfigAccount.privateKey ssl) as [key|]; [|congruence].
        eexists. split; reflexivity.
      + eexists. split; reflexivity. }
  destruct Hmain as (main & -> & Hmain). unfold liftRes. unfold bind at 1.
  rewrite generateAccount_transport_of_legacy_key.
  destruct (legacyNodePrivateKey n) as [key|]; cbn [option_map].
  - destruct (truthy (Some (toUpperCase key)));
      do 3 eexists; (split; [reflexivity|]); (split; [exact Hmain|]);
      split; reflexivity.
  - cbn [truthy]. do 3 eexists. split; [reflexivity|]. split; [exact Hmain|].
    split; reflexivity.
Qed.

(** X14. The key names migration is not idempotent: applied to an entry
    that it has already migrated, it keeps the main account and replaces the
    transport account by one drawn anew. The version check of
    [BootstrapUtils.migrate] is what keeps the transport keys of a migrated
    file. *)
Theorem keyNamesMigration_twice :
  forall (Rest : Type) networkType (n : LegacyNodeAddresses Rest) w migrated w1,
    migrateNodeAddresses networkType n w = inr (migrated, w1) ->
    migrateNodeAddresses networkType migrated w1
    = inr (mkLegacyNodeAddresses None None None (legacyMain migrated)
             (Some (toConfig
                      (createFromPrivateKey
                         (randomPrivateKey (List.length w1)) networkType)))
             (legacyRest migrated),
           w1 ++ [NewAccount (KeyAccount Transport)]).
Proof.
  intros Rest nt n w migrated w1 H. unfold migrateNodeAddresses in H.
  apply bind_inr in H. destruct H as (main & w0 & _ & H).
  apply bind_inr in H. destruct H as (transport & w2 & _ & H).
  apply ret_inr in H. destruct H as [-> _].
  unfold migrateNodeAddresses, legacyNodePrivateKey.
  cbn [legacySigning legacySsl legacyMain legacyNode legacyRest].
  unfold bind at 1. unfold liftRes, ok. unfold bind at 1.
  rewrite generateAccount_transport_of_legacy_key. reflexivity.
Qed.


(** *** The nemesis signer *)

Lemma resolvePrivateKey_keeps_account :
  forall networkType account keyName,
    let resolved := resolvePrivateKey networkType account keyName in
    ConfigAccount.publicKey (snd resolved) = ConfigAccount.publicKey account
    /\ exists key,
         ConfigAccount.privateKey (snd resolved) = Some key
         /\ toUpperCase (fst resolved) = toUpperCase key.
Proof.
  intros nt account keyName. unfold resolvePrivateKey. cbv zeta.
  destruct (ConfigAccount.privateKey account) as [k|] eqn:Hk.
  - destruct (truthy (Some k)); cbn [fst snd ConfigAccount.publicKey
                                      ConfigAccount.privateKey].
    + split; [reflexivity|]. exists k. split; [exact Hk|].
      apply toUpperCase_idempotent.
    + split; [reflexivity|]. eexists. split; reflexivity.
  - cbn [fst snd ConfigAccount.publicKey ConfigAccount.privateKey].
    split; [reflexivity|]. eexists. split; reflexivity.
Qed.

(** X15. On a run that creates the nemesis and returns,
    [addresses.nemesisSigner] is defined and has its private key, the stored
    or supplied one or the one entered at the prompt, and
    [presetData.nemesisSignerPublicKey] is its public key; on a fresh run
    [presetData.nemesis.nemesisSignerPrivateKey] is that private key, up to
    the case of its letters. *)
Theorem nemesis_signer_is_recorded :
  forall root oldAddresses oldPresetData presetData w addresses presetData' w',
    shouldCreateNemesis root presetData = true ->
    generateRandomConfiguration root oldAddresses oldPresetData presetData w
      = inr ((addresses, presetData'), w') ->
    exists signer key,
      Addresses.nemesisSigner addresses = Some signer
      /\ ConfigAccount.privateKey signer = Some key
      /\ ConfigPreset.nemesisSignerPublicKey presetData'
         = Some (ConfigAccount.publicKey signer)
      /\ (oldAddresses = None ->
          exists nemesis' recorded,
            ConfigPreset.nemesis presetData' = Some nemesis'
            /\ NemesisPreset.nemesisSignerPrivateKey nemesis' = Some recorded
            /\ toUpperCase recorded = toUpperCase key).
Proof.
  intros root old oldPreset presetData w addresses presetData' w' Hcreate H.
  apply generateRandomConfiguration_phases in H.
  destruct H as (nt & a0 & w0 & a1 & w1 & c2 & w2 & identifier & name & mode
                 & c3 & w3 & ids & _ & _ & _ & Hfill & _ & _ & _
                 & Hsigner & Hids & Hlast).
  rewrite (shouldCreateNemesis_at_test _ _ _ _ _ _ _ identifier name Hfill),
    Hcreate in Hsigner, Hlast.
  pose proof (fillSinkAddresses_nemesisView _ _ _ _ _ Hfill) as Hview.
  pose proof (stamped_nemesisView identifier name (fst c2) (snd c2)) as Hview'.
  set (p := stamped identifier name (fst c2) (snd c2)) in *.
  unfold shouldCreateNemesis in Hcreate.
  destruct (ConfigPreset.nemesis presetData) as [nemesis|] eqn:Hnemesis;
    [|discriminate Hcreate].
  assert (Hn : ConfigPreset.nemesis p = Some nemesis).
  { unfold nemesisView in Hview, Hview'. cbn [snd] in Hview. congruence. }
  unfold resolveNemesisSigner in Hsigner. cbn [fst snd] in Hsigner.
  rewrite Hn in Hsigner.
  apply bind_inr in Hsigner. destruct Hsigner as (signer0 & wx & _ & Hsigner).
  cbv zeta in Hsigner. apply ret_inr in Hsigner. destruct Hsigner as [-> _].
  pose proof (resolvePrivateKey_keeps_account nt signer0 NemesisSigner)
    as (Hpublic & key & Hkey & Hupper).
  set (resolved := resolvePrivateKey nt signer0 NemesisSigner) in *.
  pose proof (resolveMosaicIds_inr _ _ _ Hids)
    as (_ & Hn4 & _ & pk & Hpk3 & Hpk & _).
  cbn [snd ConfigPreset.nemesisSignerPublicKey ConfigPreset.withNemesis
       ConfigPreset.withNemesisSignerPublicKey] in Hpk3.
  injection Hpk3 as <-.
  cbn [snd fst ConfigPreset.nemesis ConfigPreset.withNemesis] in Hn4, Hlast.
  exists (snd resolved), key.
  unfold resolveNemesisMosaics in Hlast. cbn [fst snd] in Hlast.
  destruct old as [oldA|].
  - destruct oldPreset as [oldP|]; [|discriminate Hlast].
    apply ret_inr in Hlast. destruct Hlast as [Hlast _].
    injection Hlast as -> ->.
    split; [reflexivity|]. split; [exact Hkey|].
    split; [rewrite Hpublic; exact Hpk | discriminate].
  - rewrite Hn4 in Hlast.
    cbn [NemesisPreset.mosaics NemesisPreset.withNemesisSignerPrivateKey]
      in Hlast.
    destruct (NemesisPreset.mosaics nemesis) as [ms|].
    + apply bind_inr in Hlast. destruct Hlast as (processed & wy & _ & Hlast).
      apply ret_inr in Hlast. destruct Hlast as [Hlast _].
      injection Hlast as -> ->.
      split; [reflexivity|]. split; [exact Hkey|].
      split; [rewrite Hpublic; exact Hpk|].
      intros _. do 2 eexists. split; [reflexivity|].
      split; [reflexivity | exact Hupper].
    + apply ret_inr in Hlast. destruct Hlast as [Hlast _].
      injection Hlast as -> ->.
      split; [reflexivity|]. split; [exact Hkey|].
      split; [rewrite Hpublic; exact Hpk|].
      intros _. do 2 eexists. split; [exact Hn4|].
      split; [reflexivity | exact Hupper].
Qed.

End Sdk.

(** *** A small instance of the environment, to run the model *)

(** Stand-ins for the key derivation of symbol-sdk: the public key of a
    private key and the address of a public key are tagged copies. *)
Definition demoPublicKeyOf (privateKey : string) : string :=
  ("PUB" ++ privateKey)%string.

Definition demoAddressOf (networkType : NetworkType) (publicKey : string)
  : string := ("T" ++ showZ networkType ++ "-" ++ publicKey)%string.

Definition demoRandomPrivateKey (n : nat) : string :=
  ("5EED" ++ showNat n)%string.

Definition demoRandomSeed (n : nat) : string := ("B17E5" ++ showNat n)%string.

Definition demoMosaicIdOf (nonce : nat) (signerAddress : string) : string :=
  ("MOSAIC" ++ showNat nonce ++ "@" ++ signerAddress)%string.

Definition demoSecurityMode (value : option string)
  : Res PrivateKeySecurityMode :=
  match value with
  | None => ok ENCRYPT
  | Some v =>
      if (v =? "ENCRYPT")%string then ok ENCRYPT
      else if (v =? "PROMPT_MAIN")%string then ok PROMPT_MAIN
      else if (v =? "PROMPT_MAIN_TRANSPORT")%string then ok PROMPT_MAIN_TRANSPORT
      else if (v =? "PROMPT_ALL")%string then ok PROMPT_ALL
      else inl (KnownError (v ++ " is not a valid Security Mode")%string)
  end.

Definition demoNetworkIdentifier (networkType : NetworkType) : Res string :=
  ok "public-test".

Definition demoNetworkName (networkType : NetworkType) : Res string :=
  ok "public_test".

Definition demoPrompt (networkType : NetworkType) (account : ConfigAccount.t)
    (keyName : KeyName) : string := "ENTERED".

(** [generateRandomConfiguration] in this instance, with no seed folder on
    disk and a preset given by name. *)
Abbreviation demoGenerate :=
  (generateRandomConfiguration demoPublicKeyOf demoAddressOf
     demoRandomPrivateKey demoSecurityMode demoNetworkIdentifier
     demoNetworkName (fun _ => false) (fun _ => false) demoRandomSeed
     demoMosaicIdOf demoPrompt).

Abbreviation demoGenerateAccount :=
  (generateAccount demoPublicKeyOf demoAddressOf demoRandomPrivateKey).

Definition demoNode (name : string) (harvesting : bool)
    (balances : option (list Z)) : NodePreset.t :=
  NodePreset.mk (Some name) None None true false false harvesting None false
    None None None None None None None None None None balances.

Definition demoMosaics : list MosaicPreset.t :=
  [ MosaicPreset.mk "currency" 10000 None
      (Some [Distribution.mk "TFIXED" 300%Z]);
    MosaicPreset.mk "harvest" 500 (Some (Count 2)) None ].

(** A preset with two nodes and two mosaics; the second node declares its
    balances, the first one is a dynamic recipient. *)
Definition demoPreset : ConfigPreset.t :=
  ConfigPreset.mk (Some 152%Z) "bootstrap" None None
    (Some [demoNode "node-a" true None;
           demoNode "node-b" false (Some [1000%Z; 50%Z])])
    None None None None None None
    (Some (NemesisPreset.mk (Some demoMosaics) None))
    None None None None 100%Z false.

(** The result of the fresh run of the demo preset. *)
Definition demoFreshAddresses : option Addresses.t :=
  Eval vm_compute in
    match demoGenerate "/root" None None demoPreset [] with
    | inr ((addresses, _), _) => Some addresses
    | inl _ => None
    end.

Definition demoFreshNemesis : NemesisPreset.t :=
  Eval vm_compute in
    match demoGenerate "/root" None None demoPreset [] with
    | inr ((_, p), _) =>
        match ConfigPreset.nemesis p with
        | Some n => n
        | None => NemesisPreset.mk None None
        end
    | inl _ => NemesisPreset.mk None None
    end.

Definition demoFreshMosaics : list MosaicPreset.t :=
  Eval vm_compute in
    match NemesisPreset.mosaics demoFreshNemesis with
    | Some ms => ms
    | None => []
    end.

Lemma demoFreshRun :
  exists addresses presetData' w',
    demoGenerate "/root" None None demoPreset []
    = inr ((addresses, presetData'), w')
    /\ ConfigPreset.nemesis presetData' = Some demoFreshNemesis.
Proof. do 3 eexists. split; vm_compute; reflexivity. Qed.

Abbreviation demoBeforeMosaics :=
  (beforeMosaics demoPublicKeyOf demoAddressOf demoRandomPrivateKey
     demoSecurityMode demoNetworkIdentifier demoNetworkName (fun _ => false)
     (fun _ => false) demoRandomSeed demoMosaicIdOf demoPrompt).

(** A supply beyond the safe integers, 2^53 + 2, with one unit declared
    and no node. *)
Definition demoRoundedMosaic : MosaicPreset.t :=
  MosaicPreset.mk "currency" 9007199254740994 None
    (Some [Distribution.mk "TFIXED" 1%Z]).

Definition demoRoundedPreset : ConfigPreset.t :=
  ConfigPreset.mk (Some 152%Z) "bootstrap" None None None
    None None None None None None
    (Some (NemesisPreset.mk (Some [demoRoundedMosaic]) None))
    None None None None 100%Z false.

(** The preparation of its run, the free account of its mosaic and the
    entries that the last check finds: the free account has taken the
    remaining supply, rounded to 2^53. *)
Definition demoRoundedPrepared : Prepared :=
  Eval vm_compute in
    match demoBeforeMosaics "/root" None demoRoundedPreset [] with
    | inr (s, _) => s
    | inl _ => Build_Prepared 0%Z ENCRYPT false "" (Addresses.mk 0 0%Z "" None None None None, demoRoundedPreset)
    end.

Definition demoRoundedWorld : World :=
  Eval vm_compute in
    match demoBeforeMosaics "/root" None demoRoundedPreset [] with
    | inr (_, w) => w
    | inl _ => []
    end.

Definition demoRoundedAccounts : list ConfigAccount.t :=
  [ConfigAccount.mk (Some "5EED3") "PUB5EED3" "T152-PUB5EED3"].

Definition demoRoundedDistributions : list Distribution.t :=
  [Distribution.mk "T152-PUB5EED3" 9007199254740992%Z;
   Distribution.mk "TFIXED" 1%Z].

Lemma demoRoundedPreparation :
  demoBeforeMosaics "/root" None demoRoundedPreset []
  = inr (demoRoundedPrepared, demoRoundedWorld).
Proof. vm_compute. reflexivity. Qed.

Lemma demoRoundedFreeAccount :
  generateAddresses demoPublicKeyOf demoAddressOf demoRandomPrivateKey
    (preparedNetworkType demoRoundedPrepared)
    (preparedMode demoRoundedPrepared)
    (accountsOrOne (MosaicPreset.accounts demoRoundedMosaic)) demoRoundedWorld
  = inr (demoRoundedAccounts, demoRoundedWorld ++ [NewAccount FreeAccount]).
Proof. vm_compute. reflexivity. Qed.

Lemma demoRoundedTurn :
  finalDistributions (snd (preparedConfig demoRoundedPrepared)) [] 1 0
    demoRoundedAccounts demoRoundedMosaic
  = inr demoRoundedDistributions.
Proof. vm_compute. reflexivity. Qed.

(** The fresh run of the demo preset conserves both supplies, also as sums
    of integers. The run of the supply 2^53 + 2 throws: the sum of the
    final entries, in doubles, is 2^53. *)
Lemma fresh_run_conserves_supply_witness :
  (forall i m m',
     nth_error demoMosaics i = Some m ->
     nth_error demoFreshMosaics i = Some m' ->
     exists distributions,
       MosaicPreset.currencyDistributions m' = Some distributions
       /\ total distributions = MosaicPreset.supply m
       /\ exactTotal distributions = MosaicPreset.supply m)
  /\ demoGenerate "/root" None None demoRoundedPreset []
     = inl (Error
              "Invalid nemgen total supplied value, expected 9007199254740994 but total is 9007199254740992").
Proof.
  split.
  - destruct demoFreshRun as (addresses & presetData' & w' & Hrun & Hn).
    assert (Hcreate : shouldCreateNemesis (fun _ => false) (fun _ => false)
                        "/root" demoPreset = true) by reflexivity.
    destruct (fresh_run_conserves_supply demoPublicKeyOf
                demoAddressOf demoRandomPrivateKey demoSecurityMode
                demoNetworkIdentifier demoNetworkName
                (fun _ => false) (fun _ => false) demoRandomSeed
                demoMosaicIdOf demoPrompt
                "/root" None demoPreset []
                (NemesisPreset.mk (Some demoMosaics) None) demoMosaics
                Hcreate eq_refl eq_refl) as [Hsum _].
    destruct (Hsum addresses presetData' w' Hrun)
      as (nemesis' & ms' & Hn' & Hms' & _ & Hall).
    rewrite Hn in Hn'. injection Hn' as <-.
    assert (Hfresh : NemesisPreset.mosaics demoFreshNemesis
                     = Some demoFreshMosaics) by reflexivity.
    rewrite Hfresh in Hms'. injection Hms' as <-.
    intros i m m' Hm Hm'.
    destruct (Hall i m m' Hm Hm') as (ds & Hds & Htotal & Hexact).
    exists ds. split; [exact Hds|]. split; [exact Htotal|].
    apply Hexact.
    destruct i as [|[|i]]; simpl in Hm.
    + injection Hm as <-. vm_compute. intro H. discriminate H.
    + injection Hm as <-. vm_compute. intro H. discriminate H.
    + destruct i; discriminate Hm.
  - assert (Hcreate : shouldCreateNemesis (fun _ => false) (fun _ => false)
                        "/root" demoRoundedPreset = true) by reflexivity.
    destruct (fresh_run_conserves_supply demoPublicKeyOf
                demoAddressOf demoRandomPrivateKey demoSecurityMode
                demoNetworkIdentifier demoNetworkName
                (fun _ => false) (fun _ => false) demoRandomSeed
                demoMosaicIdOf demoPrompt
                "/root" None demoRoundedPreset []
                (NemesisPreset.mk (Some [demoRoundedMosaic]) None)
                [demoRoundedMosaic]
                Hcreate eq_refl eq_refl) as [_ Habort].
    apply (Habort demoRoundedPrepared demoRoundedWorld [] demoRoundedMosaic []
             [] demoRoundedWorld demoRoundedAccounts
             (demoRoundedWorld ++ [NewAccount FreeAccount])
             demoRoundedDistributions eq_refl demoRoundedPreparation
             eq_refl demoRoundedFreeAccount demoRoundedTurn).
    + repeat constructor; vm_compute; intro H; discriminate H.
    + vm_compute. intro H. discriminate H.
Defined.

(** The claim C2 at an input that declares the whole supply: the free
    account gets 0 and is filtered out, the assignment falls on the declared
    entry, and the last check throws. *)
Lemma correction_overwrites_declared_entry :
  let m := MosaicPreset.mk "currency" 100 None
             (Some [Distribution.mk "TFIXED" 100%Z]) in
  let preset := ConfigPreset.withNemesis
                  (Some (NemesisPreset.mk (Some [m]) None)) demoPreset in
  let free := ConfigAccount.mk (Some "5EED0") "PUB5EED0" "T152-PUB5EED0" in
  correctedDistributions
    (generatedAccounts [free] [] (amountPerAccount (100 - 100) 1) 100%Z)
    [Distribution.mk "TFIXED" 100%Z] (100 - 100 - 0)%Z
  = inr [Distribution.mk "TFIXED" 0%Z]
  /\ distributeMosaic preset [] 1 0 [free] m
     = inl (Error
              "Invalid nemgen total supplied value, expected 100 but total is 0").
Proof. split; vm_compute; reflexivity. Qed.








(** Under [PROMPT_ALL] a Main account is refused; under [ENCRYPT] it is
    drawn. *)
Lemma generateAccount_generation_policy_witness :
  (exists message,
     demoGenerateAccount 152%Z PROMPT_ALL Main None None None []
     = inl (KnownError message))
  /\ demoGenerateAccount 152%Z ENCRYPT Main None None None []
     = inr (ConfigAccount.mk (Some "5EED0") "PUB5EED0" "T152-PUB5EED0",
            [NewAccount (KeyAccount Main)]).
Proof.
  split.
  - apply (generateAccount_generation_policy demoPublicKeyOf demoAddressOf
             demoRandomPrivateKey 152%Z PROMPT_ALL Main None None None []
             eq_refl eq_refl).
    reflexivity.
  - apply (generateAccount_generation_policy demoPublicKeyOf demoAddressOf
             demoRandomPrivateKey 152%Z ENCRYPT Main None None None []
             eq_refl eq_refl).
    reflexivity.
Defined.

(** A stored account whose public key is in lower case, as a hand-written
    addresses.yml may hold it. *)
Definition storedLowerCase : ConfigAccount.t :=
  ConfigAccount.mk None
    "c0ffee00c0ffee00c0ffee00c0ffee00c0ffee00c0ffee00c0ffee00c0ffee00"
    "T152-C0FFEE00C0FFEE00C0FFEE00C0FFEE00C0FFEE00C0FFEE00C0FFEE00C0FFEE00".

Definition rebuiltUpperCase : ConfigAccount.t :=
  ConfigAccount.mk None
    "C0FFEE00C0FFEE00C0FFEE00C0FFEE00C0FFEE00C0FFEE00C0FFEE00C0FFEE00"
    "T152-C0FFEE00C0FFEE00C0FFEE00C0FFEE00C0FFEE00C0FFEE00C0FFEE00C0FFEE00".

(** C6 as stated fails: with only an old stored account, the result is not
    the stored record when its key is not in upper case. *)
Lemma reused_account_is_not_verbatim :
  demoGenerateAccount 152%Z ENCRYPT Main (Some storedLowerCase) None None []
  = inr (rebuiltUpperCase, [])
  /\ rebuiltUpperCase <> storedLowerCase.
Proof.
  split.
  - vm_compute. reflexivity.
  - intro H. discriminate H.
Qed.

(** A stored account in canonical form, with its private key. *)
Definition storedCanonical : ConfigAccount.t :=
  ConfigAccount.mk (Some "ABCD01") "PUBABCD01" "T152-PUBABCD01".

Lemma generateAccount_decision_table_witness :
  demoGenerateAccount 152%Z PROMPT_ALL Main (Some storedCanonical) None None []
  = inr (storedCanonical, [])
  /\ demoGenerateAccount 152%Z PROMPT_ALL Main (Some storedCanonical) None
       (Some "pubabcd01") []
     = inr (storedCanonical, []).
Proof.
  split.
  - destruct (generateAccount_decision_table demoPublicKeyOf demoAddressOf
                demoRandomPrivateKey 152%Z PROMPT_ALL Main
                (Some storedCanonical) None None []) as (Hold & _).
    apply (proj2 (Hold (Account "ABCD01" "PUBABCD01" "T152-PUBABCD01")
                    eq_refl eq_refl) storedCanonical eq_refl).
    repeat split; try reflexivity. discriminate.
  - destruct (generateAccount_decision_table demoPublicKeyOf demoAddressOf
                demoRandomPrivateKey 152%Z PROMPT_ALL Main
                (Some storedCanonical) None (Some "pubabcd01") [])
      as (_ & _ & Hsame & _).
    destruct (Hsame (Account "ABCD01" "PUBABCD01" "T152-PUBABCD01")
                (PublicAccount "PUBABCD01" "T152-PUBABCD01")
                eq_refl eq_refl eq_refl) as (r & Hr & _).
    rewrite Hr. vm_compute in Hr. injection Hr as <-. reflexivity.
Defined.

(** The addresses of the fresh run, as the old addresses of an upgrade. *)
Definition demoOldAddresses : Addresses.t :=
  Eval vm_compute in
    match demoFreshAddresses with
    | Some a => a
    | None => Addresses.mk 2 152%Z EmptyString None None None None
    end.

Lemma demoUpgradeRun :
  exists result w',
    demoGenerate "/root" (Some demoOldAddresses) (Some demoPreset) demoPreset []
    = inr (result, w').
Proof. do 2 eexists. vm_compute. reflexivity. Qed.

Lemma demo_shouldCreateNemesis :
  shouldCreateNemesis (fun _ => false) (fun _ => false) "/root" demoPreset = true.
Proof. reflexivity. Qed.

(** The upgrade of the demo run keeps the mosaics and the nemesis. *)
Lemma upgrade_reuses_nemesis_witness :
  exists addresses presetData' w',
    demoGenerate "/root" (Some demoOldAddresses) (Some demoPreset) demoPreset []
    = inr ((addresses, presetData'), w')
    /\ Addresses.mosaics addresses = Addresses.mosaics demoOldAddresses
    /\ ConfigPreset.nemesis presetData' = ConfigPreset.nemesis demoPreset
    /\ Forall (notFrom FreeAccount) w'.
Proof.
  destruct demoUpgradeRun as ([addresses presetData'] & w' & Hrun).
  exists addresses, presetData', w'.
  destruct (upgrade_reuses_nemesis demoPublicKeyOf demoAddressOf
              demoRandomPrivateKey demoSecurityMode demoNetworkIdentifier
              demoNetworkName (fun _ => false) (fun _ => false) demoRandomSeed
              demoMosaicIdOf demoPrompt "/root" demoOldAddresses
              (Some demoPreset) demoPreset [] addresses presetData' w'
              demo_shouldCreateNemesis Hrun)
    as (Hmosaics & (oldPreset & Hold & Hnemesis) & (draws & Hw & Hdraws)).
  injection Hold as <-. simpl in Hw. subst w'.
  repeat split; assumption.
Defined.

Lemma demoAddressOf_nonempty :
  forall nt pk, demoAddressOf nt pk <> EmptyString.
Proof. intros nt pk. unfold demoAddressOf. simpl. discriminate. Qed.

(** The fresh demo run draws one sink account and uses its address in the
    four places. *)
Lemma sink_address_shared_witness :
  exists addresses presetData' w' s,
    demoGenerate "/root" None None demoPreset [] = inr ((addresses, presetData'), w')
    /\ sinkView (addresses, presetData') = (Some s, Some s, Some s, Some s)
    /\ sinkDraws w' = 1.
Proof.
  destruct demoFreshRun as (addresses & presetData' & w' & Hrun & _).
  destruct (sink_address_shared demoPublicKeyOf demoAddressOf
              demoRandomPrivateKey demoSecurityMode demoNetworkIdentifier
              demoNetworkName (fun _ => false) (fun _ => false) demoRandomSeed
              demoMosaicIdOf demoPrompt demoAddressOf_nonempty
              "/root" None None demoPreset [] addresses presetData' w'
              eq_refl eq_refl eq_refl Hrun)
    as (s & draws & Hw & Hview & Hcase).
  exists addresses, presetData', w', s.
  simpl in Hw. subst w'. simpl in Hcase. destruct Hcase as [Hone _].
  repeat split; assumption.
Defined.

(** *** The instance again: stability, nodes, seed and mosaics *)

Lemma demoRandomPrivateKey_nonempty :
  forall n, demoRandomPrivateKey n <> EmptyString.
Proof. intros n. unfold demoRandomPrivateKey. simpl. discriminate. Qed.

Lemma append_cancel_l :
  forall a b c : string, (a ++ b)%string = (a ++ c)%string -> b = c.
Proof.
  induction a as [|x a IH]; intros b c H; simpl in H; [exact H|].
  injection H as H. exact (IH b c H).
Qed.

Lemma demoAddressOf_injective :
  forall nt p q, demoAddressOf nt p = demoAddressOf nt q -> p = q.
Proof.
  intros nt p q H. unfold demoAddressOf in H.
  apply append_cancel_l in H. apply append_cancel_l in H.
  apply append_cancel_l in H. exact H.
Qed.

(** A Main account drawn under [ENCRYPT] is given back under [PROMPT_ALL]:
    it is returned and nothing is drawn. *)
Lemma generateAccount_result_is_stable_witness :
  let account := ConfigAccount.mk (Some "5EED0") "PUB5EED0" "T152-PUB5EED0" in
  demoGenerateAccount 152%Z ENCRYPT Main None None None []
  = inr (account, [NewAccount (KeyAccount Main)])
  /\ demoGenerateAccount 152%Z PROMPT_ALL Main (Some account) None None []
     = inr (account, []).
Proof.
  split; [reflexivity|].
  exact (generateAccount_result_is_stable demoPublicKeyOf demoAddressOf
           demoRandomPrivateKey demoRandomPrivateKey_nonempty
           demoAddressOf_injective 152%Z ENCRYPT Main None None None []
           (ConfigAccount.mk (Some "5EED0") "PUB5EED0" "T152-PUB5EED0")
           [NewAccount (KeyAccount Main)] eq_refl PROMPT_ALL Main []).
Defined.

(** The accounts of the first node of the demo preset, a harvesting peer. *)
Definition demoNodeAccount : NodeAccount.t :=
  Eval vm_compute in
    match generateNodeAccount demoPublicKeyOf demoAddressOf demoRandomPrivateKey
            demoSecurityMode None demoPreset 0 (demoNode "node-a" true None)
            152%Z [] with
    | inr (node, _) => node
    | inl _ => NodeAccount.mk EmptyString EmptyString EmptyString None None None
                 None None
    end.

Lemma demoNodeAccountRun :
  exists w',
    generateNodeAccount demoPublicKeyOf demoAddressOf demoRandomPrivateKey
      demoSecurityMode None demoPreset 0 (demoNode "node-a" true None) 152%Z []
    = inr (demoNodeAccount, w').
Proof. eexists. vm_compute. reflexivity. Qed.

Lemma generateNodeAccount_accounts_witness :
  defined (NodeAccount.vrf demoNodeAccount) = true
  /\ defined (NodeAccount.remote demoNodeAccount) = false
  /\ NodeAccount.roles demoNodeAccount = "Peer".
Proof.
  destruct demoNodeAccountRun as (w' & Hrun).
  destruct (generateNodeAccount_accounts demoPublicKeyOf demoAddressOf
              demoRandomPrivateKey demoSecurityMode None demoPreset 0
              (demoNode "node-a" true None) 152%Z [] demoNodeAccount w' Hrun)
    as (_ & Hremote & Hvrf & _ & _ & Hroles & _).
  split; [exact Hvrf|]. split; [exact Hremote | exact Hroles].
Defined.

Lemma node_accounts_follow_preset_nodes_witness :
  exists addresses presetData' w' accounts,
    demoGenerate "/root" None None demoPreset []
    = inr ((addresses, presetData'), w')
    /\ ConfigPreset.nodes presetData' = ConfigPreset.nodes demoPreset
    /\ Addresses.nodes addresses = Some accounts
    /\ List.length accounts = 2.
Proof.
  destruct demoFreshRun as (addresses & presetData' & w' & Hrun & _).
  destruct (node_accounts_follow_preset_nodes demoPublicKeyOf demoAddressOf
              demoRandomPrivateKey demoSecurityMode demoNetworkIdentifier
              demoNetworkName (fun _ => false) (fun _ => false) demoRandomSeed
              demoMosaicIdOf demoPrompt "/root" None None demoPreset []
              addresses presetData' w' Hrun)
    as (Hnodes & accounts & Haccounts & Hlength & _).
  exists addresses, presetData', w', accounts.
  repeat split; assumption.
Defined.

(** The fresh demo run draws its seed first. *)
Lemma generation_hash_seed_is_kept_witness :
  exists addresses presetData' w',
    demoGenerate "/root" None None demoPreset []
    = inr ((addresses, presetData'), w')
    /\ Addresses.nemesisGenerationHashSeed addresses = demoRandomSeed 0
    /\ ConfigPreset.nemesisGenerationHashSeed presetData'
       = Some (Addresses.nemesisGenerationHashSeed addresses).
Proof.
  destruct demoFreshRun as (addresses & presetData' & w' & Hrun & _).
  destruct (generation_hash_seed_is_kept demoPublicKeyOf demoAddressOf
              demoRandomPrivateKey demoSecurityMode demoNetworkIdentifier
              demoNetworkName (fun _ => false) (fun _ => false) demoRandomSeed
              demoMosaicIdOf demoPrompt "/root" None None demoPreset []
              addresses presetData' w' Hrun)
    as (_ & _ & Hseed & Hpreset).
  exists addresses, presetData', w'.
  split; [exact Hrun|]. split; [exact Hseed | exact Hpreset].
Defined.

Lemma shouldCreateNemesis_after_run_witness :
  exists addresses presetData' w',
    demoGenerate "/root" None None demoPreset []
    = inr ((addresses, presetData'), w')
    /\ shouldCreateNemesis (fun _ => false) (fun _ => false) "/root" presetData'
       = true.
Proof.
  destruct demoFreshRun as (addresses & presetData' & w' & Hrun & _).
  exists addresses, presetData', w'. split; [exact Hrun|].
  exact (shouldCreateNemesis_after_run demoPublicKeyOf demoAddressOf
           demoRandomPrivateKey demoSecurityMode demoNetworkIdentifier
           demoNetworkName (fun _ => false) (fun _ => false) demoRandomSeed
           demoMosaicIdOf demoPrompt "/root" None None demoPreset []
           addresses presetData' w' (or_introl eq_refl) Hrun).
Defined.

(** The upgrade of the demo run without the old preset. *)
Lemma upgrade_needs_old_preset_witness :
  exists e,
    demoGenerate "/root" (Some demoOldAddresses) None demoPreset [] = inl e.
Proof.
  exact (upgrade_needs_old_preset demoPublicKeyOf demoAddressOf
           demoRandomPrivateKey demoSecurityMode demoNetworkIdentifier
           demoNetworkName (fun _ => false) (fun _ => false) demoRandomSeed
           demoMosaicIdOf demoPrompt "/root" demoOldAddresses demoPreset []
           demo_shouldCreateNemesis).
Defined.

(** The demo preset once its nemesis signer is known: two mosaics, so the
    harvesting mosaic is the second one. *)
Lemma resolveMosaicIds_defaults_witness :
  exists presetData',
    resolveMosaicIds demoAddressOf demoMosaicIdOf 152%Z
      (ConfigPreset.withNemesisSignerPublicKey "PUBAB" demoPreset)
    = inr ("T152-PUBAB", presetData')
    /\ ConfigPreset.currencyMosaicId presetData' = Some "MOSAIC0@T152-PUBAB"
    /\ ConfigPreset.harvestingMosaicId presetData' = Some "MOSAIC1@T152-PUBAB".
Proof.
  exact (resolveMosaicIds_defaults demoAddressOf demoMosaicIdOf 152%Z
           (ConfigPreset.withNemesisSignerPublicKey "PUBAB" demoPreset) "PUBAB"
           eq_refl eq_refl).
Defined.

Lemma fresh_run_mosaic_accounts_witness :
  exists addresses presetData' w' mosaicAccounts,
    demoGenerate "/root" None None demoPreset []
    = inr ((addresses, presetData'), w')
    /\ Addresses.mosaics addresses = Some mosaicAccounts
    /\ List.length mosaicAccounts = 2.
Proof.
  destruct demoFreshRun as (addresses & presetData' & w' & Hrun & _).
  destruct (fresh_run_mosaic_accounts demoPublicKeyOf demoAddressOf
              demoRandomPrivateKey demoSecurityMode demoNetworkIdentifier
              demoNetworkName (fun _ => false) (fun _ => false) demoRandomSeed
              demoMosaicIdOf demoPrompt "/root" None demoPreset []
              addresses presetData' w'
              (NemesisPreset.mk (Some demoMosaics) None) demoMosaics
              demo_shouldCreateNemesis Hrun eq_refl eq_refl)
    as (nt & pk & mosaicAccounts & _ & _ & Hmosaics & Hlength & _).
  exists addresses, presetData', w', mosaicAccounts.
  repeat split; assumption.
Defined.

Lemma fresh_run_keeps_mosaic_declarations_witness :
  exists addresses presetData' w' nemesis' ms',
    demoGenerate "/root" None None demoPreset []
    = inr ((addresses, presetData'), w')
    /\ ConfigPreset.nemesis presetData' = Some nemesis'
    /\ NemesisPreset.mosaics nemesis' = Some ms'
    /\ List.length ms' = 2.
Proof.
  destruct demoFreshRun as (addresses & presetData' & w' & Hrun & _).
  destruct (fresh_run_keeps_mosaic_declarations demoPublicKeyOf demoAddressOf
              demoRandomPrivateKey demoSecurityMode demoNetworkIdentifier
              demoNetworkName (fun _ => false) (fun _ => false) demoRandomSeed
              demoMosaicIdOf demoPrompt "/root" None demoPreset []
              addresses presetData' w'
              (NemesisPreset.mk (Some demoMosaics) None) demoMosaics
              demo_shouldCreateNemesis Hrun eq_refl eq_refl)
    as (nemesis' & ms' & Hnemesis & Hms & Hlength & _).
  exists addresses, presetData', w', nemesis', ms'.
  repeat split; assumption.
Defined.

(** A mosaic that declares a negative amount. *)
Definition demoNegativeMosaic : MosaicPreset.t :=
  MosaicPreset.mk "currency" 100 None (Some [Distribution.mk "TNEG" (-5)%Z]).

Lemma distributeMosaic_rejects_negative_amount_witness :
  exists message,
    distributeMosaic demoPreset [] 1 0 [] demoNegativeMosaic
    = inl (Error message).
Proof.
  apply (distributeMosaic_rejects_negative_amount demoPreset [] 1 0 []
           demoNegativeMosaic).
  apply Exists_cons_hd. simpl. reflexivity.
Defined.

(** A mosaic of supply 100 that declares 40: the free account takes 60. *)
Definition demoDeclaredMosaic : MosaicPreset.t :=
  MosaicPreset.mk "currency" 100 None (Some [Distribution.mk "TFIXED" 40%Z]).

Definition demoFreeAccount : ConfigAccount.t :=
  ConfigAccount.mk (Some "5EED0") "PUB5EED0" "T152-PUB5EED0".

Definition demoDistributed : MosaicPreset.t :=
  MosaicPreset.withCurrencyDistributions
    [Distribution.mk "T152-PUB5EED0" 60%Z; Distribution.mk "TFIXED" 40%Z]
    demoDeclaredMosaic.

Lemma demoDistribution :
  distributeMosaic demoPreset [] 1 0 [demoFreeAccount] demoDeclaredMosaic
  = inr demoDistributed.
Proof. vm_compute. reflexivity. Qed.

Lemma distributeMosaic_corrects_first_generated_witness :
  exists first others distributions,
    generatedAccounts [demoFreeAccount] [] ((100 - 40) / 1)%Z
      (effectiveMaxHarvesterBalance demoPreset 1 0) = first :: others
    /\ MosaicPreset.currencyDistributions demoDistributed = Some distributions
    /\ Forall (fun d => (0 < Distribution.amount d)%Z) distributions.
Proof.
  assert (Hsafe : (MosaicPreset.supply demoDeclaredMosaic
                   <= MAX_SAFE_INTEGER)%Z)
    by (vm_compute; intro H; discriminate H).
  destruct (distributeMosaic_corrects_first_generated demoPreset [] 1 0
              [demoFreeAccount] demoDeclaredMosaic demoDistributed
              Hsafe demoDistribution)
    as (first & others & distributions & Hgenerated & _ & Hd & _ & Hall).
  exists first, others, distributions.
  split; [exact Hgenerated|]. split; [exact Hd | exact Hall].
Defined.


(** An entry of a file of version 1: a [signing] account, an [ssl] account
    and the [node] account, whose key becomes the transport key. *)
Definition demoLegacyNode : LegacyNodeAddresses string :=
  mkLegacyNodeAddresses
    (Some (ConfigAccount.mk (Some "abcd02") "PUBABCD02" "T152-PUBABCD02"))
    (Some storedCanonical)
    (Some (ConfigAccount.mk (Some "ABCD03") "PUBABCD03" "T152-PUBABCD03"))
    None None "node-a".

Abbreviation demoMigrateNode :=
  (migrateNodeAddresses demoPublicKeyOf demoAddressOf demoRandomPrivateKey).

Lemma keyNamesMigration_node_witness :
  exists main transport w',
    demoMigrateNode 152%Z demoLegacyNode []
    = inr (mkLegacyNodeAddresses None None None main (Some transport) "node-a",
           w')
    /\ main = Some storedCanonical.
Proof.
  destruct (keyNamesMigration_node demoPublicKeyOf demoAddressOf
              demoRandomPrivateKey string 152%Z demoLegacyNode []
              ltac:(intros H; discriminate H))
    as (main & transport & w' & Hrun & Hmain & _).
  exists main, transport, w'. split; [exact Hrun | exact Hmain].
Defined.

(** The entry once migrated, and migrated again: the transport account of
    the key ABCD02 is lost. *)
Definition demoMigratedNode : LegacyNodeAddresses string :=
  mkLegacyNodeAddresses None None None (Some storedCanonical)
    (Some (ConfigAccount.mk (Some "ABCD02") "PUBABCD02" "T152-PUBABCD02"))
    "node-a".

Lemma keyNamesMigration_twice_witness :
  demoMigrateNode 152%Z demoLegacyNode [] = inr (demoMigratedNode, [])
  /\ demoMigrateNode 152%Z demoMigratedNode []
     = inr (mkLegacyNodeAddresses None None None (Some storedCanonical)
              (Some (ConfigAccount.mk (Some "5EED0") "PUB5EED0"
                       "T152-PUB5EED0"))
              "node-a",
            [NewAccount (KeyAccount Transport)]).
Proof.
  split; [reflexivity|].
  exact (keyNamesMigration_twice demoPublicKeyOf demoAddressOf
           demoRandomPrivateKey string 152%Z demoLegacyNode []
           demoMigratedNode [] eq_refl).
Defined.


Lemma nemesis_signer_is_recorded_witness :
  exists addresses presetData' w' signer,
    demoGenerate "/root" None None demoPreset []
    = inr ((addresses, presetData'), w')
    /\ Addresses.nemesisSigner addresses = Some signer
    /\ ConfigPreset.nemesisSignerPublicKey presetData'
       = Some (ConfigAccount.publicKey signer).
Proof.
  destruct demoFreshRun as (addresses & presetData' & w' & Hrun & _).
  destruct (nemesis_signer_is_recorded demoPublicKeyOf demoAddressOf
              demoRandomPrivateKey demoSecurityMode demoNetworkIdentifier
              demoNetworkName (fun _ => false) (fun _ => false) demoRandomSeed
              demoMosaicIdOf demoPrompt "/root" None None demoPreset []
              addresses presetData' w' demo_shouldCreateNemesis Hrun)
    as (signer & key & Hsigner & _ & Hpublic & _).
  exists addresses, presetData', w', signer.
  split; [exact Hrun|]. split; [exact Hsigner | exact Hpublic].
Defined.

(** The mosaic of supply 100 that declares 40, with one free account: the
    conditions hold and the free account takes 60. *)
Lemma distributeMosaic_succeeds_witness :
  distributeMosaic demoPreset [] 1 0 [demoFreeAccount] demoDeclaredMosaic
  = inr demoDistributed.
Proof.
  apply (distributeMosaic_succeeds demoPreset [] 1 0 demoFreeAccount []
           demoDeclaredMosaic).
  - vm_compute. intro H. discriminate H.
  - repeat constructor. vm_compute. intro H. discriminate H.
  - vm_compute. intro H. discriminate H.
  - vm_compute. intro H. discriminate H.
Defined.


End Loader.

(** ** YAML-shaped values *)

Module Js.

(** A value of a preset file: the JavaScript values that a YAML document
    or an in-memory preset object holds. A number is an integer. *)
#[warnings="-register-all"]
Inductive Value : Type :=
| VUndefined
| VNull
| VBool (b : bool)
| VNum (n : Z)
| VStr (s : string)
| VArr (items : list Value)
| VObj (fields : list (string * Value)).

(** An object: its own keys in insertion order, each key once. *)
Definition Obj : Type := list (string * Value).

Fixpoint lookup (key : string) (o : Obj) : option Value :=
  match o with
  | [] => None
  | (k, v) :: rest => if (k =? key)%string then Some v else lookup key rest
  end.

(** [o[key]], [undefined] when the key is absent. *)
Definition get (key : string) (o : Obj) : Value :=
  match lookup key o with Some v => v | None => VUndefined end.

(** [o[key] = v]: the key keeps its place, a new key goes last. *)
Fixpoint assign (key : string) (v : Value) (o : Obj) : Obj :=
  match o with
  | [] => [(key, v)]
  | (k, x) :: rest =>
      if (k =? key)%string then (k, v) :: rest else (k, x) :: assign key v rest
  end.

(** [{ ...a, ...b }]. *)
Definition spread (a b : Obj) : Obj :=
  fold_left (fun acc kv => assign (fst kv) (snd kv) acc) b a.

(** [_.omit(o, key)]. *)
Definition omit (key : string) (o : Obj) : Obj :=
  filter (fun kv => negb (fst kv =? key)%string) o.

(** [!v]. *)
Definition falsy (v : Value) : bool :=
  match v with
  | VUndefined | VNull | VBool false | VNum 0 | VStr EmptyString => true
  | _ => false
  end.

(** [_.isObject]: arrays are objects. *)
Definition isObject (v : Value) : bool :=
  match v with VArr _ | VObj _ => true | _ => false end.

(** The elements of an array under their index keys. *)
Fixpoint indexEntries (i : nat) (items : list Value) : Obj :=
  match items with
  | [] => []
  | v :: rest => (showNat i, v) :: indexEntries (S i) rest
  end.

(** The own enumerable properties of a value that is spread. *)
Definition entries (v : Value) : Obj :=
  match v with
  | VObj fields => fields
  | VArr items => indexEntries 0 items
  | _ => []
  end.

(** [_.isEmpty]: no own key, no element, no character; true of the other
    values. *)
Definition isEmpty (v : Value) : bool :=
  match v with
  | VObj [] | VArr [] | VStr EmptyString => true
  | VObj _ | VArr _ | VStr _ => false
  | _ => true
  end.

(** *** Lookup in assigned and spread objects *)

Lemma lookup_assign_same :
  forall key v o, lookup key (assign key v o) = Some v.
Proof.
  intros key v. induction o as [|[k x] o IH]; simpl.
  - rewrite String.eqb_refl. reflexivity.
  - destruct (k =? key)%string eqn:Hk; simpl; rewrite Hk;
      [reflexivity | exact IH].
Qed.

Lemma lookup_assign_other :
  forall key other v o,
    key <> other -> lookup other (assign key v o) = lookup other o.
Proof.
  intros key other v o Hne. induction o as [|[k x] o IH]; simpl.
  - apply String.eqb_neq in Hne. rewrite Hne. reflexivity.
  - destruct (k =? key)%string eqn:Hk; simpl.
    + apply String.eqb_eq in Hk. subst k.
      apply String.eqb_neq in Hne. rewrite Hne. reflexivity.
    + destruct (k =? other)%string; [reflexivity | exact IH].
Qed.

Lemma lookup_absent :
  forall key o, ~ In key (map fst o) -> lookup key o = None.
Proof.
  intros key. induction o as [|[k x] o IH]; intros Hnot; simpl; [reflexivity|].
  destruct (k =? key)%string eqn:Hk.
  - apply String.eqb_eq in Hk. exfalso. apply Hnot. left. exact Hk.
  - apply IH. intros Hin. apply Hnot. right. exact Hin.
Qed.

(** [{ ...a, ...b }[key]]: the field of [b], else the field of [a]. *)
Lemma lookup_spread :
  forall key b a,
    NoDup (map fst b) ->
    lookup key (spread a b)
    = match lookup key b with Some v => Some v | None => lookup key a end.
Proof.
  intros key. induction b as [|[k v] b IH]; intros a Hnodup; [reflexivity|].
  simpl in Hnodup. inversion Hnodup as [|? ? Hnotin Hrest]; subst.
  unfold spread. cbn [fold_left fst snd]. fold (spread (assign k v a) b).
  rewrite (IH _ Hrest). cbn [lookup].
  destruct (k =? key)%string eqn:Hk.
  - apply String.eqb_eq in Hk. subst k.
    rewrite (lookup_absent _ _ Hnotin). apply lookup_assign_same.
  - apply String.eqb_neq in Hk.
    rewrite (lookup_assign_other _ _ _ _ Hk). reflexivity.
Qed.

Lemma omit_absent :
  forall key o, lookup key o = None -> omit key o = o.
Proof.
  intros key. induction o as [|[k x] o IH]; intros H; simpl in *; [reflexivity|].
  destruct (k =? key)%string; [discriminate H|]. simpl.
  rewrite (IH H). reflexivity.
Qed.

Lemma lookup_omit_other :
  forall key other o,
    key <> other -> lookup other (omit key o) = lookup other o.
Proof.
  intros key other o Hne. induction o as [|[k x] o IH]; simpl; [reflexivity|].
  destruct (k =? key)%string eqn:Hk; simpl.
  - apply String.eqb_eq in Hk. subst k.
    apply String.eqb_neq in Hne. rewrite Hne. exact IH.
  - destruct (k =? other)%string; [reflexivity | exact IH].
Qed.

(** Solves [NoDup] and [~ In] goals on lists of literal keys. *)
Ltac literal_keys :=
  simpl;
  repeat match goal with
         | |- NoDup _ => constructor
         | |- ~ _ => let H := fresh "Hkey" in intro H; simpl in H
         | H : _ \/ _ |- _ => destruct H as [H|H]
         | H : False |- _ => destruct H
         | H : @eq string _ _ |- _ => discriminate H
         end.

(** Solves [In key l] on a list of literal keys that holds [key]. *)
Ltac literal_key_in :=
  simpl; repeat first [left; reflexivity | right].

(** *** Induction on values *)

Section ValueInduction.

Variable P : Value -> Prop.
Hypothesis onUndefined : P VUndefined.
Hypothesis onNull : P VNull.
Hypothesis onBool : forall b, P (VBool b).
Hypothesis onNum : forall n, P (VNum n).
Hypothesis onStr : forall s, P (VStr s).
Hypothesis onArr : forall items, Forall P items -> P (VArr items).
Hypothesis onObj :
  forall fields, Forall (fun kv => P (snd kv)) fields -> P (VObj fields).

Fixpoint Value_nested_ind (v : Value) : P v :=
  match v with
  | VUndefined => onUndefined
  | VNull => onNull
  | VBool b => onBool b
  | VNum n => onNum n
  | VStr s => onStr s
  | VArr items =>
      onArr items
        ((fix all (l : list Value) : Forall P l :=
            match l with
            | [] => Forall_nil P
            | x :: rest => Forall_cons x (Value_nested_ind x) (all rest)
            end) items)
  | VObj fields =>
      onObj fields
        ((fix all (l : list (string * Value))
            : Forall (fun kv => P (snd kv)) l :=
            match l with
            | [] => Forall_nil _
            | kv :: rest =>
                Forall_cons kv (Value_nested_ind (snd kv)) (all rest)
            end) fields)
  end.

End ValueInduction.


End Js.

(** ** The template expander and the repeat expansion *)

Module Template.

Import Js.

(** [map] over a list with a function that may throw: the first error in
    list order. *)
Definition mapR {A B} (f : A -> Res B) : list A -> Res (list B) :=
  fix go (l : list A) : Res (list B) :=
    match l with
    | [] => ok []
    | x :: rest =>
        andThen (f x) (fun y => andThen (go rest) (fun ys => ok (y :: ys)))
    end.

(** [_.flatMap] with a function that may throw. *)
Definition flatMapR {A B} (f : A -> Res (list B)) : list A -> Res (list B) :=
  fix go (l : list A) : Res (list B) :=
    match l with
    | [] => ok []
    | x :: rest =>
        andThen (f x) (fun ys => andThen (go rest) (fun zs => ok (ys ++ zs)))
    end.

(** [_.mapValues] on an object. *)
Definition mapValuesR (f : Value -> Res Value) : Obj -> Res Obj :=
  fix go (o : Obj) : Res Obj :=
    match o with
    | [] => ok []
    | kv :: rest =>
        andThen (f (snd kv))
          (fun v => andThen (go rest) (fun r => ok ((fst kv, v) :: r)))
    end.

(** [_.mapValues] on an array: an object keyed by the indexes. *)
Definition mapIndexedR (f : Value -> Res Value) : nat -> list Value -> Res Obj :=
  fix go (i : nat) (items : list Value) : Res Obj :=
    match items with
    | [] => ok []
    | v :: rest =>
        andThen (f v)
          (fun v' => andThen (go (S i) rest) (fun r => ok ((showNat i, v') :: r)))
    end.

(** [_.range(end)] on an integer: upwards from 0 to a positive end,
    downwards from 0 to a negative one. lodash allocates the result with
    [Array(length)], which throws for a length above 2^32 - 1. *)
Definition range (n : Z) : Res (list Z) :=
  if (4294967295 <? Z.abs n)%Z
  then inl (RangeError "Invalid array length")
  else ok (if (0 <? n)%Z then map Z.of_nat (seq 0 (Z.to_nat n))
           else map (fun i => (- Z.of_nat i)%Z) (seq 0 (Z.to_nat (- n)))).

(** [repeat === 0]. *)
Definition isZero (v : Value) : bool :=
  match v with VNum 0 => true | _ => false end.

Section Expander.

(** [BootstrapUtils.runTemplate] (missing from src) renders a template
    string against a context and throws on a template it cannot render;
    [toFinite] is lodash's conversion of a [repeat] that is not a number. *)
Variable runTemplate : string -> Obj -> Res string.
Variable toFinite : Value -> Z.

(** The argument of [_.range]: [repeat || 1], as a number. *)
Definition repeatCount (repeat : Value) : Z :=
  if falsy repeat then 1%Z
  else match repeat with VNum n => n | v => toFinite v end.

(** The context of copy [index]: [{ ...context, ...service, $index }]. *)
Definition copyContext (context : Obj) (service : Value) (index : Z) : Obj :=
  assign "$index" (VNum index) (spread context (entries service)).

(** The callback of [_.flatMap] in [expandServicesRepeat], over the
    function [expand] that expands a field of a copy. *)
Definition serviceCopies (expand : Obj -> Value -> Res Value) (context : Obj)
    (service : Value) : Res (list Value) :=
  match service with
  | VObj fields =>
      let repeat := get "repeat" fields in
      if isZero repeat then ok []
      else andThen (range (repeatCount repeat))
             (mapR
                (fun index =>
                   andThen (mapValuesR
                              (expand (copyContext context service index))
                              fields)
                     (fun copy => ok (VObj (omit "repeat" copy)))))
  | VArr items =>
      let repeat := get "repeat" (indexEntries 0 items) in
      if isZero repeat then ok []
      else andThen (range (repeatCount repeat))
             (mapR
                (fun index =>
                   andThen (mapIndexedR
                              (expand (copyContext context service index))
                              0 items)
                     (fun copy => ok (VObj (omit "repeat" copy)))))
  | _ => ok [service]
  end.

Fixpoint applyValueTemplate (context : Obj) (value : Value) {struct value}
  : Res Value :=
  if falsy value then ok value
  else match value with
       | VArr services =>
           andThen (flatMapR (serviceCopies applyValueTemplate context) services)
             (fun expanded => ok (VArr expanded))
       | VObj fields =>
           andThen (mapValuesR (applyValueTemplate (spread context fields)) fields)
             (fun mapped => ok (VObj mapped))
       | VStr template =>
           andThen (runTemplate template context) (fun s => ok (VStr s))
       | _ => ok value
       end.

Definition expandServicesRepeat (context : Obj) (services : list Value)
  : Res (list Value) :=
  flatMapR (serviceCopies applyValueTemplate context) services.

(** *** Properties of the repeat expansion *)

(** Copy [index] of an object service as the specification words it: every
    field expanded in the context extended by the service's own fields and
    [$index], then the [repeat] key removed. *)
Definition expandedCopy (context : Obj) (fields : Obj) (index : Z) : Res Value :=
  andThen
    (mapValuesR
       (applyValueTemplate
          (assign "$index" (VNum index) (spread context fields)))
       fields)
    (fun copy => ok (VObj (omit "repeat" copy))).

Lemma flatMapR_app :
  forall {A B} (f : A -> Res (list B)) xs ys,
    flatMapR f (xs ++ ys)
    = andThen (flatMapR f xs)
        (fun a => andThen (flatMapR f ys) (fun b => ok (a ++ b))).
Proof.
  intros A B f xs ys. induction xs as [|x xs IH]; simpl.
  - destruct (flatMapR f ys); reflexivity.
  - destruct (f x) as [e|fx]; simpl; [reflexivity|].
    rewrite IH. destruct (flatMapR f xs) as [e|a]; simpl; [reflexivity|].
    destruct (flatMapR f ys) as [e|b]; simpl; [reflexivity|].
    unfold ok. rewrite app_assoc. reflexivity.
Qed.

Lemma flatMapR_single :
  forall {A B} (f : A -> Res (list B)) x, flatMapR f [x] = f x.
Proof.
  intros A B f x. simpl. destruct (f x) as [e|ys]; simpl; [reflexivity|].
  unfold ok. rewrite app_nil_r. reflexivity.
Qed.

Lemma mapR_Forall2 :
  forall {A B} (f : A -> Res B) l out,
    mapR f l = inr out -> Forall2 (fun x y => f x = inr y) l out.
Proof.
  intros A B f. induction l as [|x l IH]; intros out H; simpl in H.
  - injection H as <-. constructor.
  - destruct (f x) as [e|y] eqn:Hx; simpl in H; [discriminate|].
    destruct (mapR f l) as [e|ys]; simpl in H; [discriminate|].
    injection H as <-. constructor; [exact Hx | apply IH; reflexivity].
Qed.

Lemma Forall2_nth_error :
  forall {A B} (R : A -> B -> Prop) l l',
    Forall2 R l l' ->
    forall i x y, nth_error l i = Some x -> nth_error l' i = Some y -> R x y.
Proof.
  intros A B R l l' H. induction H as [|a b l l' Hab Hrest IH]; intros i x y Hx Hy.
  - destruct i; discriminate.
  - destruct i as [|i]; simpl in *.
    + injection Hx as <-. injection Hy as <-. exact Hab.
    + apply (IH i x y Hx Hy).
Qed.

Lemma lookup_omit : forall key o, lookup key (omit key o) = None.
Proof.
  intros key. induction o as [|[k v] o IH]; simpl; [reflexivity|].
  destruct (k =? key)%string eqn:Hk; simpl; [exact IH|].
  rewrite Hk. exact IH.
Qed.

Lemma expandedCopy_shape :
  forall context fields index v,
    expandedCopy context fields index = inr v ->
    exists copy, v = VObj copy /\ lookup "repeat" copy = None.
Proof.
  intros context fields index v H. unfold expandedCopy in H.
  destruct (mapValuesR _ fields) as [e|copy]; simpl in H; [discriminate|].
  injection H as <-. eexists. split; [reflexivity | apply lookup_omit].
Qed.

Lemma range_positive :
  forall n,
    (1 <= n <= 4294967295)%Z ->
    range n = ok (map Z.of_nat (seq 0 (Z.to_nat n))).
Proof.
  intros n Hn. unfold range.
  destruct (4294967295 <? Z.abs n)%Z eqn:Hbig; [apply Z.ltb_lt in Hbig; lia|].
  destruct (0 <? n)%Z eqn:Hpos; [reflexivity|].
  apply Z.ltb_ge in Hpos. lia.
Qed.

(** What [range] returns for a positive end, when it returns. *)
Lemma range_inr_positive :
  forall n indexes,
    (1 <= n)%Z -> range n = inr indexes ->
    (n <= 4294967295)%Z /\ indexes = map Z.of_nat (seq 0 (Z.to_nat n)).
Proof.
  intros n indexes Hn H. unfold range in H.
  destruct (4294967295 <? Z.abs n)%Z eqn:Hbig; [discriminate H|].
  apply Z.ltb_ge in Hbig. split; [lia|].
  destruct (0 <? n)%Z eqn:Hpos; [|apply Z.ltb_ge in Hpos; lia].
  injection H as <-. reflexivity.
Qed.

Lemma serviceCopies_object :
  forall context fields,
    isZero (get "repeat" fields) = false ->
    serviceCopies applyValueTemplate context (VObj fields)
    = andThen (range (repeatCount (get "repeat" fields)))
        (mapR (expandedCopy context fields)).
Proof.
  intros context fields Hz. unfold serviceCopies. cbv zeta. rewrite Hz.
  reflexivity.
Qed.

(** C4. What each service entry contributes to [expandServicesRepeat]: the
    output is the concatenation of the contributions in list order; an
    object with [repeat: 0] contributes nothing; an object without a
    [repeat] key contributes its copy 0 alone; an object with [repeat: n],
    [n >= 1], contributes its copies 0 .. n-1 in that order, n entries when
    every copy renders, none of them with a [repeat] key. *)
Theorem expandServicesRepeat_contributions :
  forall context,
    (forall xs ys,
       expandServicesRepeat context (xs ++ ys)
       = andThen (expandServicesRepeat context xs)
           (fun a => andThen (expandServicesRepeat context ys)
                       (fun b => ok (a ++ b))))
    /\ (forall fields,
          get "repeat" fields = VNum 0 ->
          expandServicesRepeat context [VObj fields] = ok [])
    /\ (forall fields,
          lookup "repeat" fields = None ->
          expandServicesRepeat context [VObj fields]
          = andThen (expandedCopy context fields 0) (fun copy => ok [copy]))
    /\ (forall fields n,
          get "repeat" fields = VNum n -> (1 <= n)%Z ->
          ((n <= 4294967295)%Z ->
           expandServicesRepeat context [VObj fields]
           = mapR (expandedCopy context fields)
               (map Z.of_nat (seq 0 (Z.to_nat n))))
          /\ forall out,
               expandServicesRepeat context [VObj fields] = inr out ->
               List.length out = Z.to_nat n
               /\ forall i, (i < Z.to_nat n)%nat ->
                    exists copy,
                      nth_error out i = Some (VObj copy)
                      /\ expandedCopy context fields (Z.of_nat i)
                         = inr (VObj copy)
                      /\ lookup "repeat" copy = None).
Proof.
  intros context. unfold expandServicesRepeat.
  split; [|split; [|split]].
  - intros xs ys. apply flatMapR_app.
  - intros fields H0. rewrite flatMapR_single.
    unfold serviceCopies. cbv zeta. rewrite H0. reflexivity.
  - intros fields Hnone. rewrite flatMapR_single.
    assert (Hget : get "repeat" fields = VUndefined)
      by (unfold get; rewrite Hnone; reflexivity).
    rewrite serviceCopies_object by (rewrite Hget; reflexivity).
    rewrite Hget. change (range (repeatCount VUndefined)) with (ok [0%Z]).
    simpl.
    destruct (expandedCopy context fields 0); reflexivity.
  - intros fields n Hn Hpos. rewrite flatMapR_single.
    assert (Hcopies :
      serviceCopies applyValueTemplate context (VObj fields)
      = andThen (range n) (mapR (expandedCopy context fields))).
    { rewrite serviceCopies_object.
      - rewrite Hn. unfold repeatCount.
        assert (Hf : falsy (VNum n) = false) by (destruct n; [lia| |]; reflexivity).
        rewrite Hf. reflexivity.
      - rewrite Hn. destruct n; [lia| |]; reflexivity. }
    rewrite Hcopies. split.
    { intros Hmax. rewrite range_positive by lia. reflexivity. }
    intros out Hout.
    destruct (range n) as [e|indexes] eqn:Hrange; [discriminate Hout|].
    destruct (range_inr_positive _ _ Hpos Hrange) as [_ ->].
    cbn [andThen] in Hout.
    apply mapR_Forall2 in Hout.
    pose proof (Forall2_length Hout) as Hlen.
    rewrite length_map, length_seq in Hlen.
    split; [symmetry; exact Hlen|].
    intros i Hi.
    destruct (nth_error out i) as [v|] eqn:Hv.
    2:{ apply nth_error_None in Hv. lia. }
    assert (Hin : nth_error (map Z.of_nat (seq 0 (Z.to_nat n))) i
                  = Some (Z.of_nat i)).
    { rewrite nth_error_map, nth_error_seq.
      destruct (Nat.ltb_spec i (Z.to_nat n)); [reflexivity | lia]. }
    assert (Hcopy : expandedCopy context fields (Z.of_nat i) = inr v).
    { exact (Forall2_nth_error _ _ _ Hout i _ _ Hin Hv). }
    destruct (expandedCopy_shape _ _ _ _ Hcopy) as (copy & -> & Hno).
    exists copy. repeat split; [exact Hcopy | exact Hno].
Qed.

(** *** The entries of an expanded list *)

Lemma andThen_inr :
  forall {A B} (r : Res A) (k : A -> Res B) b,
    andThen r k = inr b -> exists a, r = inr a /\ k a = inr b.
Proof.
  intros A B [e|a] k b H; simpl in H; [discriminate H|].
  exists a. split; [reflexivity | exact H].
Qed.

Lemma Forall2_codomain :
  forall {A B} (R : A -> B -> Prop) (P : B -> Prop) l out,
    Forall2 R l out -> (forall x y, R x y -> P y) -> Forall P out.
Proof.
  intros A B R P l out H HP. induction H as [|x y l out Hxy _ IH].
  - constructor.
  - constructor; [exact (HP x y Hxy) | exact IH].
Qed.

(** An entry of an expanded list: an object without a [repeat] key, or an
    entry of the input that is not an object; never an array. *)
Definition expandedEntry (services : list Value) (v : Value) : Prop :=
  match v with
  | VObj copy => lookup "repeat" copy = None
  | VArr _ => False
  | _ => In v services
  end.

Lemma expandedEntry_incl :
  forall l l' v,
    (forall x, In x l -> In x l') -> expandedEntry l v -> expandedEntry l' v.
Proof. intros l l' [] Hincl H; simpl in *; auto. Qed.

Lemma serviceCopies_entries :
  forall expand context service out,
    serviceCopies expand context service = inr out ->
    Forall (expandedEntry [service]) out.
Proof.
  intros expand context service out H.
  assert (Hcopies : forall (f : Z -> Res Obj) indexes,
             mapR (fun index => andThen (f index)
                                  (fun copy => ok (VObj (omit "repeat" copy))))
               indexes = inr out ->
             Forall (expandedEntry [service]) out).
  { intros f indexes Hmap. apply mapR_Forall2 in Hmap.
    eapply Forall2_codomain; [exact Hmap|].
    intros index y Hy. cbv beta in Hy. apply andThen_inr in Hy.
    destruct Hy as (copy & _ & Hy). injection Hy as <-.
    simpl. apply lookup_omit. }
  destruct service as [| |b|n|s|items|fields]; unfold serviceCopies in H;
    try (injection H as <-; constructor; [left; reflexivity | constructor]).
  - cbv zeta in H. destruct (isZero _); [injection H as <-; constructor|].
    apply andThen_inr in H. destruct H as (indexes & _ & H).
    exact (Hcopies _ _ H).
  - cbv zeta in H. destruct (isZero _); [injection H as <-; constructor|].
    apply andThen_inr in H. destruct H as (indexes & _ & H).
    exact (Hcopies _ _ H).
Qed.

Lemma flatMapR_expandedEntry :
  forall context services out,
    expandServicesRepeat context services = inr out ->
    Forall (expandedEntry services) out.
Proof.
  intros context. unfold expandServicesRepeat.
  induction services as [|service services IH]; intros out H; simpl in H.
  - injection H as <-. constructor.
  - apply andThen_inr in H. destruct H as (copies & Hcopies & H).
    apply andThen_inr in H. destruct H as (rest & Hrest & H).
    injection H as <-. apply Forall_app. split.
    + apply serviceCopies_entries in Hcopies.
      eapply Forall_impl; [|exact Hcopies].
      intros v. apply expandedEntry_incl.
      intros x [<-|[]]. left. reflexivity.
    + eapply Forall_impl; [|exact (IH rest Hrest)].
      intros v. apply expandedEntry_incl.
      intros x Hin. right. exact Hin.
Qed.

(** X16. Every entry of a list that [expandServicesRepeat] returns is an
    object without a [repeat] key or an entry of the input that is not an
    object: the output holds no array, an array nested in the list comes
    out as an object keyed by its indexes. *)
Theorem expandServicesRepeat_entries :
  forall context services out,
    expandServicesRepeat context services = inr out ->
    Forall (expandedEntry services) out.
Proof. exact flatMapR_expandedEntry. Qed.

(** X17. A list without objects is returned as it is, whatever the
    renderer: a string that stands directly in a list is not rendered. *)
Theorem expandServicesRepeat_keeps_primitives :
  forall context services,
    Forall (fun v => isObject v = false) services ->
    expandServicesRepeat context services = ok services.
Proof.
  intros context services H. unfold expandServicesRepeat.
  induction H as [|service services Hservice _ IH]; [reflexivity|].
  simpl. rewrite IH.
  destruct service; try discriminate Hservice; reflexivity.
Qed.

Lemma range_negative :
  forall n, (- 4294967295 <= n < 0)%Z ->
    range n = ok (map (fun i => (- Z.of_nat i)%Z) (seq 0 (Z.to_nat (- n)))).
Proof.
  intros n Hn. unfold range.
  destruct (4294967295 <? Z.abs n)%Z eqn:Hbig; [apply Z.ltb_lt in Hbig; lia|].
  destruct (0 <? n)%Z eqn:Hpos; [|reflexivity].
  apply Z.ltb_lt in Hpos. lia.
Qed.

(** A negative [repeat: n] gives the copies of the indexes 0, -1,
    ..., n+1 in that order, [-n] entries when every copy renders: the
    [_.range] of a negative end counts downwards. *)
Theorem expandServicesRepeat_negative_repeat :
  forall context fields n,
    get "repeat" fields = VNum n -> (- 4294967295 <= n < 0)%Z ->
    expandServicesRepeat context [VObj fields]
    = mapR (expandedCopy context fields)
        (map (fun i => (- Z.of_nat i)%Z) (seq 0 (Z.to_nat (- n))))
    /\ forall out,
         expandServicesRepeat context [VObj fields] = inr out ->
         List.length out = Z.to_nat (- n).
Proof.
  intros context fields n Hn Hneg. unfold expandServicesRepeat.
  rewrite flatMapR_single.
  assert (Hcopies :
    serviceCopies applyValueTemplate context (VObj fields)
    = mapR (expandedCopy context fields)
        (map (fun i => (- Z.of_nat i)%Z) (seq 0 (Z.to_nat (- n))))).
  { rewrite serviceCopies_object.
    - rewrite Hn. unfold repeatCount.
      assert (Hf : falsy (VNum n) = false) by (destruct n; [lia| |]; reflexivity).
      rewrite Hf. rewrite range_negative by exact Hneg. reflexivity.
    - rewrite Hn. destruct n; [lia| |]; reflexivity. }
  split; [exact Hcopies|].
  intros out Hout. rewrite Hcopies in Hout. apply mapR_Forall2 in Hout.
  pose proof (Forall2_length Hout) as Hlen.
  rewrite length_map, length_seq in Hlen. symmetry. exact Hlen.
Qed.

(** X18. The context in which the fields of copy [index] of a service are
    expanded: [$index] is the index of the copy, whatever the service or the
    outer context hold under that key; any other key is the field of the
    service, as written and with its [repeat] key, else the field of the
    outer context. *)
Theorem copyContext_precedence :
  forall context fields index,
    NoDup (map fst fields) ->
    lookup "$index" (copyContext context (VObj fields) index)
    = Some (VNum index)
    /\ forall key,
         key <> "$index" ->
         lookup key (copyContext context (VObj fields) index)
         = match lookup key fields with
           | Some v => Some v
           | None => lookup key context
           end.
Proof.
  intros context fields index Hnodup. unfold copyContext. cbn [entries].
  split.
  - apply lookup_assign_same.
  - intros key Hkey. rewrite lookup_assign_other by congruence.
    apply lookup_spread. exact Hnodup.
Qed.

(** *** Values without templates *)

Section Plain.

(** The strings that the renderer returns as they are: in the source, the
    strings without a Handlebars expression. *)
Variable literal : string -> bool.
Hypothesis literal_renders :
  forall s context, literal s = true -> runTemplate s context = ok s.

(** An entry of a list that the expansion keeps: not an array, and an
    object only without a [repeat] key. *)
Definition keptEntry (v : Value) : bool :=
  match v with
  | VArr _ => false
  | VObj fields => match lookup "repeat" fields with None => true | Some _ => false end
  | _ => true
  end.

(** A value without templates, without [repeat] keys and without an array
    directly in an array. *)
Fixpoint plain (v : Value) : bool :=
  match v with
  | VStr s => literal s
  | VArr items => forallb (fun x => plain x && keptEntry x) items
  | VObj fields => forallb (fun kv => plain (snd kv)) fields
  | _ => true
  end.

Lemma applyValueTemplate_arr :
  forall context items,
    applyValueTemplate context (VArr items)
    = andThen (expandServicesRepeat context items)
        (fun expanded => ok (VArr expanded)).
Proof. reflexivity. Qed.

Lemma applyValueTemplate_obj :
  forall context fields,
    applyValueTemplate context (VObj fields)
    = andThen (mapValuesR (applyValueTemplate (spread context fields)) fields)
        (fun mapped => ok (VObj mapped)).
Proof. reflexivity. Qed.

Lemma mapValuesR_identity :
  forall (f : Value -> Res Value) fields,
    Forall (fun kv => f (snd kv) = ok (snd kv)) fields ->
    mapValuesR f fields = ok fields.
Proof.
  intros f fields H. induction H as [|[k v] fields Hkv _ IH]; [reflexivity|].
  simpl in *. rewrite Hkv. simpl. rewrite IH. reflexivity.
Qed.

(** What the induction carries: the value is returned as it is in every
    context, and so are the fields of an object in every context. *)
Definition unchanged (v : Value) : Prop :=
  plain v = true ->
  (forall context, applyValueTemplate context v = ok v)
  /\ match v with
     | VObj fields =>
         forall context,
           mapValuesR (applyValueTemplate context) fields = ok fields
     | _ => True
     end.

Lemma plain_unchanged : forall v, unchanged v.
Proof.
  apply Value_nested_ind; unfold unchanged.
  - intros _. split; [reflexivity | exact I].
  - intros _. split; [reflexivity | exact I].
  - intros b _. split; [intros context; destruct b; reflexivity | exact I].
  - intros n _. split; [intros context; destruct n; reflexivity | exact I].
  - intros s Hs. split; [|exact I]. intros context.
    destruct s as [|c s]; [reflexivity|].
    cbn [plain] in Hs. cbn [applyValueTemplate falsy].
    rewrite (literal_renders _ context Hs). reflexivity.
  - intros items IH Hplain. split; [|exact I]. intros context.
    rewrite applyValueTemplate_arr.
    assert (Hitems : expandServicesRepeat context items = ok items).
    { unfold expandServicesRepeat. cbn [plain] in Hplain.
      induction IH as [|x items Hx _ IHitems]; [reflexivity|].
      cbn [forallb] in Hplain. apply andb_prop in Hplain.
      destruct Hplain as [Hhead Htail]. apply andb_prop in Hhead.
      destruct Hhead as [Hpx Hkept].
      simpl flatMapR. rewrite (IHitems Htail).
      specialize (Hx Hpx). destruct Hx as [_ Hfields].
      destruct x as [| |b|n|s|nested|fields]; try reflexivity.
      - discriminate Hkept.
      - cbn [keptEntry] in Hkept.
        destruct (lookup "repeat" fields) eqn:Hrepeat; [discriminate Hkept|].
        assert (Hget : get "repeat" fields = VUndefined)
          by (unfold get; rewrite Hrepeat; reflexivity).
        rewrite serviceCopies_object by (rewrite Hget; reflexivity).
        rewrite Hget. unfold repeatCount. cbn [falsy].
        change (range 1) with (@inr Err (list Z) [0%Z]). cbn [andThen].
        unfold mapR, expandedCopy.
        rewrite Hfields. unfold ok. cbn [andThen app].
        rewrite (omit_absent _ _ Hrepeat). reflexivity. }
    rewrite Hitems. reflexivity.
  - intros fields IH Hplain. cbn [plain] in Hplain.
    assert (Hfields : forall context,
               mapValuesR (applyValueTemplate context) fields = ok fields).
    { intros context. apply mapValuesR_identity.
      rewrite forallb_forall in Hplain. apply Forall_forall.
      intros kv Hin. rewrite Forall_forall in IH.
      exact (proj1 (IH kv Hin (Hplain kv Hin)) context). }
    split; [|exact Hfields]. intros context.
    rewrite applyValueTemplate_obj, Hfields. reflexivity.
Qed.

(** X19. A value without templates is a fixed point of the expansion:
    when every string in it is one the renderer returns as it is, no object
    in a list has a [repeat] key and no array stands directly in an array,
    [applyValueTemplate] returns the value unchanged in every context. *)
Theorem applyValueTemplate_plain :
  forall v context,
    plain v = true -> applyValueTemplate context v = ok v.
Proof.
  intros v context Hplain.
  exact (proj1 (plain_unchanged v Hplain) context).
Qed.

End Plain.

(** *** Errors come from the renderer and from the length of a range *)

Section Total.

Hypothesis renders : forall s context, exists r, runTemplate s context = inr r.

(** A result that is a value or the [RangeError] of [_.range]. *)
Definition rangeErrorOnly {A} (r : Res A) : Prop :=
  match r with
  | inr _ => True
  | inl e => e = RangeError "Invalid array length"
  end.

Lemma rangeErrorOnly_andThen :
  forall {A B} (r : Res A) (k : A -> Res B),
    rangeErrorOnly r -> (forall a, rangeErrorOnly (k a)) ->
    rangeErrorOnly (andThen r k).
Proof.
  intros A B [e|a] k Hr Hk; simpl; [exact Hr | apply Hk].
Qed.

Lemma rangeErrorOnly_ok : forall {A} (a : A), rangeErrorOnly (ok a).
Proof. intros A a. exact I. Qed.

Lemma rangeErrorOnly_range : forall n, rangeErrorOnly (range n).
Proof.
  intros n. unfold range. destruct (4294967295 <? Z.abs n)%Z;
    [reflexivity | exact I].
Qed.

Lemma mapR_rangeErrorOnly :
  forall {A B} (f : A -> Res B) l,
    (forall x, rangeErrorOnly (f x)) -> rangeErrorOnly (mapR f l).
Proof.
  intros A B f l Hf. induction l as [|x l IH]; simpl; [exact I|].
  apply rangeErrorOnly_andThen; [apply Hf|]. intros y.
  apply rangeErrorOnly_andThen; [exact IH|]. intros ys. exact I.
Qed.

Lemma flatMapR_rangeErrorOnly :
  forall {A B} (f : A -> Res (list B)) l,
    Forall (fun x => rangeErrorOnly (f x)) l -> rangeErrorOnly (flatMapR f l).
Proof.
  intros A B f l H. induction H as [|x l Hx _ IH]; simpl; [exact I|].
  apply rangeErrorOnly_andThen; [exact Hx|]. intros ys.
  apply rangeErrorOnly_andThen; [exact IH|]. intros zs. exact I.
Qed.

Lemma mapValuesR_rangeErrorOnly :
  forall (f : Value -> Res Value) fields,
    Forall (fun kv => rangeErrorOnly (f (snd kv))) fields ->
    rangeErrorOnly (mapValuesR f fields).
Proof.
  intros f fields H. induction H as [|kv fields Hkv _ IH]; simpl; [exact I|].
  apply rangeErrorOnly_andThen; [exact Hkv|]. intros v.
  apply rangeErrorOnly_andThen; [exact IH|]. intros r. exact I.
Qed.

Lemma mapIndexedR_rangeErrorOnly :
  forall (f : Value -> Res Value) items i,
    Forall (fun v => rangeErrorOnly (f v)) items ->
    rangeErrorOnly (mapIndexedR f i items).
Proof.
  intros f items i H. revert i.
  induction H as [|v items Hv _ IH]; intros i; simpl; [exact I|].
  apply rangeErrorOnly_andThen; [exact Hv|]. intros v'.
  apply rangeErrorOnly_andThen; [apply IH|]. intros r. exact I.
Qed.

(** What the first induction carries: in every context the value expands
    or the expansion throws the [RangeError], and so do the fields of an
    object and the elements of an array. *)
Definition expands (v : Value) : Prop :=
  (forall context, rangeErrorOnly (applyValueTemplate context v))
  /\ match v with
     | VObj fields =>
         forall context,
           rangeErrorOnly (mapValuesR (applyValueTemplate context) fields)
     | VArr items =>
         forall context i,
           rangeErrorOnly (mapIndexedR (applyValueTemplate context) i items)
     | _ => True
     end.

Lemma serviceCopies_rangeErrorOnly :
  forall context service,
    expands service ->
    rangeErrorOnly (serviceCopies applyValueTemplate context service).
Proof.
  intros context service [_ Hparts].
  destruct service as [| |b|n|s|items|fields]; unfold serviceCopies;
    try exact I; cbv zeta;
    (destruct (isZero _); [exact I|]);
    (apply rangeErrorOnly_andThen; [apply rangeErrorOnly_range|]);
    intros indexes; apply mapR_rangeErrorOnly; intros index;
    (apply rangeErrorOnly_andThen; [apply Hparts|]); intros copy; exact I.
Qed.

Lemma every_value_expands : forall v, expands v.
Proof.
  apply Value_nested_ind; unfold expands.
  - split; [intros context; exact I | exact I].
  - split; [intros context; exact I | exact I].
  - intros b. split; [intros context; destruct b; exact I | exact I].
  - intros n. split; [intros context; destruct n; exact I | exact I].
  - intros s. split; [|exact I]. intros context.
    destruct s as [|c s]; [exact I|].
    cbn [applyValueTemplate falsy].
    destruct (renders (String c s) context) as [r ->]. exact I.
  - intros items IH. split.
    + intros context. rewrite applyValueTemplate_arr.
      apply rangeErrorOnly_andThen; [|intros expanded; exact I].
      unfold expandServicesRepeat. apply flatMapR_rangeErrorOnly.
      eapply Forall_impl; [|exact IH].
      intros x Hx. apply serviceCopies_rangeErrorOnly. exact Hx.
    + intros context i. apply mapIndexedR_rangeErrorOnly.
      eapply Forall_impl; [|exact IH].
      intros v [Hv _]. exact (Hv context).
  - intros fields IH.
    assert (Hfields : forall context,
               rangeErrorOnly (mapValuesR (applyValueTemplate context) fields)).
    { intros context. apply mapValuesR_rangeErrorOnly.
      eapply Forall_impl; [|exact IH].
      intros kv [Hkv _]. exact (Hkv context). }
    split; [|exact Hfields]. intros context.
    rewrite applyValueTemplate_obj.
    apply rangeErrorOnly_andThen; [apply Hfields|]. intros mapped. exact I.
Qed.

(** The [repeat] of an object in a list is one that [_.range] accepts. *)
Definition repeatInRange (service : Value) : bool :=
  match service with
  | VObj fields =>
      isZero (get "repeat" fields)
      || (Z.abs (repeatCount (get "repeat" fields)) <=? 4294967295)%Z
  | _ => true
  end.

(** A value in which every [repeat] is one that [_.range] accepts. *)
Fixpoint repeatsInRange (v : Value) : bool :=
  match v with
  | VArr items => forallb (fun x => repeatsInRange x && repeatInRange x) items
  | VObj fields => forallb (fun kv => repeatsInRange (snd kv)) fields
  | _ => true
  end.

Lemma mapR_total :
  forall {A B} (f : A -> Res B) l,
    (forall x, exists y, f x = inr y) -> exists ys, mapR f l = inr ys.
Proof.
  intros A B f l Hf. induction l as [|x l [ys IH]]; simpl.
  - eexists. reflexivity.
  - destruct (Hf x) as [y ->]. rewrite IH. eexists. reflexivity.
Qed.

Lemma mapValuesR_total :
  forall (f : Value -> Res Value) fields,
    Forall (fun kv => exists r, f (snd kv) = inr r) fields ->
    exists mapped, mapValuesR f fields = inr mapped.
Proof.
  intros f fields H. induction H as [|kv fields [r Hr] _ [mapped IH]]; simpl.
  - eexists. reflexivity.
  - rewrite Hr, IH. eexists. reflexivity.
Qed.

Lemma mapIndexedR_total :
  forall (f : Value -> Res Value) items i,
    Forall (fun v => exists r, f v = inr r) items ->
    exists mapped, mapIndexedR f i items = inr mapped.
Proof.
  intros f items i H. revert i.
  induction H as [|v items [r Hr] _ IH]; intros i; simpl.
  - eexists. reflexivity.
  - rewrite Hr. destruct (IH (S i)) as [mapped ->]. eexists. reflexivity.
Qed.

(** The keys of an array are its indexes: none is [repeat]. *)
Lemma showNat_not_repeat : forall n, showNat n <> "repeat".
Proof.
  intros n. unfold showNat. destruct (Nat.to_uint n); simpl; discriminate.
Qed.

Lemma lookup_indexEntries_repeat :
  forall items i, lookup "repeat" (indexEntries i items) = None.
Proof.
  induction items as [|v items IH]; intros i; simpl; [reflexivity|].
  destruct (showNat i =? "repeat")%string eqn:Hk.
  - apply String.eqb_eq in Hk. destruct (showNat_not_repeat i Hk).
  - apply IH.
Qed.

Lemma range_in_range :
  forall n, (Z.abs n <=? 4294967295)%Z = true ->
    exists indexes, range n = inr indexes.
Proof.
  intros n Hn. unfold range. apply Z.leb_le in Hn.
  destruct (4294967295 <? Z.abs n)%Z eqn:Hbig; [apply Z.ltb_lt in Hbig; lia|].
  eexists. reflexivity.
Qed.

(** What the second induction carries. *)
Definition returns (v : Value) : Prop :=
  repeatsInRange v = true ->
  (forall context, exists r, applyValueTemplate context v = inr r)
  /\ match v with
     | VObj fields =>
         forall context,
           exists r, mapValuesR (applyValueTemplate context) fields = inr r
     | VArr items =>
         forall context i,
           exists r, mapIndexedR (applyValueTemplate context) i items = inr r
     | _ => True
     end.

Lemma serviceCopies_total :
  forall context service,
    returns service -> repeatsInRange service = true ->
    repeatInRange service = true ->
    exists copies, serviceCopies applyValueTemplate context service = inr copies.
Proof.
  intros context service Hreturns Hin Hrepeat.
  destruct (Hreturns Hin) as [_ Hparts].
  destruct service as [| |b|n|s|items|fields]; unfold serviceCopies;
    try (eexists; reflexivity); cbv zeta.
  - unfold get. rewrite lookup_indexEntries_repeat.
    change (range (repeatCount VUndefined)) with (ok [0%Z]).
    cbn [isZero andThen].
    apply mapR_total. intros index.
    destruct (Hparts (copyContext context (VArr items) index) 0%nat) as [r ->].
    eexists. reflexivity.
  - cbn [repeatInRange] in Hrepeat.
    destruct (isZero (get "repeat" fields)); [eexists; reflexivity|].
    cbn [orb] in Hrepeat.
    destruct (range_in_range _ Hrepeat) as [indexes ->]. cbn [andThen].
    apply mapR_total. intros index.
    destruct (Hparts (copyContext context (VObj fields) index)) as [r ->].
    eexists. reflexivity.
Qed.

Lemma every_value_returns : forall v, returns v.
Proof.
  apply Value_nested_ind; unfold returns.
  - intros _. split; [intros context; eexists; reflexivity | exact I].
  - intros _. split; [intros context; eexists; reflexivity | exact I].
  - intros b _.
    split; [intros context; destruct b; eexists; reflexivity | exact I].
  - intros n _.
    split; [intros context; destruct n; eexists; reflexivity | exact I].
  - intros s _. split; [|exact I]. intros context.
    destruct s as [|c s]; [eexists; reflexivity|].
    cbn [applyValueTemplate falsy].
    destruct (renders (String c s) context) as [r ->]. eexists. reflexivity.
  - intros items IH Hin. cbn [repeatsInRange] in Hin.
    rewrite forallb_forall in Hin. rewrite Forall_forall in IH. split.
    + intros context. rewrite applyValueTemplate_arr.
      assert (Hitems : exists out, expandServicesRepeat context items = inr out).
      { unfold expandServicesRepeat.
        assert (Hall : forall x, In x items ->
                   exists copies,
                     serviceCopies applyValueTemplate context x = inr copies).
        { intros x Hx. specialize (Hin x Hx). apply andb_prop in Hin.
          destruct Hin as [Hx1 Hx2].
          exact (serviceCopies_total context x (IH x Hx) Hx1 Hx2). }
        clear IH Hin. induction items as [|x items IHitems]; simpl.
        - eexists. reflexivity.
        - destruct (Hall x (or_introl eq_refl)) as [copies ->].
          destruct IHitems as [rest ->].
          + intros y Hy. apply Hall. right. exact Hy.
          + eexists. reflexivity. }
      destruct Hitems as [out ->]. eexists. reflexivity.
    + intros context i. apply mapIndexedR_total. apply Forall_forall.
      intros v Hv. specialize (Hin v Hv). apply andb_prop in Hin.
      exact (proj1 (IH v Hv (proj1 Hin)) context).
  - intros fields IH Hin. cbn [repeatsInRange] in Hin.
    rewrite forallb_forall in Hin. rewrite Forall_forall in IH.
    assert (Hfields : forall context,
               exists r, mapValuesR (applyValueTemplate context) fields = inr r).
    { intros context. apply mapValuesR_total. apply Forall_forall.
      intros kv Hkv. exact (proj1 (IH kv Hkv (Hin kv Hkv)) context). }
    split; [|exact Hfields]. intros context.
    rewrite applyValueTemplate_obj.
    destruct (Hfields (spread context fields)) as [r ->].
    eexists. reflexivity.
Qed.

(** X20. With a renderer that renders every string, the expansion throws
    nothing but the [RangeError] of a [repeat] that [_.range] cannot
    allocate: [applyValueTemplate] and [expandServicesRepeat] return, or
    throw that error; and they return whenever every [repeat] of an object
    in a list is 0 or between -(2^32 - 1) and 2^32 - 1. *)
Theorem expansion_fails_only_in_renderer :
  forall context,
    (forall v,
       rangeErrorOnly (applyValueTemplate context v)
       /\ (repeatsInRange v = true ->
           exists r, applyValueTemplate context v = inr r))
    /\ (forall services,
          rangeErrorOnly (expandServicesRepeat context services)
          /\ (repeatsInRange (VArr services) = true ->
              exists out, expandServicesRepeat context services = inr out)).
Proof.
  intros context. split.
  - intros v. split.
    + exact (proj1 (every_value_expands v) context).
    + intros Hin. exact (proj1 (every_value_returns v Hin) context).
  - intros services. split.
    + pose proof (proj1 (every_value_expands (VArr services)) context) as Hr.
      rewrite applyValueTemplate_arr in Hr.
      destruct (expandServicesRepeat context services) as [e|out];
        [exact Hr | exact I].
    + intros Hin.
      destruct (proj1 (every_value_returns (VArr services) Hin) context)
        as [r Hr].
      rewrite applyValueTemplate_arr in Hr. apply andThen_inr in Hr.
      destruct Hr as (out & Hout & _). exists out. exact Hout.
Qed.

End Total.

End Expander.

(** A renderer that knows one template, to run the expander. *)
Definition demoRunTemplate (template : string) (context : Obj) : Res string :=
  if (template =? "n-{{$index}}")%string
  then match get "$index" context with
       | VNum i => ok ("n-" ++ showZ i)%string
       | _ => inl (Error "Unknown error rendering template")
       end
  else ok template.

(** The scenario of the specification: [{repeat: 2, name: "n-{{$index}}"}]
    expands to [{name: "n-0"}, {name: "n-1"}]. *)
Lemma expandServicesRepeat_contributions_witness :
  expandServicesRepeat demoRunTemplate (fun _ => 0%Z) []
    [VObj [("repeat", VNum 2); ("name", VStr "n-{{$index}}")]]
  = ok [VObj [("name", VStr "n-0")]; VObj [("name", VStr "n-1")]].
Proof.
  destruct (expandServicesRepeat_contributions demoRunTemplate (fun _ => 0%Z) [])
    as (_ & _ & _ & Hrepeat).
  destruct (Hrepeat [("repeat", VNum 2); ("name", VStr "n-{{$index}}")] 2%Z
              eq_refl ltac:(lia)) as [Hcopies _].
  rewrite (Hcopies ltac:(lia)). vm_compute. reflexivity.
Defined.

Abbreviation demoExpand :=
  (expandServicesRepeat demoRunTemplate (fun _ => 0%Z)).

(** A list with a repeated object, a string and a nested array. *)
Definition demoServices : list Value :=
  [VObj [("repeat", VNum 2); ("name", VStr "n-{{$index}}")];
   VStr "n-{{$index}}";
   VArr [VNum 7]].

Definition demoExpanded : list Value :=
  [VObj [("name", VStr "n-0")]; VObj [("name", VStr "n-1")];
   VStr "n-{{$index}}";
   VObj [("0", VNum 7)]].

Lemma demoExpansion : demoExpand [] demoServices = inr demoExpanded.
Proof. vm_compute. reflexivity. Qed.

Lemma expandServicesRepeat_entries_witness :
  Forall (expandedEntry demoServices) demoExpanded.
Proof.
  exact (expandServicesRepeat_entries demoRunTemplate (fun _ => 0%Z) []
           demoServices demoExpanded demoExpansion).
Defined.

(** A list of a template string and a number: the string is not rendered. *)
Lemma expandServicesRepeat_keeps_primitives_witness :
  demoExpand [("$index", VNum 5)] [VStr "n-{{$index}}"; VNum 3]
  = ok [VStr "n-{{$index}}"; VNum 3].
Proof.
  apply (expandServicesRepeat_keeps_primitives demoRunTemplate (fun _ => 0%Z)).
  repeat constructor.
Defined.

Lemma expandServicesRepeat_negative_repeat_witness :
  demoExpand [] [VObj [("repeat", VNum (-2)); ("name", VStr "n-{{$index}}")]]
  = ok [VObj [("name", VStr "n-0")]; VObj [("name", VStr "n--1")]].
Proof.
  destruct (expandServicesRepeat_negative_repeat demoRunTemplate
              (fun _ => 0%Z) []
              [("repeat", VNum (-2)); ("name", VStr "n-{{$index}}")] (-2)%Z
              eq_refl ltac:(lia)) as [Hcopies _].
  rewrite Hcopies. vm_compute. reflexivity.
Defined.

(** A service that has its own [$index] and [host] in a context that has
    a [host] and a [domain]. *)
Lemma copyContext_precedence_witness :
  let context := [("host", VStr "outer"); ("domain", VStr "example.org")] in
  let fields := [("$index", VNum 9); ("host", VStr "inner")] in
  lookup "$index" (copyContext context (VObj fields) 1) = Some (VNum 1)
  /\ lookup "host" (copyContext context (VObj fields) 1) = Some (VStr "inner")
  /\ lookup "domain" (copyContext context (VObj fields) 1)
     = Some (VStr "example.org").
Proof.
  intros context fields.
  assert (Hnodup : NoDup (map fst fields)).
  { literal_keys. }
  destruct (copyContext_precedence context fields 1 Hnodup) as [Hindex Hother].
  split; [exact Hindex|]. split.
  - exact (Hother "host" ltac:(discriminate)).
  - exact (Hother "domain" ltac:(discriminate)).
Defined.

(** The strings that are not the template of the demo renderer. *)
Definition demoLiteral (s : string) : bool :=
  negb (s =? "n-{{$index}}")%string.

Lemma demoLiteral_renders :
  forall s context, demoLiteral s = true -> demoRunTemplate s context = ok s.
Proof.
  intros s context H. unfold demoLiteral in H. unfold demoRunTemplate.
  destruct (s =? "n-{{$index}}")%string; [discriminate H | reflexivity].
Qed.

(** A preset fragment without templates. *)
Definition demoPlain : Value :=
  VObj [("nodes", VArr [VObj [("name", VStr "node-a"); ("api", VBool true)];
                        VStr "literal"]);
        ("maxHarvesterBalance", VNum 100)].

Lemma applyValueTemplate_plain_witness :
  applyValueTemplate demoRunTemplate (fun _ => 0%Z) [("x", VNum 1)] demoPlain
  = ok demoPlain.
Proof.
  exact (applyValueTemplate_plain demoRunTemplate (fun _ => 0%Z) demoLiteral
           demoLiteral_renders demoPlain [("x", VNum 1)] eq_refl).
Defined.

(** A renderer that renders every string: it returns the template. *)
Definition demoEcho (template : string) (context : Obj) : Res string :=
  ok template.

Lemma demoEcho_renders :
  forall s context, exists r, demoEcho s context = inr r.
Proof. intros s context. exists s. reflexivity. Qed.

(** The demo list expands; with [repeat: 4294967296] nothing but the
    [RangeError] comes out. *)
Lemma expansion_fails_only_in_renderer_witness :
  (exists out,
     expandServicesRepeat demoEcho (fun _ => 0%Z) [] demoServices = inr out)
  /\ rangeErrorOnly
       (expandServicesRepeat demoEcho (fun _ => 0%Z) []
          [VObj [("repeat", VNum 4294967296)]])
  /\ expandServicesRepeat demoEcho (fun _ => 0%Z) []
       [VObj [("repeat", VNum 4294967296)]]
     = inl (RangeError "Invalid array length").
Proof.
  split; [|split].
  - exact (proj2 (proj2 (expansion_fails_only_in_renderer demoEcho
                           (fun _ => 0%Z) demoEcho_renders [])
                    demoServices) eq_refl).
  - exact (proj1 (proj2 (expansion_fails_only_in_renderer demoEcho
                           (fun _ => 0%Z) demoEcho_renders [])
                    [VObj [("repeat", VNum 4294967296)]])).
  - reflexivity.
Defined.


End Template.

(** ** The preset merger *)

Module Presets.

Import Js.

Section Merge.

(** lodash's [_.merge] keeps a destination array when the source value is a
    plain object and sets the source's keys on the array itself; [Value]
    has no such array, so that result is a parameter. *)
Variable mergeOntoArray : list Value -> Obj -> Value.

(** The value that [_.merge] leaves under a key: [objValue] is the value of
    the destination ([None] when the key is absent), [srcValue] the value of
    the source. Arrays merge index by index, objects key by key, an
    [undefined] source keeps what the destination has, any other source
    value replaces it. *)
Fixpoint mergeValue (objValue : option Value) (srcValue : Value)
    {struct srcValue} : Value :=
  match srcValue with
  | VArr srcItems =>
      let mergeItems :=
        fix mergeItems (src : list Value) (dst : list Value) : list Value :=
          match src with
          | [] => dst
          | s :: srcRest =>
              match dst with
              | d :: dstRest => mergeValue (Some d) s :: mergeItems srcRest dstRest
              | [] => mergeValue None s :: mergeItems srcRest []
              end
          end in
      VArr (mergeItems srcItems
              (match objValue with Some (VArr items) => items | _ => [] end))
  | VObj srcFields =>
      let mergeFields :=
        fix mergeFields (src : Obj) (dst : Obj) : Obj :=
          match src with
          | [] => dst
          | kv :: srcRest =>
              mergeFields srcRest
                (assign (fst kv) (mergeValue (lookup (fst kv) dst) (snd kv)) dst)
          end in
      match objValue with
      | Some (VObj fields) => VObj (mergeFields srcFields fields)
      | Some (VArr items) => mergeOntoArray items srcFields
      | _ => VObj (mergeFields srcFields [])
      end
  | VUndefined =>
      match objValue with Some v => v | None => VUndefined end
  | _ => srcValue
  end.

(** [baseMerge(object, source)] on two objects. *)
Fixpoint baseMerge (object source : Obj) : Obj :=
  match source with
  | [] => object
  | kv :: rest =>
      baseMerge
        (assign (fst kv) (mergeValue (lookup (fst kv) object) (snd kv)) object)
        rest
  end.

(** [_.merge({}, ...sources)]: an [undefined] source is skipped. *)
Definition merge (sources : list (option Obj)) : Obj :=
  fold_left
    (fun object source =>
       match source with
       | Some fields => baseMerge object fields
       | None => object
       end)
    sources [].

(** The test [p?.inflation] of the [find]. *)
Definition definesInflation (p : option Obj) : bool :=
  match p with
  | Some fields => negb (falsy (get "inflation" fields))
  | None => false
  end.

(** [presets.reverse().find((p) => p?.inflation)?.inflation || {}]. *)
Definition chosenInflation (presets : list (option Obj)) : Value :=
  match find definesInflation (rev presets) with
  | Some (Some fields) => get "inflation" fields
  | _ => VObj []
  end.

(** [mergePresets]: the first [reverse] reverses [presets] in place and the
    second one restores the order, so the layers merge in the given order. *)
Definition mergePresets (object : option Obj) (otherArgs : list (option Obj))
  : Obj :=
  let presets := object :: otherArgs in
  let inflation := chosenInflation presets in
  let presetData := merge presets in
  if negb (isEmpty inflation) then assign "inflation" inflation presetData
  else presetData.

(** *** Properties of [mergePresets] *)

Lemma lookup_assign :
  forall key v o, lookup key (assign key v o) = Some v.
Proof.
  intros key v. induction o as [|[k x] o IH]; simpl.
  - rewrite String.eqb_refl. reflexivity.
  - destruct (k =? key)%string eqn:Hk; simpl; rewrite Hk; [reflexivity | exact IH].
Qed.

Lemma find_skip :
  forall {A} (f : A -> bool) l x rest,
    Forall (fun y => f y = false) l -> f x = true ->
    find f (l ++ x :: rest) = Some x.
Proof.
  intros A f l x rest Hl Hx. induction Hl as [|y l Hy _ IH]; simpl.
  - rewrite Hx. reflexivity.
  - rewrite Hy. exact IH.
Qed.

Lemma find_last :
  forall {A} (f : A -> bool) before x after,
    f x = true -> Forall (fun y => f y = false) after ->
    find f (rev (before ++ x :: after)) = Some x.
Proof.
  intros A f before x after Hx Hafter.
  rewrite rev_app_distr. simpl. rewrite <- app_assoc. simpl.
  apply find_skip; [apply Forall_rev; exact Hafter | exact Hx].
Qed.

Lemma find_none :
  forall {A} (f : A -> bool) l,
    Forall (fun y => f y = false) l -> find f l = None.
Proof.
  intros A f l H. induction H as [|y l Hy _ IH]; simpl; [reflexivity|].
  rewrite Hy. exact IH.
Qed.

(** The chosen inflation when the last layer that defines one is known. *)
Lemma chosenInflation_last :
  forall before fields after,
    falsy (get "inflation" fields) = false ->
    Forall (fun layer => definesInflation layer = false) after ->
    chosenInflation (before ++ Some fields :: after) = get "inflation" fields.
Proof.
  intros before fields after Htruthy Hafter. unfold chosenInflation.
  rewrite (find_last definesInflation before (Some fields) after).
  - reflexivity.
  - simpl. rewrite Htruthy. reflexivity.
  - exact Hafter.
Qed.

(** The chosen inflation when no layer defines one: the [{}] of [|| {}]. *)
Lemma chosenInflation_none :
  forall presets,
    Forall (fun layer => definesInflation layer = false) presets ->
    chosenInflation presets = VObj [].
Proof.
  intros presets H. unfold chosenInflation.
  rewrite (find_none definesInflation (rev presets)); [reflexivity|].
  apply Forall_rev. exact H.
Qed.

(** C5 (amended). Let a layer be the most specific one that defines an
    inflation. When its inflation is not empty, the merged preset carries
    exactly that inflation: no key of a less specific layer is merged into
    it. When its inflation is empty, and also when no layer defines an
    inflation, the result is the plain deep merge of the layers, inflation
    included. *)
Theorem mergePresets_inflation :
  forall object otherArgs,
    (forall before fields after inflation,
       object :: otherArgs = before ++ Some fields :: after ->
       get "inflation" fields = inflation ->
       falsy inflation = false ->
       Forall (fun layer => definesInflation layer = false) after ->
       (isEmpty inflation = false ->
        lookup "inflation" (mergePresets object otherArgs) = Some inflation)
       /\ (isEmpty inflation = true ->
           mergePresets object otherArgs = merge (object :: otherArgs)))
    /\ (Forall (fun layer => definesInflation layer = false)
          (object :: otherArgs) ->
        mergePresets object otherArgs = merge (object :: otherArgs)).
Proof.
  intros object otherArgs. split.
  - intros before fields after inflation Hlayers <- Htruthy Hafter.
    unfold mergePresets. rewrite Hlayers.
    rewrite (chosenInflation_last before fields after Htruthy Hafter).
    split; intros Hempty; rewrite Hempty; simpl.
    + apply lookup_assign.
    + reflexivity.
  - intros Hnone. unfold mergePresets.
    rewrite (chosenInflation_none _ Hnone). reflexivity.
Qed.

(** *** The precedence of the layers *)

(** A value that replaces what the destination has: not an object, not an
    array, not [undefined]. *)
Definition scalar (v : Value) : bool :=
  match v with
  | VNull | VBool _ | VNum _ | VStr _ => true
  | _ => false
  end.

Lemma mergeValue_scalar :
  forall objValue v, scalar v = true -> mergeValue objValue v = v.
Proof. intros objValue [] H; try discriminate H; reflexivity. Qed.

(** Two objects merge by [baseMerge]. *)
Lemma mergeValue_objects :
  forall srcFields,
    (forall fields,
       mergeValue (Some (VObj fields)) (VObj srcFields)
       = VObj (baseMerge fields srcFields))
    /\ mergeValue None (VObj srcFields) = VObj (baseMerge [] srcFields).
Proof.
  intros srcFields.
  assert (H : forall fields,
             mergeValue (Some (VObj fields)) (VObj srcFields)
             = VObj (baseMerge fields srcFields)).
  { intros fields. cbn [mergeValue]. f_equal. revert fields.
    induction srcFields as [|kv srcFields IH]; intros fields; [reflexivity|].
    cbn [baseMerge]. rewrite <- IH. reflexivity. }
  split; [exact H|].
  cbn [mergeValue]. f_equal.
  specialize (H []). cbn [mergeValue] in H. injection H as H. exact H.
Qed.

Lemma lookup_baseMerge_absent :
  forall source object key,
    ~ In key (map fst source) ->
    lookup key (baseMerge object source) = lookup key object.
Proof.
  induction source as [|[k x] source IH]; intros object key Hnot;
    [reflexivity|].
  cbn [baseMerge fst snd]. rewrite IH.
  - apply lookup_assign_other. intros Heq. apply Hnot. left. exact Heq.
  - intros Hin. apply Hnot. right. exact Hin.
Qed.

Lemma lookup_baseMerge_present :
  forall source object key v,
    NoDup (map fst source) ->
    lookup key source = Some v ->
    lookup key (baseMerge object source)
    = Some (mergeValue (lookup key object) v).
Proof.
  induction source as [|[k x] source IH]; intros object key v Hnodup Hv;
    [discriminate Hv|].
  simpl in Hnodup. inversion Hnodup as [|? ? Hnotin Hrest]; subst.
  cbn [baseMerge fst snd]. cbn [lookup] in Hv.
  destruct (k =? key)%string eqn:Hk.
  - apply String.eqb_eq in Hk. subst k. injection Hv as ->.
    rewrite (lookup_baseMerge_absent _ _ _ Hnotin). apply lookup_assign_same.
  - apply String.eqb_neq in Hk. rewrite (IH _ _ _ Hrest Hv).
    rewrite (lookup_assign_other _ _ _ _ Hk). reflexivity.
Qed.

(** A layer that does not have the key. *)
Definition silentOn (key : string) (layer : option Obj) : Prop :=
  match layer with
  | Some fields => ~ In key (map fst fields)
  | None => True
  end.

Lemma lookup_layers_silent :
  forall key layers object,
    Forall (silentOn key) layers ->
    lookup key
      (fold_left
         (fun object source =>
            match source with
            | Some fields => baseMerge object fields
            | None => object
            end) layers object)
    = lookup key object.
Proof.
  intros key layers object H. revert object.
  induction H as [|layer layers Hlayer _ IH]; intros object; [reflexivity|].
  cbn [fold_left]. rewrite IH.
  destruct layer as [fields|]; [|reflexivity].
  apply lookup_baseMerge_absent. exact Hlayer.
Qed.

(** X21. A scalar that a layer gives to a key other than [inflation],
    when no more specific layer has the key, is the value of the key in the
    merged preset, whatever the less specific layers hold: the custom preset
    wins over the assembly, the assembly over the network, the network over
    the shared preset. *)
Theorem mergePresets_scalar_precedence :
  forall object otherArgs before fields after key v,
    object :: otherArgs = before ++ Some fields :: after ->
    NoDup (map fst fields) ->
    lookup key fields = Some v ->
    scalar v = true ->
    Forall (silentOn key) after ->
    key <> "inflation" ->
    lookup key (mergePresets object otherArgs) = Some v.
Proof.
  intros object otherArgs before fields after key v Hlayers Hnodup Hv Hscalar
    Hafter Hkey.
  unfold mergePresets. cbv zeta.
  assert (Hmerge : lookup key (merge (object :: otherArgs)) = Some v).
  { rewrite Hlayers. unfold merge. rewrite fold_left_app. cbn [fold_left].
    rewrite (lookup_layers_silent key after _ Hafter).
    rewrite (lookup_baseMerge_present _ _ _ _ Hnodup Hv).
    rewrite (mergeValue_scalar _ _ Hscalar). reflexivity. }
  match goal with |- context [if ?b then _ else _] => destruct b end;
    [|exact Hmerge].
  rewrite lookup_assign_other by congruence. exact Hmerge.
Qed.

(** X22. Two layers that give an object to a key other than
    [inflation]: the merged preset has an object under the key, in which a
    scalar field of the more specific layer is kept, and a scalar field of
    the less specific layer is kept when the more specific object does not
    have it. Objects merge field by field, where [inflation] is replaced. *)
Theorem mergePresets_merges_objects :
  forall lower upper key lowerFields upperFields,
    key <> "inflation" ->
    NoDup (map fst lower) -> NoDup (map fst upper) ->
    NoDup (map fst lowerFields) -> NoDup (map fst upperFields) ->
    lookup key lower = Some (VObj lowerFields) ->
    lookup key upper = Some (VObj upperFields) ->
    exists merged,
      lookup key (mergePresets (Some lower) [Some upper]) = Some (VObj merged)
      /\ (forall field v,
            lookup field upperFields = Some v -> scalar v = true ->
            lookup field merged = Some v)
      /\ (forall field v,
            lookup field lowerFields = Some v -> scalar v = true ->
            ~ In field (map fst upperFields) ->
            lookup field merged = Some v).
Proof.
  intros lower upper key lowerFields upperFields Hkey Hlower Hupper
    HlowerFields HupperFields Hl Hu.
  exists (baseMerge (baseMerge [] lowerFields) upperFields).
  split; [|split].
  - unfold mergePresets. cbv zeta.
    assert (Hmerge : lookup key (merge [Some lower; Some upper])
                     = Some (VObj (baseMerge (baseMerge [] lowerFields)
                                     upperFields))).
    { unfold merge. cbn [fold_left].
      rewrite (lookup_baseMerge_present _ _ _ _ Hupper Hu).
      rewrite (lookup_baseMerge_present _ _ _ _ Hlower Hl).
      cbn [lookup].
      rewrite (proj2 (mergeValue_objects lowerFields)).
      rewrite (proj1 (mergeValue_objects upperFields)). reflexivity. }
    match goal with |- context [if ?b then _ else _] => destruct b end;
      [|exact Hmerge].
    rewrite lookup_assign_other by congruence. exact Hmerge.
  - intros field v Hv Hscalar.
    rewrite (lookup_baseMerge_present _ _ _ _ HupperFields Hv).
    rewrite (mergeValue_scalar _ _ Hscalar). reflexivity.
  - intros field v Hv Hscalar Hnot.
    rewrite (lookup_baseMerge_absent _ _ _ Hnot).
    rewrite (lookup_baseMerge_present _ _ _ _ HlowerFields Hv).
    rewrite (mergeValue_scalar _ _ Hscalar). reflexivity.
Qed.


End Merge.

(** The layers [A = {inflation: {a: 1, b: 2}, x: 1}] and
    [B = {inflation: {a: 5}}]: the inflation of [B] wins whole. With
    [B = {inflation: {}}] the result is the plain merge, and so it is
    without any inflation. *)
Lemma mergePresets_inflation_witness :
  lookup "inflation"
    (mergePresets (fun items _ => VArr items)
       (Some [("inflation", VObj [("a", VNum 1); ("b", VNum 2)]); ("x", VNum 1)])
       [Some [("inflation", VObj [("a", VNum 5)])]; None])
  = Some (VObj [("a", VNum 5)])
  /\ mergePresets (fun items _ => VArr items)
       (Some [("inflation", VObj [("a", VNum 1)])])
       [Some [("inflation", VObj [])]]
     = merge (fun items _ => VArr items)
         [Some [("inflation", VObj [("a", VNum 1)])];
          Some [("inflation", VObj [])]]
  /\ mergePresets (fun items _ => VArr items) (Some [("x", VNum 1)]) [None]
     = merge (fun items _ => VArr items) [Some [("x", VNum 1)]; None].
Proof.
  split; [|split].
  - apply (proj1 (mergePresets_inflation (fun items _ => VArr items)
             (Some [("inflation", VObj [("a", VNum 1); ("b", VNum 2)]);
                    ("x", VNum 1)])
             [Some [("inflation", VObj [("a", VNum 5)])]; None])
             [Some [("inflation", VObj [("a", VNum 1); ("b", VNum 2)]);
                    ("x", VNum 1)]]
             [("inflation", VObj [("a", VNum 5)])]
             [None]
             (VObj [("a", VNum 5)])
             eq_refl eq_refl eq_refl).
    + repeat constructor.
    + reflexivity.
  - apply (proj1 (mergePresets_inflation (fun items _ => VArr items)
             (Some [("inflation", VObj [("a", VNum 1)])])
             [Some [("inflation", VObj [])]])
             [Some [("inflation", VObj [("a", VNum 1)])]]
             [("inflation", VObj [])]
             []
             (VObj [])
             eq_refl eq_refl eq_refl).
    + constructor.
    + reflexivity.
  - apply (proj2 (mergePresets_inflation (fun items _ => VArr items)
             (Some [("x", VNum 1)]) [None])).
    repeat constructor.
Defined.

(** C5 as stated fails: with [A = {inflation: {a: 1}}] and
    [B = {inflation: {}}], the most specific layer that defines an inflation
    map is [B], and the result carries the key of [A]. *)
Lemma empty_inflation_is_merged :
  chosenInflation
    [Some [("inflation", VObj [("a", VNum 1)])]; Some [("inflation", VObj [])]]
  = VObj []
  /\ lookup "inflation"
       (mergePresets (fun items _ => VArr items)
          (Some [("inflation", VObj [("a", VNum 1)])])
          [Some [("inflation", VObj [])]])
     = Some (VObj [("a", VNum 1)])
  /\ VObj [("a", VNum 1)] <> VObj [].
Proof.
  split; [|split].
  - reflexivity.
  - vm_compute. reflexivity.
  - intro H. discriminate H.
Qed.

(** Four layers: the assembly sets [maxHarvesterBalance], the custom
    preset does not; the value of the assembly wins over the network's. *)
Lemma mergePresets_scalar_precedence_witness :
  lookup "maxHarvesterBalance"
    (mergePresets (fun items _ => VArr items)
       (Some [("maxHarvesterBalance", VNum 1)])
       [Some [("maxHarvesterBalance", VNum 2); ("api", VBool true)];
        Some [("maxHarvesterBalance", VNum 3)];
        Some [("api", VBool false)]])
  = Some (VNum 3).
Proof.
  apply (mergePresets_scalar_precedence (fun items _ => VArr items)
           (Some [("maxHarvesterBalance", VNum 1)])
           [Some [("maxHarvesterBalance", VNum 2); ("api", VBool true)];
            Some [("maxHarvesterBalance", VNum 3)];
            Some [("api", VBool false)]]
           [Some [("maxHarvesterBalance", VNum 1)];
            Some [("maxHarvesterBalance", VNum 2); ("api", VBool true)]]
           [("maxHarvesterBalance", VNum 3)]
           [Some [("api", VBool false)]]
           "maxHarvesterBalance" (VNum 3) eq_refl).
  - literal_keys.
  - reflexivity.
  - reflexivity.
  - repeat constructor. literal_keys.
  - discriminate.
Defined.

(** Two layers that both set the object [database]. *)
Lemma mergePresets_merges_objects_witness :
  exists merged,
    lookup "database"
      (mergePresets (fun items _ => VArr items)
         (Some [("database", VObj [("host", VStr "db"); ("port", VNum 27017)])])
         [Some [("database", VObj [("port", VNum 27018)])]])
    = Some (VObj merged)
    /\ lookup "port" merged = Some (VNum 27018)
    /\ lookup "host" merged = Some (VStr "db").
Proof.
  destruct (mergePresets_merges_objects (fun items _ => VArr items)
              [("database", VObj [("host", VStr "db"); ("port", VNum 27017)])]
              [("database", VObj [("port", VNum 27018)])]
              "database"
              [("host", VStr "db"); ("port", VNum 27017)]
              [("port", VNum 27018)]
              ltac:(discriminate)
              ltac:(literal_keys) ltac:(literal_keys) ltac:(literal_keys)
              ltac:(literal_keys)
              eq_refl eq_refl)
    as (merged & Hmerged & Hupper & Hlower).
  exists merged. split; [exact Hmerged|]. split.
  - exact (Hupper "port" (VNum 27018) eq_refl eq_refl).
  - apply (Hlower "host" (VStr "db") eq_refl eq_refl).
    literal_keys.
Defined.


End Presets.

(** ** Preset resolution: [createPresetData] *)

Module Resolution.

Import Js.

(** The characters of a string, as lodash and the spread syntax see them. *)
Definition chars (s : string) : list Value :=
  map (fun c => VStr (String c EmptyString)) (list_ascii_of_string s).

(** What [_.map] and [_.flatMap] iterate: the elements of an array, the
    values of an object, the characters of a string, nothing of any other
    value. *)
Definition collection (v : Value) : list Value :=
  match v with
  | VArr items => items
  | VObj fields => map snd fields
  | VStr s => chars s
  | _ => []
  end.

(** The own enumerable properties that [{ ...v }] copies. *)
Definition spreadEntries (v : Value) : Obj :=
  match v with
  | VObj fields => fields
  | VArr items => indexEntries 0 items
  | VStr s => indexEntries 0 (chars s)
  | _ => []
  end.

(** [a || b]. *)
Definition orValue (a b : Value) : Value := if falsy a then b else a.

(** [v.key]: reading a property of [undefined] or [null] throws. *)
Definition readField (key : string) (v : Value) : Res Value :=
  match v with
  | VUndefined =>
      inl (TypeError
             ("Cannot read properties of undefined (reading '" ++ key ++ "')"))
  | VNull =>
      inl (TypeError
             ("Cannot read properties of null (reading '" ++ key ++ "')"))
  | VObj fields => ok (get key fields)
  | VArr items => ok (get key (indexEntries 0 items))
  | _ => ok VUndefined
  end.

(** [o?.key] on an optional object. *)
Definition field (key : string) (o : option Obj) : Value :=
  match o with Some fields => get key fields | None => VUndefined end.

Definition ofString (s : option string) : Value :=
  match s with Some s => VStr s | None => VUndefined end.

(** A value as a source of [_.merge]: [undefined] and [null] are skipped,
    an array and a string give their indexes, any other value has no key. *)
Definition layerOf (v : Value) : option Obj :=
  match v with
  | VUndefined | VNull => None
  | v => Some (spreadEntries v)
  end.

(** The three tables of [getDefaultConfiguration]. *)
Definition dualDefaults : Obj :=
  [("syncsource", VBool true); ("filespooling", VBool true);
   ("partialtransaction", VBool true); ("addressextraction", VBool true);
   ("mongo", VBool true); ("zeromq", VBool true);
   ("enableAutoSyncCleanup", VBool false)].

Definition apiDefaults : Obj :=
  [("syncsource", VBool false); ("filespooling", VBool true);
   ("partialtransaction", VBool true); ("addressextraction", VBool true);
   ("mongo", VBool true); ("zeromq", VBool true);
   ("enableAutoSyncCleanup", VBool false)].

Definition peerDefaults : Obj :=
  [("syncsource", VBool true); ("filespooling", VBool false);
   ("partialtransaction", VBool false); ("addressextraction", VBool false);
   ("mongo", VBool false); ("zeromq", VBool false);
   ("enableAutoSyncCleanup", VBool true)].

Definition getDefaultConfiguration (node : Value) : Res Obj :=
  andThen (readField "harvesting" node) (fun harvesting =>
  andThen (readField "api" node) (fun api =>
  if negb (falsy harvesting) && negb (falsy api) then ok dualDefaults
  else if negb (falsy api) then ok apiDefaults
  else ok peerDefaults)).

Definition dynamicDefaultNodeConfiguration (nodes : Value) : Res (list Value) :=
  Template.mapR
    (fun node =>
       andThen (getDefaultConfiguration node)
         (fun defaults => ok (VObj (spread defaults (spreadEntries node)))))
    (collection (orValue nodes (VArr []))).

Section Resolve.

(** The renderer and the conversion of the template expander, the
    parameter of the merger, and the file system: [existsSync],
    [BootstrapUtils.isYmlFile] and [BootstrapUtils.loadYaml] (missing from
    src) with its password applied; a preset file holds a mapping. *)
Variable runTemplate : string -> Obj -> Res string.
Variable toFinite : Value -> Z.
Variable mergeOntoArray : list Value -> Obj -> Value.
Variable existsSync : string -> bool.
Variable isYmlFile : string -> bool.
Variable loadYaml : string -> Res Obj.

(** [expandServicesRepeat(context, presetData.key || [])]. *)
Definition expandList (presetData : Obj) (key : string) : Res (list Value) :=
  Template.expandServicesRepeat runTemplate toFinite presetData
    (collection (orValue (get key presetData) (VArr []))).

(** The object literal of [expandRepeat]: the spread, then the seven
    fields in order. *)
Definition expandRepeat (presetData : Obj) : Res Obj :=
  andThen (expandList presetData "databases") (fun databases =>
  andThen (expandList presetData "nodes") (fun nodes =>
  andThen (expandList presetData "gateways") (fun gateways =>
  andThen (expandList presetData "explorers") (fun explorers =>
  andThen (expandList presetData "wallets") (fun wallets =>
  andThen (expandList presetData "faucets") (fun faucets =>
  andThen (Template.applyValueTemplate runTemplate toFinite presetData
             (get "nemesis" presetData)) (fun nemesis =>
  ok (spread presetData
        [("databases", VArr databases); ("nodes", VArr nodes);
         ("gateways", VArr gateways); ("explorers", VArr explorers);
         ("wallets", VArr wallets); ("faucets", VArr faucets);
         ("nemesis", nemesis)])))))))).

Definition loadCustomPreset (customPreset : option string) : Res Obj :=
  match customPreset with
  | Some file =>
      if truthy customPreset
      then if existsSync file then loadYaml file
           else inl (KnownError
                       ("Custom preset '" ++ file
                        ++ "' doesn't exist. Have you provided the right --customPreset <customPrestFileLocation> ?"))
      else ok []
  | None => ok []
  end.

Definition loadAssembly (root preset assembly : string) : Res Obj :=
  if isYmlFile assembly
  then if existsSync assembly then loadYaml assembly
       else inl (KnownError
                   ("Assembly '" ++ assembly
                    ++ "' does not exist. Have you provided the right --preset <preset> --assembly <assembly> ?"))
  else
    let fileLocation :=
      (root ++ "/presets/assemblies/assembly-" ++ assembly ++ ".yml")%string in
    if existsSync fileLocation then loadYaml fileLocation
    else inl (KnownError
                ("Assembly '" ++ assembly ++ "' is not valid for preset '"
                 ++ preset
                 ++ "'. Have you provided the right --preset <preset> --assembly <assembly> ?")).

Definition loadNetworkPreset (root preset : string) : Res Obj :=
  let missing :=
    KnownError
      ("Preset '" ++ preset
       ++ "' does not exist. Have you provided the right --preset <preset>") in
  if isYmlFile preset
  then if existsSync preset then loadYaml preset else inl missing
  else
    let bundledPreset := (root ++ "/presets/" ++ preset ++ "/network.yml")%string in
    if existsSync bundledPreset then loadYaml bundledPreset else inl missing.

Definition loadSharedPreset (root : string) : Res Obj :=
  loadYaml (join (join root "presets") "shared.yml").

(** The parameters of [createPresetData]; the password goes to [loadYaml]. *)
Record Params : Type := mkParams {
  root : string;
  preset : option string;
  assembly : option string;
  customPreset : option string;
  customPresetObject : option Obj;
  oldPresetData : option Obj
}.

(** The name of a preset or of an assembly, which the loaders take as a
    string: a name that is not a string is outside the types of the source,
    and the embedding throws where [isYmlFile] would read it. *)
Definition nameOf (v : Value) : Res string :=
  match v with
  | VStr s => ok s
  | _ => inl (TypeError "string.toLowerCase is not a function")
  end.

(** [params.preset || params.customPresetObject?.preset ||
    customPresetFileObject?.preset || oldPresetData?.preset]. *)
Definition resolvedPreset (params : Params) (customPresetFileObject : Obj)
  : Value :=
  orValue (ofString (preset params))
    (orValue (field "preset" (customPresetObject params))
       (orValue (get "preset" customPresetFileObject)
          (field "preset" (oldPresetData params)))).

(** The same for the assembly, with [Assembly.dual] last. *)
Definition resolvedAssembly (params : Params) (customPresetFileObject : Obj)
  : Value :=
  orValue (ofString (assembly params))
    (orValue (field "assembly" (customPresetObject params))
       (orValue (get "assembly" customPresetFileObject)
          (orValue (field "assembly" (oldPresetData params)) (VStr "dual")))).

(** [_.isEmpty(providedCustomPreset) ? oldPresetData?.customPresetCache || {}
    : providedCustomPreset]. *)
Definition resolvedCustomPreset (params : Params) (customPresetFileObject : Obj)
  : Value :=
  let providedCustomPreset :=
    Presets.mergePresets mergeOntoArray (Some customPresetFileObject)
      [customPresetObject params] in
  if isEmpty (VObj providedCustomPreset)
  then orValue (field "customPresetCache" (oldPresetData params)) (VObj [])
  else VObj providedCustomPreset.

(** [createPresetData]. The informational log lines and their once-only
    flag are left out. *)
Definition createPresetData (params : Params) : Res Obj :=
  andThen (loadCustomPreset (customPreset params)) (fun customPresetFileObject =>
  let preset := resolvedPreset params customPresetFileObject in
  if falsy preset
  then inl (KnownError
              "Preset value could not be resolved from target folder contents. Please provide the --preset parameter.")
  else
  let assembly := resolvedAssembly params customPresetFileObject in
  andThen (loadSharedPreset (root params)) (fun sharedPreset =>
  andThen (nameOf preset) (fun presetName =>
  andThen (loadNetworkPreset (root params) presetName) (fun networkPreset =>
  andThen (nameOf assembly) (fun assemblyName =>
  andThen (loadAssembly (root params) presetName assemblyName)
    (fun assemblyPreset =>
  let resolvedCustom := resolvedCustomPreset params customPresetFileObject in
  let presetData :=
    Presets.mergePresets mergeOntoArray (Some sharedPreset)
      [Some networkPreset; Some assemblyPreset; layerOf resolvedCustom] in
  andThen (dynamicDefaultNodeConfiguration (get "nodes" presetData))
    (fun nodes =>
  expandRepeat
    (spread presetData
       [("version", VNum 1); ("preset", preset);
        ("assembly", orValue assembly (VStr EmptyString));
        ("nodes", VArr nodes); ("customPresetCache", resolvedCustom)])))))))).

(** *** Properties of the resolution *)

Lemma truthy_Some_nonempty :
  forall s, s <> EmptyString -> truthy (Some s) = true.
Proof. intros [|c s] H; [congruence | reflexivity]. Qed.


(** The six lists of services that [expandRepeat] expands. *)
Definition expandedKeys : list string :=
  ["databases"; "nodes"; "gateways"; "explorers"; "wallets"; "faucets"].

Lemma expandRepeat_inr :
  forall presetData result,
    expandRepeat presetData = inr result ->
    (forall key,
       In key expandedKeys ->
       exists out,
         expandList presetData key = inr out
         /\ lookup key result = Some (VArr out))
    /\ (forall key,
          ~ In key ("nemesis" :: expandedKeys) ->
          lookup key result = lookup key presetData).
Proof.
  intros presetData result H. unfold expandRepeat in H.
  apply Template.andThen_inr in H. destruct H as (databases & Hd & H).
  apply Template.andThen_inr in H. destruct H as (nodes & Hn & H).
  apply Template.andThen_inr in H. destruct H as (gateways & Hg & H).
  apply Template.andThen_inr in H. destruct H as (explorers & He & H).
  apply Template.andThen_inr in H. destruct H as (wallets & Hw & H).
  apply Template.andThen_inr in H. destruct H as (faucets & Hf & H).
  apply Template.andThen_inr in H. destruct H as (nemesis & _ & H).
  remember [("databases", VArr databases); ("nodes", VArr nodes);
            ("gateways", VArr gateways); ("explorers", VArr explorers);
            ("wallets", VArr wallets); ("faucets", VArr faucets);
            ("nemesis", nemesis)] as expanded eqn:Hexpanded.
  unfold ok in H. injection H as <-.
  assert (Hnodup : NoDup (map fst expanded)).
  { subst expanded. literal_keys. }
  split.
  - intros key Hin. pose proof (lookup_spread key _ presetData Hnodup) as Hl.
    subst expanded. simpl in Hin.
    destruct Hin as [<-|[<-|[<-|[<-|[<-|[<-|[]]]]]]]; eexists;
      (split; [eassumption | rewrite Hl; reflexivity]).
  - intros key Hnot. rewrite (lookup_spread _ _ _ Hnodup).
    rewrite lookup_absent; [reflexivity|].
    subst expanded. intros Hin. apply Hnot. simpl in Hin |- *.
    destruct Hin as [H|[H|[H|[H|[H|[H|[H|[]]]]]]]]; rewrite <- H;
      literal_key_in.
Qed.

(** X23. A preset that [expandRepeat] returns has an array under each of
    [databases], [nodes], [gateways], [explorers], [wallets] and [faucets],
    also where the input had none; no entry of these arrays is an array or
    an object with a [repeat] key; and every key other than these six and
    [nemesis] is as in the input. *)
Theorem expandRepeat_lists :
  forall presetData result,
    expandRepeat presetData = inr result ->
    (forall key,
       In key expandedKeys ->
       exists out,
         lookup key result = Some (VArr out)
         /\ Forall
              (Template.expandedEntry
                 (collection (orValue (get key presetData) (VArr []))))
              out)
    /\ (forall key,
          ~ In key ("nemesis" :: expandedKeys) ->
          lookup key result = lookup key presetData).
Proof.
  intros presetData result H.
  destruct (expandRepeat_inr _ _ H) as [Hlists Hframe].
  split; [|exact Hframe].
  intros key Hin. destruct (Hlists key Hin) as (out & Hout & Hlookup).
  exists out. split; [exact Hlookup|].
  exact (Template.flatMapR_expandedEntry _ _ _ _ _ Hout).
Qed.

Lemma lookup_defaults_nodup :
  NoDup (map fst dualDefaults) /\ NoDup (map fst apiDefaults)
  /\ NoDup (map fst peerDefaults).
Proof.
  repeat split; literal_keys.
Qed.

Lemma mapR_fails :
  forall {A B} (f : A -> Res B) before x after e,
    f x = inl e -> exists e', Template.mapR f (before ++ x :: after) = inl e'.
Proof.
  intros A B f before x after e Hx.
  induction before as [|y before [e' IH]]; simpl.
  - rewrite Hx. exists e. reflexivity.
  - destruct (f y) as [ey|fy]; simpl; [exists ey; reflexivity|].
    rewrite IH. exists e'. reflexivity.
Qed.

Lemma mapR_inl :
  forall {A B} (f : A -> Res B) l e,
    Template.mapR f l = inl e -> exists x, In x l /\ f x = inl e.
Proof.
  intros A B f l e. induction l as [|y l IH]; intros H; simpl in H;
    [discriminate H|].
  destruct (f y) as [ey|fy] eqn:Hy; simpl in H.
  - injection H as <-. exists y. split; [left; reflexivity | exact Hy].
  - destruct (Template.mapR f l) as [el|fl]; simpl in H; [|discriminate H].
    injection H as <-. destruct (IH eq_refl) as (x & Hin & Hx).
    exists x. split; [right; exact Hin | exact Hx].
Qed.

(** The callback of [_.map] in [dynamicDefaultNodeConfiguration]. *)
Definition withDefaults (node : Value) : Res Value :=
  andThen (getDefaultConfiguration node)
    (fun defaults => ok (VObj (spread defaults (spreadEntries node)))).

Lemma withDefaults_error :
  forall node e, withDefaults node = inl e -> exists message, e = TypeError message.
Proof.
  intros node e H. unfold withDefaults, getDefaultConfiguration in H.
  destruct node as [| |b|n|s|items|fields]; cbn [readField andThen ok] in H;
    try (injection H as <-; eexists; reflexivity);
    try discriminate H;
    repeat match type of H with
           | context [if ?b then _ else _] => destruct b
           end; discriminate H.
Qed.

(** X24. The dynamic defaults of a node. The table is chosen by the
    truthiness of [harvesting] and [api]: the dual one when both hold, the
    api one when [api] holds, else the peer one. A field that the node sets
    is kept, also when it is one of the seven defaults; a field that it does
    not set is the default. A list with an [undefined] or [null] entry is a
    [TypeError]. *)
Theorem dynamicDefaultNodeConfiguration_node :
  forall fields,
    NoDup (map fst fields) ->
    let defaults :=
      if negb (falsy (get "harvesting" fields)) && negb (falsy (get "api" fields))
      then dualDefaults
      else if negb (falsy (get "api" fields)) then apiDefaults
      else peerDefaults in
    (exists node,
       dynamicDefaultNodeConfiguration (VArr [VObj fields]) = inr [VObj node]
       /\ forall key,
            lookup key node
            = match lookup key fields with
              | Some v => Some v
              | None => lookup key defaults
              end)
    /\ (forall before after nullish,
          nullish = VUndefined \/ nullish = VNull ->
          exists message,
            dynamicDefaultNodeConfiguration
              (VArr (before ++ nullish :: after))
            = inl (TypeError message)).
Proof.
  intros fields Hnodup defaults. split.
  - exists (spread defaults fields). split.
    + unfold dynamicDefaultNodeConfiguration, getDefaultConfiguration.
      cbn [orValue falsy collection Template.mapR readField andThen ok].
      subst defaults.
      destruct (negb (falsy (get "harvesting" fields))
                && negb (falsy (get "api" fields)));
        [reflexivity|].
      destruct (negb (falsy (get "api" fields))); reflexivity.
    + intros key. apply lookup_spread. exact Hnodup.
  - intros before after nullish Hnullish.
    assert (Hnode : exists e, withDefaults nullish = inl e)
      by (destruct Hnullish as [-> | ->]; eexists; reflexivity).
    destruct Hnode as (e & Hnode).
    unfold dynamicDefaultNodeConfiguration. cbn [orValue falsy collection].
    fold withDefaults.
    destruct (mapR_fails withDefaults before nullish after e Hnode)
      as (e' & Hfails).
    rewrite Hfails. apply mapR_inl in Hfails.
    destruct Hfails as (x & _ & Hx).
    destruct (withDefaults_error _ _ Hx) as (message & ->).
    exists message. reflexivity.
Qed.

Lemma orValue_truthy :
  forall a b, falsy b = false -> falsy (orValue a b) = false.
Proof.
  intros a b Hb. unfold orValue. destruct (falsy a) eqn:Ha; assumption.
Qed.

Lemma resolvedAssembly_truthy :
  forall params fileObject, falsy (resolvedAssembly params fileObject) = false.
Proof.
  intros params fileObject. unfold resolvedAssembly.
  repeat apply orValue_truthy. reflexivity.
Qed.

(** What a call of [createPresetData] that returns went through. *)
Lemma createPresetData_inr :
  forall params result,
    createPresetData params = inr result ->
    exists fileObject presetData nodes,
      loadCustomPreset (customPreset params) = inr fileObject
      /\ falsy (resolvedPreset params fileObject) = false
      /\ dynamicDefaultNodeConfiguration (get "nodes" presetData) = inr nodes
      /\ expandRepeat
           (spread presetData
              [("version", VNum 1);
               ("preset", resolvedPreset params fileObject);
               ("assembly",
                orValue (resolvedAssembly params fileObject) (VStr EmptyString));
               ("nodes", VArr nodes);
               ("customPresetCache", resolvedCustomPreset params fileObject)])
         = inr result.
Proof.
  intros params result H. unfold createPresetData in H.
  apply Template.andThen_inr in H. destruct H as (fileObject & Hfile & H).
  cbv zeta in H.
  destruct (falsy (resolvedPreset params fileObject)) eqn:Hpreset;
    [discriminate H|].
  apply Template.andThen_inr in H. destruct H as (shared & _ & H).
  apply Template.andThen_inr in H. destruct H as (presetName & _ & H).
  apply Template.andThen_inr in H. destruct H as (network & _ & H).
  apply Template.andThen_inr in H. destruct H as (assemblyName & _ & H).
  apply Template.andThen_inr in H. destruct H as (assemblyPreset & _ & H).
  apply Template.andThen_inr in H. destruct H as (nodes & Hnodes & H).
  exists fileObject. eexists. exists nodes.
  split; [exact Hfile|]. split; [exact Hpreset|]. split; [exact Hnodes|].
  exact H.
Qed.

(** X25. A preset that [createPresetData] returns carries its
    bookkeeping, whatever the layers hold under these keys: [version] is 1;
    [preset] is the first truthy one of the parameter, the [preset] of the
    custom preset object, of the custom preset file and of the old preset;
    [assembly] is resolved the same way, with [dual] last;
    [customPresetCache] is the merge of the custom preset file and object
    or, when that is empty, the cache of the old preset; and [nodes] is an
    array without arrays and without objects that have a [repeat] key. *)
Theorem createPresetData_bookkeeping :
  forall params result,
    createPresetData params = inr result ->
    exists fileObject nodes,
      loadCustomPreset (customPreset params) = inr fileObject
      /\ lookup "version" result = Some (VNum 1)
      /\ lookup "preset" result = Some (resolvedPreset params fileObject)
      /\ falsy (resolvedPreset params fileObject) = false
      /\ lookup "assembly" result = Some (resolvedAssembly params fileObject)
      /\ lookup "customPresetCache" result
         = Some (resolvedCustomPreset params fileObject)
      /\ lookup "nodes" result = Some (VArr nodes)
      /\ Forall
           (fun node =>
              match node with
              | VObj fields => lookup "repeat" fields = None
              | VArr _ => False
              | _ => True
              end)
           nodes.
Proof.
  intros params result H.
  destruct (createPresetData_inr _ _ H)
    as (fileObject & presetData & defaulted & Hfile & Hpreset & _ & Hexpand).
  destruct (expandRepeat_inr _ _ Hexpand) as [Hlists Hframe].
  set (stamps :=
         [("version", VNum 1);
          ("preset", resolvedPreset params fileObject);
          ("assembly",
           orValue (resolvedAssembly params fileObject) (VStr EmptyString));
          ("nodes", VArr defaulted);
          ("customPresetCache", resolvedCustomPreset params fileObject)])
    in *.
  assert (Hnodup : NoDup (map fst stamps)).
  { subst stamps. literal_keys. }
  assert (Hstamp : forall key v,
             lookup key stamps = Some v ->
             ~ In key ("nemesis" :: expandedKeys) ->
             lookup key result = Some v).
  { intros key v Hv Hnot. rewrite (Hframe key Hnot).
    rewrite (lookup_spread _ _ _ Hnodup), Hv. reflexivity. }
  destruct (Hlists "nodes" ltac:(literal_key_in)) as (nodes & Hout & Hnodes).
  exists fileObject, nodes.
  split; [exact Hfile|].
  split; [apply Hstamp; [reflexivity | literal_keys]|].
  split; [apply Hstamp; [reflexivity | literal_keys]|].
  split; [exact Hpreset|].
  split.
  { rewrite (Hstamp "assembly" _ eq_refl ltac:(literal_keys)).
    unfold orValue at 1. rewrite resolvedAssembly_truthy. reflexivity. }
  split; [apply Hstamp; [reflexivity | literal_keys]|].
  split; [exact Hnodes|].
  apply Template.flatMapR_expandedEntry in Hout.
  eapply Forall_impl; [|exact Hout].
  intros [] Hentry; simpl in *; auto.
Qed.

(** X26. The user errors of the resolution are [KnownError]s. A custom
    preset file that does not exist is one, whatever the other parameters;
    with the custom preset loaded, a preset name that no source gives is
    one; and with the shared preset loaded, a preset name that is neither an
    existing file nor a bundled preset is one. *)
Theorem createPresetData_user_errors :
  forall params,
    (forall file,
       customPreset params = Some file -> file <> EmptyString ->
       existsSync file = false ->
       exists message, createPresetData params = inl (KnownError message))
    /\ (forall fileObject,
          loadCustomPreset (customPreset params) = inr fileObject ->
          falsy (resolvedPreset params fileObject) = true ->
          createPresetData params
          = inl (KnownError
                   "Preset value could not be resolved from target folder contents. Please provide the --preset parameter."))
    /\ (forall fileObject shared name,
          loadCustomPreset (customPreset params) = inr fileObject ->
          resolvedPreset params fileObject = VStr name ->
          name <> EmptyString ->
          loadSharedPreset (root params) = inr shared ->
          existsSync
            (if isYmlFile name then name
             else (root params ++ "/presets/" ++ name ++ "/network.yml")%string)
          = false ->
          exists message, createPresetData params = inl (KnownError message)).
Proof.
  intros params. split; [|split].
  - intros file Hfile Hne Hmissing. unfold createPresetData, loadCustomPreset.
    rewrite Hfile, (truthy_Some_nonempty file Hne), Hmissing.
    eexists. reflexivity.
  - intros fileObject Hfile Hpreset. unfold createPresetData.
    rewrite Hfile. cbn [andThen]. cbv zeta. rewrite Hpreset. reflexivity.
  - intros fileObject shared name Hfile Hpreset Hne Hshared Hmissing.
    unfold createPresetData. rewrite Hfile. cbn [andThen]. cbv zeta.
    rewrite Hpreset.
    assert (Hf : falsy (VStr name) = false)
      by (destruct name; [congruence | reflexivity]).
    rewrite Hf, Hshared. cbn [andThen nameOf ok].
    unfold loadNetworkPreset. cbv zeta.
    destruct (isYmlFile name); rewrite Hmissing; eexists; reflexivity.
Qed.

End Resolve.


(** *** An instance: three bundled files *)

Definition demoShared : string := "/root/presets/shared.yml".
Definition demoNetwork : string := "/root/presets/testnet/network.yml".
Definition demoAssembly : string := "/root/presets/assemblies/assembly-dual.yml".

Definition demoExistsSync (path : string) : bool :=
  (path =? demoShared)%string || (path =? demoNetwork)%string
  || (path =? demoAssembly)%string.

Definition demoLoadYaml (path : string) : Res Obj :=
  if (path =? demoShared)%string
  then ok [("a", VNum 1); ("preset", VStr "shared")]
  else if (path =? demoNetwork)%string then ok [("b", VNum 2)]
  else if (path =? demoAssembly)%string
  then ok [("nodes",
            VArr [VObj [("repeat", VNum 2); ("name", VStr "n-{{$index}}");
                        ("api", VBool true)]])]
  else inl (Error "ENOENT: no such file or directory").

Abbreviation demoCreatePresetData :=
  (createPresetData Template.demoRunTemplate (fun _ => 0%Z)
     (fun items _ => VArr items) demoExistsSync (fun _ => false) demoLoadYaml).

Abbreviation demoExpandRepeat :=
  (expandRepeat Template.demoRunTemplate (fun _ => 0%Z)).

Definition demoParams : Params :=
  mkParams "/root" (Some "testnet") None None None None.

Definition demoResolved : Obj :=
  Eval vm_compute in
    match demoCreatePresetData demoParams with
    | inr result => result
    | inl _ => []
    end.

Lemma demoResolution : demoCreatePresetData demoParams = inr demoResolved.
Proof. vm_compute. reflexivity. Qed.

(** The preset of the demo has the two copies of the node of the assembly,
    each with the defaults of an api node, and the name given by the
    parameter, not the one that the shared file holds. *)
Lemma createPresetData_bookkeeping_witness :
  lookup "preset" demoResolved = Some (VStr "testnet")
  /\ lookup "assembly" demoResolved = Some (VStr "dual")
  /\ lookup "version" demoResolved = Some (VNum 1)
  /\ exists nodes,
       lookup "nodes" demoResolved = Some (VArr nodes)
       /\ List.length nodes = 2.
Proof.
  destruct (createPresetData_bookkeeping Template.demoRunTemplate
              (fun _ => 0%Z) (fun items _ => VArr items) demoExistsSync
              (fun _ => false) demoLoadYaml demoParams demoResolved
              demoResolution)
    as (fileObject & nodes & Hfile & Hversion & Hpreset & _ & Hassembly & _
        & Hnodes & _).
  injection Hfile as <-.
  split; [exact Hpreset|]. split; [exact Hassembly|]. split; [exact Hversion|].
  exists nodes. split; [exact Hnodes|].
  assert (Hsame : Some (VArr nodes) = lookup "nodes" demoResolved)
    by (symmetry; exact Hnodes).
  vm_compute in Hsame. injection Hsame as ->. reflexivity.
Defined.

Definition demoUnexpanded : Obj :=
  [("nodes", VArr [VObj [("repeat", VNum 2); ("name", VStr "n-{{$index}}")]]);
   ("maxHarvesterBalance", VNum 100)].

Definition demoExpandedPreset : Obj :=
  Eval vm_compute in
    match demoExpandRepeat demoUnexpanded with
    | inr result => result
    | inl _ => []
    end.

Lemma demoRepeatExpansion :
  demoExpandRepeat demoUnexpanded = inr demoExpandedPreset.
Proof. vm_compute. reflexivity. Qed.

Lemma expandRepeat_lists_witness :
  (exists out, lookup "faucets" demoExpandedPreset = Some (VArr out))
  /\ lookup "maxHarvesterBalance" demoExpandedPreset = Some (VNum 100).
Proof.
  destruct (expandRepeat_lists Template.demoRunTemplate (fun _ => 0%Z)
              demoUnexpanded demoExpandedPreset demoRepeatExpansion)
    as [Hlists Hframe].
  split.
  - destruct (Hlists "faucets" ltac:(literal_key_in)) as (out & Hout & _).
    exists out. exact Hout.
  - rewrite (Hframe "maxHarvesterBalance"
               ltac:(literal_keys)).
    reflexivity.
Defined.

(** An api node that switches off [mongo]. *)
Lemma dynamicDefaultNodeConfiguration_node_witness :
  exists node,
    dynamicDefaultNodeConfiguration
      (VArr [VObj [("api", VBool true); ("mongo", VBool false)]])
    = inr [VObj node]
    /\ lookup "mongo" node = Some (VBool false)
    /\ lookup "zeromq" node = Some (VBool true)
    /\ lookup "syncsource" node = Some (VBool false).
Proof.
  destruct (dynamicDefaultNodeConfiguration_node
              [("api", VBool true); ("mongo", VBool false)]
              ltac:(literal_keys))
    as [(node & Hrun & Hlookup) _].
  exists node. split; [exact Hrun|].
  split; [exact (Hlookup "mongo")|].
  split; [exact (Hlookup "zeromq") | exact (Hlookup "syncsource")].
Defined.


End Resolution.


(** ** The entry of ConfigService.run *)

Module Service.

Import Loader.

(** The fields of [ConfigParams] that the entry of [run] reads. *)
Record ConfigParams : Type := {
  report : bool;
  reset : bool;
  upgrade : bool;
  target : string
}.

(** The target folder: the two companion files, each with its content
    when it exists, and the names of the other files. Passwords are left
    out: a file that exists is taken to be readable. *)
Record Folder : Type := {
  presetYml : option ConfigPreset.t;
  addressesYml : option Addresses.t;
  others : list string
}.

Definition emptyFolder : Folder := Build_Folder None None [].

(** What a run does besides reading, in order. *)
Inductive Step : Type :=
| DeletedTarget
| ResolvedPreset
| GeneratedConfiguration
| GeneratedArtifacts
| Reported
| Wrote (location : string)
| FailedWrite (location : string).

Record Disk : Type := {
  folder : Folder;
  steps : list Step
}.

(** A computation on the disk: what was written before an error stays
    written. *)
Definition Run (A : Type) : Type := Disk -> Res A * Disk.

Definition pure {A} (a : A) : Run A := fun d => (inr a, d).

Definition raise {A} (e : Err) : Run A := fun d => (inl e, d).

Definition seq {A B} (m : Run A) (k : A -> Run B) : Run B :=
  fun d => match m d with
           | (inl e, d') => (inl e, d')
           | (inr a, d') => k a d'
           end.

Definition fromRes {A} (r : Res A) : Run A := fun d => (r, d).

Definition step (s : Step) : Run unit :=
  fun d => (inr tt, Build_Disk (folder d) (steps d ++ [s])).

Declare Scope run_scope.
Delimit Scope run_scope with run.
Notation "x <-- c ;; k" := (seq c (fun x => k))
  (at level 100, c at next level, right associativity) : run_scope.
Notation "c ;;> k" := (seq c (fun _ => k))
  (at level 100, right associativity) : run_scope.

Definition ConfigResult : Type := (ConfigPreset.t * Addresses.t)%type.

Section Run.

(** The collaborators of [run], all outside src or outside the core:
    [BootstrapUtils.migrate] behind [migrateAddresses], [createPresetData]
    behind [resolveCurrentPresetData], the loader's
    [generateRandomConfiguration] on the random source of the process, the
    generation of certificates, node, gateway, explorer, wallet and nemesis
    files, the report, and the two filters of CryptoUtils. *)
Variable migrateAddresses : Addresses.t -> option NetworkType -> Addresses.t.
Variable resolveCurrentPresetData :
  ConfigParams -> option ConfigPreset.t -> Res ConfigPreset.t.
Variable generateRandomConfiguration :
  option Addresses.t -> option ConfigPreset.t -> ConfigPreset.t ->
  Res (Addresses.t * ConfigPreset.t).
Variable generateArtifacts :
  ConfigPreset.t -> Addresses.t -> bool -> Res (list string).
Variable removePrivateKeysAccordingToSecurityMode : Addresses.t -> Addresses.t.
Variable removePrivateKeys : ConfigPreset.t -> ConfigPreset.t.

(** [BootstrapUtils.writeYaml] (missing from src) may throw, on the
    password, on the encryption or on the file system: [writeFault location d]
    is its error at [location] on the disk [d], when it throws, and
    [tornPreset], [tornAddresses] say what the write that threw leaves of
    the file, from what the file held and what was to be written. *)
Variable writeFault : string -> Disk -> option Err.
Variable tornPreset :
  option ConfigPreset.t -> ConfigPreset.t -> option ConfigPreset.t.
Variable tornAddresses :
  option Addresses.t -> Addresses.t -> option Addresses.t.

Definition getGeneratedPresetLocation (target : string) : string :=
  join target "preset.yml".

Definition getGeneratedAddressLocation (target : string) : string :=
  join target "addresses.yml".

(** [BootstrapUtils.deleteFolder(target)]. *)
Definition deleteFolder : Run unit :=
  fun d => (inr tt, Build_Disk emptyFolder (steps d ++ [DeletedTarget])).

Definition doesNotExist (location : string) : Err :=
  Error ("The file " ++ location
         ++ " doesn't exist. Have you executed the 'config' command? Have you provided the right --target param?")%string.

Definition loadExistingPresetDataIfPreset : Run (option ConfigPreset.t) :=
  fun d => (inr (presetYml (folder d)), d).

Definition loadExistingPresetData (target : string) : Run ConfigPreset.t :=
  (presetData <-- loadExistingPresetDataIfPreset ;;
   match presetData with
   | Some p => pure p
   | None => raise (doesNotExist (getGeneratedPresetLocation target))
   end)%run.

Definition loadExistingAddressesIfPreset (target : string)
  : Run (option Addresses.t) :=
  fun d =>
    match addressesYml (folder d) with
    | Some stored =>
        (presetData <-- loadExistingPresetData target ;;
         pure (Some (migrateAddresses stored (ConfigPreset.networkType presetData))))%run d
    | None => (inr None, d)
    end.

Definition loadExistingAddresses (target : string) : Run Addresses.t :=
  (addresses <-- loadExistingAddressesIfPreset target ;;
   match addresses with
   | Some a => pure a
   | None => raise (doesNotExist (getGeneratedAddressLocation target))
   end)%run.

(** [BootstrapUtils.writeYaml(presetLocation, ...)] (line 174). *)
Definition writePreset (location : string) (p : ConfigPreset.t) : Run unit :=
  fun d =>
    match writeFault location d with
    | Some e =>
        (inl e,
         Build_Disk
           (Build_Folder (tornPreset (presetYml (folder d)) p)
              (addressesYml (folder d)) (others (folder d)))
           (steps d ++ [FailedWrite location]))
    | None =>
        (inr tt,
         Build_Disk
           (Build_Folder (Some p) (addressesYml (folder d)) (others (folder d)))
           (steps d ++ [Wrote location]))
    end.

(** [BootstrapUtils.writeYaml(addressesLocation, ...)] (lines 169-173). *)
Definition writeAddresses (location : string) (a : Addresses.t) : Run unit :=
  fun d =>
    match writeFault location d with
    | Some e =>
        (inl e,
         Build_Disk
           (Build_Folder (presetYml (folder d))
              (tornAddresses (addressesYml (folder d)) a) (others (folder d)))
           (steps d ++ [FailedWrite location]))
    | None =>
        (inr tt,
         Build_Disk
           (Build_Folder (presetYml (folder d)) (Some a) (others (folder d)))
           (steps d ++ [Wrote location]))
    end.

Definition writeArtifacts (files : list string) : Run unit :=
  fun d =>
    (inr tt,
     Build_Disk
       (Build_Folder (presetYml (folder d)) (addressesYml (folder d))
          (others (folder d) ++ files))
       (steps d ++ [GeneratedArtifacts])).

Definition reportIf (wanted : bool) : Run unit :=
  if wanted then step Reported else pure tt.

(** Lines 151-176: the resolution, the generation and the two writes. *)
Definition configure (params : ConfigParams)
    (oldPresetData : option ConfigPreset.t) (oldAddresses : option Addresses.t)
  : Run ConfigResult :=
  (presetData <-- fromRes (resolveCurrentPresetData params oldPresetData) ;;
   step ResolvedPreset ;;>
   generated <-- fromRes (generateRandomConfiguration oldAddresses oldPresetData
                            presetData) ;;
   step GeneratedConfiguration ;;>
   let addresses := fst generated in
   let presetData := snd generated in
   let isUpgrade :=
     match oldPresetData, oldAddresses with
     | None, None => false
     | _, _ => true
     end in
   files <-- fromRes (generateArtifacts presetData addresses isUpgrade) ;;
   writeArtifacts files ;;>
   reportIf (report params) ;;>
   writeAddresses (getGeneratedAddressLocation (target params))
     (removePrivateKeysAccordingToSecurityMode addresses) ;;>
   writePreset (getGeneratedPresetLocation (target params))
     (removePrivateKeys presetData) ;;>
   pure (presetData, addresses))%run.

(** Lines 121-176 of [run]: what follows the reset. *)
Definition resolve (params : ConfigParams) : Run ConfigResult :=
  let presetLocation := getGeneratedPresetLocation (target params) in
  let addressesLocation := getGeneratedAddressLocation (target params) in
  (presetExists <-- (fun d => (inr match presetYml (folder d) with
                                   | Some _ => true
                                   | None => false
                                   end, d)) ;;
   if presetExists && negb (upgrade params)
   then (presetData <-- loadExistingPresetData (target params) ;;
         addresses <-- loadExistingAddresses (target params) ;;
         reportIf (report params) ;;>
         pure (presetData, addresses))
   else (oldPresetData <-- loadExistingPresetDataIfPreset ;;
         oldAddresses <-- loadExistingAddressesIfPreset (target params) ;;
         (match oldAddresses, oldPresetData with
          | Some _, None =>
              raise (KnownError
                ("Configuration cannot be upgraded without a previous "
                 ++ presetLocation ++ " file. (run -r to reset)")%string)
          | _, _ => pure tt
          end) ;;>
         (match oldAddresses, oldPresetData with
          | None, Some _ =>
              raise (KnownError
                ("Configuration cannot be upgraded without a previous "
                 ++ addressesLocation ++ " file. (run -r to reset)")%string)
          | _, _ => pure tt
          end) ;;>
         configure params oldPresetData oldAddresses))%run.

(** [ConfigService.run]. The catch block logs and throws the error again,
    so it changes nothing here. *)
Definition run (params : ConfigParams) : Run ConfigResult :=
  ((if reset params then deleteFolder else pure tt) ;;> resolve params)%run.

(** *** The contract of the companion files *)

(** The disk after the first statement of [run]: the reset, when asked for,
    has deleted the target folder. *)
Definition afterReset (params : ConfigParams) (d : Disk) : Disk :=
  if reset params then Build_Disk emptyFolder (steps d ++ [DeletedTarget])
  else d.

(** The non-upgrade exit of [run] on an existing configuration. *)
Definition existing (params : ConfigParams) (presetData : ConfigPreset.t)
    (addresses : Addresses.t) : Run ConfigResult :=
  (reportIf (report params) ;;> pure (presetData, addresses))%run.



(** The class of the error of a missing companion file: a [KnownError] when
    upgrading with preset.yml alone, the plain [Error] of a loader in the two
    other cases (with addresses.yml alone [loadExistingAddressesIfPreset]
    throws before the test of line 139). *)
Lemma missing_companion_error_class :
  forall params d,
    let found := folder (afterReset params d) in
    (forall p, presetYml found = Some p -> addressesYml found = None ->
       exists e, fst (run params d) = inl e /\ known e = upgrade params)
    /\ (forall a, presetYml found = None -> addressesYml found = Some a ->
          exists e, fst (run params d) = inl e /\ known e = false).
Proof.
  intros params d found.
  assert (Hrun : run params d = resolve params (afterReset params d)).
  { unfold run, afterReset, seq. destruct (reset params); reflexivity. }
  rewrite Hrun. clear Hrun. subst found.
  generalize (afterReset params d). intros [[py ay files] done].
  cbn [folder presetYml addressesYml].
  split; intros; subst;
    cbv [resolve seq pure raise loadExistingPresetData loadExistingAddresses
         loadExistingPresetDataIfPreset loadExistingAddressesIfPreset
         doesNotExist andb negb presetYml addressesYml folder];
    destruct (upgrade params); eexists; split; reflexivity.
Qed.

(** With the reset flag the folder is emptied first, so the run is a fresh
    one whatever the folder held. *)
Lemma reset_starts_fresh :
  forall params d,
    reset params = true ->
    run params d
    = configure params None None
        (Build_Disk emptyFolder (steps d ++ [DeletedTarget])).
Proof.
  intros params d Hreset. unfold run, seq. rewrite Hreset.
  unfold deleteFolder, resolve, seq.
  cbv [loadExistingPresetDataIfPreset loadExistingAddressesIfPreset pure
       presetYml addressesYml folder emptyFolder andb].
  reflexivity.
Qed.

(** *** Persistence *)

(** The two companion files of a disk. *)
Definition companions (d : Disk) : option ConfigPreset.t * option Addresses.t :=
  (presetYml (folder d), addressesYml (folder d)).

Lemma seq_inl :
  forall {A B} (m : Run A) (k : A -> Run B) d e d',
    seq m k d = (inl e, d') ->
    m d = (inl e, d')
    \/ exists a d1, m d = (inr a, d1) /\ k a d1 = (inl e, d').
Proof.
  intros A B m k d e d' H. unfold seq in H.
  destruct (m d) as [[e1|a] d1].
  - left. injection H as -> ->. reflexivity.
  - right. exists a, d1. split; [reflexivity | exact H].
Qed.

Lemma seq_inr :
  forall {A B} (m : Run A) (k : A -> Run B) d b d',
    seq m k d = (inr b, d') ->
    exists a d1, m d = (inr a, d1) /\ k a d1 = (inr b, d').
Proof.
  intros A B m k d b d' H. unfold seq in H.
  destruct (m d) as [[e1|a] d1]; [discriminate H|].
  exists a, d1. split; [reflexivity | exact H].
Qed.

(** A step of [configure] that leaves the companion files alone. *)
Definition quiet {A} (m : Run A) : Prop :=
  forall d r d', m d = (r, d') -> companions d' = companions d.

Lemma quiet_fromRes : forall {A} (r : Res A), quiet (fromRes r).
Proof. intros A r d r' d' H. injection H as _ <-. reflexivity. Qed.

Lemma quiet_step : forall s, quiet (step s).
Proof. intros s d r d' H. injection H as _ <-. reflexivity. Qed.

Lemma quiet_writeArtifacts : forall files, quiet (writeArtifacts files).
Proof. intros files d r d' H. injection H as _ <-. reflexivity. Qed.

Lemma quiet_reportIf : forall wanted, quiet (reportIf wanted).
Proof.
  intros wanted d r d' H. destruct wanted; injection H as _ <-; reflexivity.
Qed.

(** Where [configure] can throw, and what the companion files are then:
    before the writes, in the write of addresses.yml, or in the write of
    preset.yml, which comes after addresses.yml is written. *)
Lemma configure_throws :
  forall params oldPresetData oldAddresses d e d',
    configure params oldPresetData oldAddresses d = (inl e, d') ->
    companions d' = companions d
    \/ (exists d1 addresses,
          writeFault (getGeneratedAddressLocation (target params)) d1 = Some e
          /\ companions d'
             = (presetYml (folder d),
                tornAddresses (addressesYml (folder d)) addresses))
    \/ (exists d1 presetData addresses,
          writeFault (getGeneratedPresetLocation (target params)) d1 = Some e
          /\ companions d'
             = (tornPreset (presetYml (folder d)) presetData, Some addresses)).
Proof.
  intros params oldPreset oldAddresses d e d' H. unfold configure in H.
  apply seq_inl in H. destruct H as [H | (presetData & d1 & H1 & H)];
    [left; exact (quiet_fromRes _ _ _ _ H)|].
  apply quiet_fromRes in H1.
  apply seq_inl in H. destruct H as [H | (u2 & d2 & H2 & H)];
    [left; rewrite <- H1; exact (quiet_step _ _ _ _ H)|].
  apply quiet_step in H2.
  apply seq_inl in H. destruct H as [H | (generated & d3 & H3 & H)];
    [left; rewrite <- H1, <- H2; exact (quiet_fromRes _ _ _ _ H)|].
  apply quiet_fromRes in H3.
  apply seq_inl in H. destruct H as [H | (u4 & d4 & H4 & H)];
    [left; rewrite <- H1, <- H2, <- H3; exact (quiet_step _ _ _ _ H)|].
  apply quiet_step in H4. cbv zeta in H.
  apply seq_inl in H. destruct H as [H | (files & d5 & H5 & H)];
    [left; rewrite <- H1, <- H2, <- H3, <- H4; exact (quiet_fromRes _ _ _ _ H)|].
  apply quiet_fromRes in H5.
  apply seq_inl in H. destruct H as [H | (u6 & d6 & H6 & H)];
    [left; rewrite <- H1, <- H2, <- H3, <- H4, <- H5;
     exact (quiet_writeArtifacts _ _ _ _ H)|].
  apply quiet_writeArtifacts in H6.
  apply seq_inl in H. destruct H as [H | (u7 & d7 & H7 & H)];
    [left; rewrite <- H1, <- H2, <- H3, <- H4, <- H5, <- H6;
     exact (quiet_reportIf _ _ _ _ H)|].
  apply quiet_reportIf in H7.
  assert (Hc : companions d7 = companions d) by congruence.
  clear H1 H2 H3 H4 H5 H6 H7.
  unfold companions in Hc. injection Hc as Hcp Hca.
  apply seq_inl in H. destruct H as [H | (u8 & d8 & H8 & H)].
  - right. left. unfold writeAddresses in H.
    destruct (writeFault _ d7) as [ea|] eqn:Ha; [|discriminate H].
    injection H as <- <-. exists d7. eexists. split; [exact Ha|].
    unfold companions. cbn [folder presetYml addressesYml].
    rewrite Hcp, Hca. reflexivity.
  - unfold writeAddresses in H8.
    destruct (writeFault _ d7) as [ea|] eqn:Ha; [discriminate H8|].
    injection H8 as _ <-.
    apply seq_inl in H. destruct H as [H | (u9 & d9 & H9 & H)];
      [|discriminate H].
    right. right. unfold writePreset in H.
    match type of H with
    | context [writeFault ?l ?d0] =>
        destruct (writeFault l d0) as [ep|] eqn:Hp; [|discriminate H];
        exists d0
    end.
    injection H as <- <-. do 2 eexists. split; [exact Hp|].
    unfold companions. cbn [folder presetYml addressesYml].
    rewrite Hcp. reflexivity.
Qed.

Lemma configure_returns_after_writing :
  forall params oldPresetData oldAddresses d result d',
    configure params oldPresetData oldAddresses d = (inr result, d') ->
    companions d'
    = (Some (removePrivateKeys (fst result)),
       Some (removePrivateKeysAccordingToSecurityMode (snd result))).
Proof.
  intros params oldPreset oldAddresses d result d' H. unfold configure in H.
  apply seq_inr in H. destruct H as (presetData & d1 & _ & H).
  apply seq_inr in H. destruct H as (u2 & d2 & _ & H).
  apply seq_inr in H. destruct H as (generated & d3 & _ & H).
  apply seq_inr in H. destruct H as (u4 & d4 & _ & H). cbv zeta in H.
  apply seq_inr in H. destruct H as (files & d5 & _ & H).
  apply seq_inr in H. destruct H as (u6 & d6 & _ & H).
  apply seq_inr in H. destruct H as (u7 & d7 & _ & H).
  apply seq_inr in H. destruct H as (u8 & d8 & H8 & H).
  apply seq_inr in H. destruct H as (u9 & d9 & H9 & H).
  unfold pure in H. injection H as <- <-.
  unfold writeAddresses in H8.
  destruct (writeFault _ d7); [discriminate H8|]. injection H8 as _ <-.
  unfold writePreset in H9.
  match type of H9 with
  | context [writeFault ?l ?d0] => destruct (writeFault l d0)
  end; [discriminate H9|].
  injection H9 as _ <-. reflexivity.
Qed.

(** The exits of [resolve] on a disk, by the companion files it finds. *)
Lemma resolve_exits :
  forall params d,
    match companions d with
    | (Some p, Some a) =>
        if upgrade params
        then resolve params d
             = configure params (Some p)
                 (Some (migrateAddresses a (ConfigPreset.networkType p))) d
        else resolve params d
             = existing params p
                 (migrateAddresses a (ConfigPreset.networkType p)) d
    | (None, None) => resolve params d = configure params None None d
    | _ => exists e, resolve params d = (inl e, d)
    end.
Proof.
  intros params [[py ay files] done]. unfold companions.
  cbn [folder presetYml addressesYml].
  destruct py as [p|], ay as [a|];
    cbv [resolve seq pure raise loadExistingPresetData loadExistingAddresses
         loadExistingPresetDataIfPreset loadExistingAddressesIfPreset existing
         doesNotExist andb negb presetYml addressesYml folder];
    destruct (upgrade params); try reflexivity; eexists; reflexivity.
Qed.

Lemma existing_run :
  forall params p a d,
    exists d',
      existing params p a d = (inr (p, a), d') /\ companions d' = companions d.
Proof.
  intros params p a d. unfold existing, seq, reportIf, step, pure.
  destruct (report params); eexists; split; reflexivity.
Qed.

(** X27. A run that throws leaves the two companion files as it found
    them after its reset step, unless what threw is one of the two writes
    of lines 169-174. When the write of addresses.yml throws, preset.yml is
    untouched; when the write of preset.yml throws, addresses.yml has
    already been replaced: the two files are not replaced together. *)
Theorem failed_run_keeps_companion_files :
  forall params d e d',
    run params d = (inl e, d') ->
    let found := folder (afterReset params d) in
    companions d' = companions (afterReset params d)
    \/ (exists d1 addresses,
          writeFault (getGeneratedAddressLocation (target params)) d1 = Some e
          /\ companions d'
             = (presetYml found, tornAddresses (addressesYml found) addresses))
    \/ (exists d1 presetData addresses,
          writeFault (getGeneratedPresetLocation (target params)) d1 = Some e
          /\ companions d'
             = (tornPreset (presetYml found) presetData, Some addresses)).
Proof.
  intros params d e d' H found. subst found.
  assert (Hrun : run params d = resolve params (afterReset params d)).
  { unfold run, afterReset, seq, deleteFolder, pure.
    destruct (reset params); reflexivity. }
  rewrite Hrun in H. clear Hrun.
  pose proof (resolve_exits params (afterReset params d)) as Hexit.
  destruct (companions (afterReset params d)) as [[p|] [a|]] eqn:Hc.
  - destruct (upgrade params); rewrite Hexit in H.
    + rewrite <- Hc. exact (configure_throws _ _ _ _ _ _ H).
    + destruct (existing_run params p
                  (migrateAddresses a (ConfigPreset.networkType p))
                  (afterReset params d)) as (d1 & Hd1 & _).
      rewrite Hd1 in H. discriminate H.
  - destruct Hexit as (e1 & Hexit). rewrite Hexit in H.
    injection H as _ <-. left. exact Hc.
  - destruct Hexit as (e1 & Hexit). rewrite Hexit in H.
    injection H as _ <-. left. exact Hc.
  - rewrite Hexit in H. rewrite <- Hc.
    exact (configure_throws _ _ _ _ _ _ H).
Qed.

(** X28. A run that returns leaves both companion files in the target
    folder, and a later run without the reset and upgrade flags returns what
    the files hold, the addresses migrated, and writes neither file: a
    folder that a run has completed is never in the state of a missing
    companion file. *)
Theorem completed_run_can_be_read_back :
  forall params d result d',
    run params d = (inr result, d') ->
    exists p a,
      companions d' = (Some p, Some a)
      /\ forall params',
           reset params' = false -> upgrade params' = false ->
           exists d'',
             run params' d'
             = (inr (p, migrateAddresses a (ConfigPreset.networkType p)), d'')
             /\ companions d'' = companions d'.
Proof.
  intros params d result d' H.
  assert (Hfiles : exists p a, companions d' = (Some p, Some a)).
  { assert (Hrun : run params d = resolve params (afterReset params d)).
    { unfold run, afterReset, seq, deleteFolder, pure.
      destruct (reset params); reflexivity. }
    rewrite Hrun in H. clear Hrun.
    pose proof (resolve_exits params (afterReset params d)) as Hexit.
    destruct (companions (afterReset params d)) as [[p|] [a|]] eqn:Hc.
    - destruct (upgrade params); rewrite Hexit in H.
      + do 2 eexists. exact (configure_returns_after_writing _ _ _ _ _ _ H).
      + destruct (existing_run params p
                    (migrateAddresses a (ConfigPreset.networkType p))
                    (afterReset params d)) as (d1 & Hd1 & Hsame).
        rewrite Hd1 in H. injection H as _ <-.
        exists p, a. rewrite Hsame. exact Hc.
    - destruct Hexit as (e1 & Hexit). rewrite Hexit in H. discriminate H.
    - destruct Hexit as (e1 & Hexit). rewrite Hexit in H. discriminate H.
    - rewrite Hexit in H.
      do 2 eexists. exact (configure_returns_after_writing _ _ _ _ _ _ H). }
  destruct Hfiles as (p & a & Hfiles). exists p, a. split; [exact Hfiles|].
  intros params' Hreset Hupgrade.
  assert (Hrun : run params' d' = resolve params' d').
  { unfold run, seq, pure. rewrite Hreset. reflexivity. }
  rewrite Hrun.
  pose proof (resolve_exits params' d') as Hexit.
  rewrite Hfiles, Hupgrade in Hexit. rewrite Hexit.
  apply existing_run.
Qed.


End Run.

(** *** [resolveNemesis] (lines 193-243) *)

(** What [resolveNemesis] does to the seed folder of the target, in order. *)
Inductive SeedStep : Type :=
| MadeFolder
| DeletedFolder
| GeneratedNemesis
| CopiedSeed (source : string)
| ValidatedSeed (seedFolder : string).

(** A computation that throws or extends the list of the steps done. *)
Definition Seed (A : Type) : Type := M (list SeedStep) A.

Definition did (s : SeedStep) : Seed unit := fun done => inr (tt, done ++ [s]).

Section Nemesis.

(** [BootstrapUtils.isYmlFile] and [existsSync] as in the loader; the seed
    folder of the target, [BootstrapUtils.getTargetNemesisFolder(target,
    false, 'seed')]; and the collaborators that may throw:
    [generateNemesisConfig], [BootstrapUtils.validateSeedFolder] with its
    message and [BootstrapUtils.generateConfiguration], which copies a
    folder. Creating and deleting a folder are taken to succeed. *)
Variable isYmlFile : string -> bool.
Variable existsSync : string -> bool.
Variable targetSeedFolder : string.
Variable generateNemesisConfig : ConfigPreset.t -> Addresses.t -> Res unit.
Variable validateSeedFolder : string -> string -> Res unit.
Variable generateConfiguration : string -> string -> Res unit.

(** The copy of a seed folder into the target, and its validation. *)
Definition copySeed (source : string) (presetData : ConfigPreset.t)
  : Seed unit :=
  (did DeletedFolder ;;;
   did MadeFolder ;;;
   liftRes (generateConfiguration source targetSeedFolder) ;;;
   did (CopiedSeed source) ;;;
   liftRes (validateSeedFolder targetSeedFolder
              ("Is the " ++ ConfigPreset.preset presetData
               ++ " preset default seed a valid seed folder?")) ;;;
   did (ValidatedSeed targetSeedFolder))%m.

Definition resolveNemesis (root : string) (presetData : ConfigPreset.t)
    (addresses : Addresses.t) (isUpgrade : bool) : Seed unit :=
  (did MadeFolder ;;;
   if shouldCreateNemesis isYmlFile existsSync root presetData
   then
     if isUpgrade then ret tt
     else (did DeletedFolder ;;;
           did MadeFolder ;;;
           liftRes (generateNemesisConfig presetData addresses) ;;;
           did GeneratedNemesis ;;;
           liftRes (validateSeedFolder targetSeedFolder
                      "Is the generated nemesis seed a valid seed folder?") ;;;
           did (ValidatedSeed targetSeedFolder))
   else
     match ConfigPreset.nemesisSeedFolder presetData with
     | Some provided =>
         if truthy (Some provided)
         then (liftRes (validateSeedFolder provided
                          ("Is the provided preset nemesisSeedFolder: "
                           ++ provided ++ " a valid seed folder?")) ;;;
               did (ValidatedSeed provided) ;;;
               copySeed provided presetData)
         else
           if isYmlFile (ConfigPreset.preset presetData)
           then throw (KnownError
                         ("Seed for preset " ++ ConfigPreset.preset presetData
                          ++ " could not be found. Please provide 'nemesisSeedFolder'!"))
           else
             let networkNemesisSeed :=
               join (join (join root "presets") (ConfigPreset.preset presetData))
                 "seed" in
             if existsSync networkNemesisSeed
             then copySeed networkNemesisSeed presetData
             else throw (Error "Seed could not be found!!!!")
     | None =>
         if isYmlFile (ConfigPreset.preset presetData)
         then throw (KnownError
                       ("Seed for preset " ++ ConfigPreset.preset presetData
                        ++ " could not be found. Please provide 'nemesisSeedFolder'!"))
         else
           let networkNemesisSeed :=
             join (join (join root "presets") (ConfigPreset.preset presetData))
               "seed" in
           if existsSync networkNemesisSeed
           then copySeed networkNemesisSeed presetData
           else throw (Error "Seed could not be found!!!!")
     end)%m.

(** The steps of [copySeed] when it returns. *)
Lemma copySeed_inr :
  forall source presetData done done',
    copySeed source presetData done = inr (tt, done') ->
    done' = done ++ [DeletedFolder; MadeFolder; CopiedSeed source;
                     ValidatedSeed targetSeedFolder].
Proof.
  intros source presetData done done' H. unfold copySeed, bind, did, liftRes in H.
  destruct (generateConfiguration source targetSeedFolder) as [e|[]];
    [discriminate H|].
  destruct (validateSeedFolder targetSeedFolder _) as [e|[]]; [discriminate H|].
  injection H as <-. rewrite <- !app_assoc. reflexivity.
Qed.

(** X29. The nemesis is generated exactly on a run that is not an
    upgrade and for which [shouldCreateNemesis] holds. When [resolveNemesis]
    returns, its steps are: on such a run, the seed folder of the target
    emptied, the nemesis generated and the seed validated; on an upgrade for
    which [shouldCreateNemesis] holds, nothing, the seed folder is kept;
    else the seed folder emptied and a seed copied into it, from the
    [nemesisSeedFolder] of the preset or from the bundled seed of the
    preset. *)
Theorem resolveNemesis_steps :
  forall root presetData addresses isUpgrade done done',
    resolveNemesis root presetData addresses isUpgrade done = inr (tt, done') ->
    let create := shouldCreateNemesis isYmlFile existsSync root presetData in
    exists steps,
      done' = done ++ MadeFolder :: steps
      /\ (In GeneratedNemesis steps <-> create = true /\ isUpgrade = false)
      /\ (if create
          then if isUpgrade then steps = []
               else steps = [DeletedFolder; MadeFolder; GeneratedNemesis;
                             ValidatedSeed targetSeedFolder]
          else exists source,
                 In (CopiedSeed source) steps
                 /\ In DeletedFolder steps
                 /\ (truthy (ConfigPreset.nemesisSeedFolder presetData) = true ->
                     ConfigPreset.nemesisSeedFolder presetData = Some source)
                 /\ (truthy (ConfigPreset.nemesisSeedFolder presetData) = false ->
                     source
                     = join (join (join root "presets")
                               (ConfigPreset.preset presetData)) "seed")).
Proof.
  intros root presetData addresses isUpgrade done done' H create.
  unfold resolveNemesis in H. unfold bind at 1 in H. unfold did at 1 in H.
  fold create in H.
  assert (Hcopy : forall source start,
             copySeed source presetData start = inr (tt, done') ->
             start = done ++ [MadeFolder]
             \/ (exists provided,
                   start = (done ++ [MadeFolder]) ++ [ValidatedSeed provided]) ->
             exists steps,
               done' = done ++ MadeFolder :: steps
               /\ In (CopiedSeed source) steps /\ In DeletedFolder steps
               /\ ~ In GeneratedNemesis steps).
  { intros source start Hrun Hstart. apply copySeed_inr in Hrun.
    destruct Hstart as [-> | (provided & ->)]; subst done';
      rewrite <- !app_assoc; cbn [app]; eexists;
      (split; [reflexivity|]); cbn [In];
      (split; [auto 10|]); (split; [auto 10|]);
      intros Hin; repeat (destruct Hin as [Hin|Hin]; [discriminate Hin|]);
      exact Hin. }
  destruct create eqn:Hcreate.
  - destruct isUpgrade.
    + apply ret_inr in H. destruct H as [_ ->].
      exists []. split; [reflexivity|]. split; [|reflexivity].
      split; [intros [] | intros [_ Hfalse]; discriminate Hfalse].
    + unfold bind, did, liftRes in H.
      destruct (generateNemesisConfig presetData addresses) as [e|[]];
        [discriminate H|].
      destruct (validateSeedFolder targetSeedFolder _) as [e|[]];
        [discriminate H|].
      injection H as <-. rewrite <- !app_assoc. cbn [app].
      eexists. split; [reflexivity|]. split; [|reflexivity].
      split; [intros _; split; reflexivity | intros _; cbn [In]; auto].
  - assert (Hgoal : forall source,
               (truthy (ConfigPreset.nemesisSeedFolder presetData) = true ->
                ConfigPreset.nemesisSeedFolder presetData = Some source) ->
               (truthy (ConfigPreset.nemesisSeedFolder presetData) = false ->
                source
                = join (join (join root "presets")
                          (ConfigPreset.preset presetData)) "seed") ->
               (exists steps,
                  done' = done ++ MadeFolder :: steps
                  /\ In (CopiedSeed source) steps /\ In DeletedFolder steps
                  /\ ~ In GeneratedNemesis steps) ->
               exists steps,
                 done' = done ++ MadeFolder :: steps
                 /\ (In GeneratedNemesis steps <-> false = true /\ isUpgrade = false)
                 /\ exists source0,
                      In (CopiedSeed source0) steps
                      /\ In DeletedFolder steps
                      /\ (truthy (ConfigPreset.nemesisSeedFolder presetData) = true ->
                          ConfigPreset.nemesisSeedFolder presetData = Some source0)
                      /\ (truthy (ConfigPreset.nemesisSeedFolder presetData) = false ->
                          source0
                          = join (join (join root "presets")
                                    (ConfigPreset.preset presetData)) "seed")).
    { intros source H1 H2 (steps & Hsteps & Hc & Hd & Hg).
      exists steps. split; [exact Hsteps|]. split.
      - split; [intros Hin; contradiction | intros [Hfalse _]; discriminate Hfalse].
      - exists source. repeat split; assumption. }
    destruct (ConfigPreset.nemesisSeedFolder presetData) as [provided|] eqn:Hfolder.
    + destruct (truthy (Some provided)) eqn:Htruthy.
      * unfold bind at 1 in H. unfold liftRes at 1 in H.
        destruct (validateSeedFolder provided _) as [e|[]]; [discriminate H|].
        unfold bind at 1 in H. unfold did at 1 in H.
        apply (Hgoal provided); [reflexivity | discriminate|].
        apply (Hcopy provided _ H). right. exists provided. reflexivity.
      * destruct (isYmlFile _); [discriminate H|]. cbv zeta in H.
        destruct (existsSync _); [|discriminate H].
        eapply Hgoal; [discriminate | reflexivity|].
        apply (Hcopy _ _ H). left. reflexivity.
    + destruct (isYmlFile _); [discriminate H|]. cbv zeta in H.
      destruct (existsSync _); [|discriminate H].
      eapply Hgoal; [discriminate | reflexivity|].
      apply (Hcopy _ _ H). left. reflexivity.
Qed.

(** X30. When its collaborators do not throw, [resolveNemesis] throws
    only for a preset without a nemesis and without a [nemesisSeedFolder],
    whose seed is not bundled: a [KnownError] when the preset is a file,
    the plain [Error] of a seed that could not be found when it is a name. *)
Theorem resolveNemesis_throws_without_nemesis :
  (forall presetData addresses, generateNemesisConfig presetData addresses = ok tt) ->
  (forall seedFolder message, validateSeedFolder seedFolder message = ok tt) ->
  (forall source destination, generateConfiguration source destination = ok tt) ->
  forall root presetData addresses isUpgrade done e,
    resolveNemesis root presetData addresses isUpgrade done = inl e ->
    ConfigPreset.nemesis presetData = None
    /\ truthy (ConfigPreset.nemesisSeedFolder presetData) = false
    /\ known e = isYmlFile (ConfigPreset.preset presetData)
    /\ (isYmlFile (ConfigPreset.preset presetData) = false ->
        e = Error "Seed could not be found!!!!"
        /\ existsSync
             (join (join (join root "presets") (ConfigPreset.preset presetData))
                "seed") = false).
Proof.
  intros Hgenerate Hvalidate Hcopy root presetData addresses isUpgrade done e H.
  unfold resolveNemesis, copySeed, bind, did, liftRes in H.
  rewrite ?Hgenerate, ?Hvalidate, ?Hcopy in H. unfold ok in H.
  unfold shouldCreateNemesis in H.
  destruct (ConfigPreset.nemesis presetData) as [nemesis|].
  - destruct (ConfigPreset.nemesisSeedFolder presetData) as [provided|].
    + destruct (truthy (Some provided)); cbn [negb andb] in H.
      * rewrite ?Hvalidate, ?Hcopy in H. discriminate H.
      * destruct (isYmlFile _); cbn [orb] in H.
        -- destruct isUpgrade; discriminate H.
        -- destruct (existsSync _); cbn [negb] in H.
           ++ rewrite ?Hvalidate, ?Hcopy in H. discriminate H.
           ++ destruct isUpgrade; discriminate H.
    + cbn [truthy negb andb] in H.
      destruct (isYmlFile _); cbn [orb] in H.
      * destruct isUpgrade; discriminate H.
      * destruct (existsSync _); cbn [negb] in H.
        -- rewrite ?Hvalidate, ?Hcopy in H. discriminate H.
        -- destruct isUpgrade; discriminate H.
  - split; [reflexivity|].
    destruct (ConfigPreset.nemesisSeedFolder presetData) as [provided|].
    + destruct (truthy (Some provided)).
      * rewrite ?Hvalidate, ?Hcopy in H. discriminate H.
      * split; [reflexivity|].
        destruct (isYmlFile _).
        -- injection H as <-. split; [reflexivity | discriminate].
        -- cbv zeta in H. destruct (existsSync _).
           ++ rewrite ?Hvalidate, ?Hcopy in H. discriminate H.
           ++ injection H as <-. repeat split.
    + split; [reflexivity|].
      destruct (isYmlFile _).
      * injection H as <-. split; [reflexivity | discriminate].
      * cbv zeta in H. destruct (existsSync _).
        -- rewrite ?Hvalidate, ?Hcopy in H. discriminate H.
        -- injection H as <-. repeat split.
Qed.

End Nemesis.



(** Collaborators that succeed: the resolved preset is the demo preset, the
    configuration is the loader's on an unused random source, and one
    artifact is written. *)
Definition demoResolve (params : ConfigParams)
    (oldPresetData : option ConfigPreset.t) : Res ConfigPreset.t :=
  ok demoPreset.

Definition demoConfiguration (oldAddresses : option Addresses.t)
    (oldPresetData : option ConfigPreset.t) (presetData : ConfigPreset.t)
  : Res (Addresses.t * ConfigPreset.t) :=
  match demoGenerate "/root" oldAddresses oldPresetData presetData [] with
  | inl e => inl e
  | inr (c, _) => inr c
  end.

Definition demoArtifacts (presetData : ConfigPreset.t) (addresses : Addresses.t)
    (isUpgrade : bool) : Res (list string) := ok ["nemesis/seed"].



(** A resolution that throws, as [createPresetData] does without a preset
    name. *)
Definition demoFailingResolve (params : ConfigParams)
    (oldPresetData : option ConfigPreset.t) : Res ConfigPreset.t :=
  inl (KnownError
         "Preset value could not be resolved from target folder contents. Please provide the --preset parameter.").

Definition demoUpgradeParams : ConfigParams :=
  Build_ConfigParams false false true "target".

Definition demoConfigured : Disk :=
  Build_Disk (Build_Folder (Some demoPreset) (Some demoOldAddresses) []) [].

Lemma demoFailedUpgrade :
  exists e,
    run (fun a _ => a) demoFailingResolve demoConfiguration demoArtifacts
      (fun a => a) (fun p => p)
      (fun _ _ => None) (fun o _ => o) (fun o _ => o)
      demoUpgradeParams demoConfigured
    = (inl e, demoConfigured).
Proof. eexists. vm_compute. reflexivity. Qed.

(** A file system that refuses the write of preset.yml and leaves no file
    behind. *)
Definition demoWriteFault (location : string) (d : Disk) : option Err :=
  if (location =? "target/preset.yml")%string
  then Some (Error "EACCES: permission denied, open 'target/preset.yml'")
  else None.

(** The disk after a fresh run of the demo on that file system. *)
Definition demoTorn : Disk :=
  Eval vm_compute in
    snd (run (fun a _ => a) demoResolve demoConfiguration demoArtifacts
           (fun a => a) (fun p => p)
           demoWriteFault (fun _ _ => None) (fun _ _ => None)
           (Build_ConfigParams false false false "target")
           (Build_Disk emptyFolder [])).

Lemma demoTornRun :
  run (fun a _ => a) demoResolve demoConfiguration demoArtifacts
    (fun a => a) (fun p => p)
    demoWriteFault (fun _ _ => None) (fun _ _ => None)
    (Build_ConfigParams false false false "target")
    (Build_Disk emptyFolder [])
  = (inl (Error "EACCES: permission denied, open 'target/preset.yml'"),
     demoTorn).
Proof. vm_compute. reflexivity. Qed.

(** A fresh run whose write of preset.yml throws: the folder is left with
    addresses.yml alone. *)
Lemma failed_run_keeps_companion_files_witness :
  addressesYml (folder demoTorn) <> None
  /\ (companions demoTorn = (None, None)
      \/ (exists (d1 : Disk) (addresses : Addresses.t),
            demoWriteFault "target/addresses.yml" d1
            = Some (Error "EACCES: permission denied, open 'target/preset.yml'")
            /\ companions demoTorn = (None, None))
      \/ (exists (d1 : Disk) (presetData : ConfigPreset.t) addresses,
            demoWriteFault "target/preset.yml" d1
            = Some (Error "EACCES: permission denied, open 'target/preset.yml'")
            /\ companions demoTorn = (None, Some addresses))).
Proof.
  split.
  - intro H. discriminate H.
  - exact (failed_run_keeps_companion_files (fun a _ => a) demoResolve
             demoConfiguration demoArtifacts (fun a => a) (fun p => p)
             demoWriteFault (fun _ _ => None) (fun _ _ => None)
             (Build_ConfigParams false false false "target")
             (Build_Disk emptyFolder []) _ demoTorn demoTornRun).
Defined.

Definition demoFreshParams : ConfigParams :=
  Build_ConfigParams false false false "target".

(** The disk after the first run of the demo on an empty folder. *)
Definition demoCompleted : Disk :=
  Eval vm_compute in
    snd (run (fun a _ => a) demoResolve demoConfiguration demoArtifacts
           (fun a => a) (fun p => p)
      (fun _ _ => None) (fun o _ => o) (fun o _ => o) demoFreshParams
           (Build_Disk emptyFolder [])).

Lemma demoCompletedRun :
  exists result,
    run (fun a _ => a) demoResolve demoConfiguration demoArtifacts
      (fun a => a) (fun p => p)
      (fun _ _ => None) (fun o _ => o) (fun o _ => o) demoFreshParams (Build_Disk emptyFolder [])
    = (inr result, demoCompleted).
Proof. eexists. vm_compute. reflexivity. Qed.

Lemma completed_run_can_be_read_back_witness :
  exists p a d'',
    companions demoCompleted = (Some p, Some a)
    /\ run (fun a _ => a) demoResolve demoConfiguration demoArtifacts
         (fun a => a) (fun p => p)
      (fun _ _ => None) (fun o _ => o) (fun o _ => o) demoFreshParams demoCompleted
       = (inr (p, a), d'')
    /\ companions d'' = companions demoCompleted.
Proof.
  destruct demoCompletedRun as (result & Hrun).
  destruct (completed_run_can_be_read_back (fun a _ => a) demoResolve
              demoConfiguration demoArtifacts (fun a => a) (fun p => p)
      (fun _ _ => None) (fun o _ => o) (fun o _ => o)
              demoFreshParams (Build_Disk emptyFolder []) result demoCompleted
              Hrun) as (p & a & Hfiles & Hagain).
  destruct (Hagain demoFreshParams eq_refl eq_refl) as (d'' & Hsecond & Hsame).
  exists p, a, d''. split; [exact Hfiles|]. split; [exact Hsecond | exact Hsame].
Defined.

Lemma reset_starts_fresh_witness :
  let params := Build_ConfigParams false true false "target" in
  run (fun a _ => a) demoResolve demoConfiguration demoArtifacts
    (fun a => a) (fun p => p)
      (fun _ _ => None) (fun o _ => o) (fun o _ => o) params demoConfigured
  = configure demoResolve demoConfiguration demoArtifacts (fun a => a)
      (fun p => p)
      (fun _ _ => None) (fun o _ => o) (fun o _ => o) params None None
      (Build_Disk emptyFolder [DeletedTarget]).
Proof.
  intros params.
  exact (reset_starts_fresh (fun a _ => a) demoResolve demoConfiguration
           demoArtifacts (fun a => a) (fun p => p)
      (fun _ _ => None) (fun o _ => o) (fun o _ => o) params demoConfigured
           eq_refl).
Defined.

(** [resolveNemesis] with collaborators that succeed and nothing bundled. *)
Abbreviation demoResolveNemesis :=
  (resolveNemesis (fun _ => false) (fun _ => false) "target/nemesis/seed"
     (fun _ _ => ok tt) (fun _ _ => ok tt) (fun _ _ => ok tt)).

Lemma demoNemesisRun :
  demoResolveNemesis "/root" demoPreset demoOldAddresses false []
  = inr (tt, [MadeFolder; DeletedFolder; MadeFolder; GeneratedNemesis;
              ValidatedSeed "target/nemesis/seed"]).
Proof. vm_compute. reflexivity. Qed.

Lemma resolveNemesis_steps_witness :
  exists steps,
    [MadeFolder; DeletedFolder; MadeFolder; GeneratedNemesis;
     ValidatedSeed "target/nemesis/seed"] = [] ++ MadeFolder :: steps
    /\ In GeneratedNemesis steps.
Proof.
  destruct (resolveNemesis_steps (fun _ => false) (fun _ => false)
              "target/nemesis/seed" (fun _ _ => ok tt) (fun _ _ => ok tt)
              (fun _ _ => ok tt) "/root" demoPreset demoOldAddresses false []
              _ demoNemesisRun) as (steps & Hsteps & Hgenerated & _).
  exists steps. split; [exact Hsteps|].
  apply Hgenerated. split; reflexivity.
Defined.

(** The demo preset without its nemesis: no seed can be found. *)
Lemma demoNemesisMissing :
  demoResolveNemesis "/root" (ConfigPreset.withNemesis None demoPreset)
    demoOldAddresses false []
  = inl (Error "Seed could not be found!!!!").
Proof. vm_compute. reflexivity. Qed.

Lemma resolveNemesis_throws_without_nemesis_witness :
  ConfigPreset.nemesis (ConfigPreset.withNemesis None demoPreset) = None
  /\ known (Error "Seed could not be found!!!!") = false.
Proof.
  destruct (resolveNemesis_throws_without_nemesis (fun _ => false)
              (fun _ => false) "target/nemesis/seed" (fun _ _ => ok tt)
              (fun _ _ => ok tt) (fun _ _ => ok tt)
              (fun _ _ => eq_refl) (fun _ _ => eq_refl) (fun _ _ => eq_refl)
              "/root" (ConfigPreset.withNemesis None demoPreset)
              demoOldAddresses false [] _ demoNemesisMissing)
    as (Hnemesis & _ & Hknown & _).
  split; [exact Hnemesis | exact Hknown].
Defined.


End Service.
